(** * claude-memory cloud sync: a shallow embedding of [src/cloud]

    The development follows the Python package file by file:
    [config.py] (settings), [client.py] (the remote gateway),
    [sync.py] (one reconciliation cycle and the daemon), [summarize.py]
    (clustering and additive summaries) and [restore.py] (from the cloud
    back to the local service).  Stateful code is written in a
    state-and-exception monad over the remote store; Python dictionaries
    with a fixed set of keys are records, a key that may be missing or
    [None] is an [option]; a [str] is a [string] with one character per code
    point. *)

From Stdlib Require Import ZArith List Floats.
From Stdlib.Strings Require Import Byte Ascii String.
From stdpp Require Import gmap strings list fin_maps sorting pretty.

Set Warnings "-register-all,-clear-no-such-hyp".
Local Open Scope Z_scope.

(** ** Python values shared by all modules *)

(** Python [float] arithmetic as used by the package.  The theorems hold for
    every interpretation of the operations; the instance [float64] below runs
    them on IEEE binary64 numbers. *)
Class PyFloat (F : Type) := {
  f_zero : F;                      (* the literal 0 / 0.0 that starts [sum] *)
  f_add : F → F → F;
  f_mul : F → F → F;
  f_div : F → F → F;
  f_pow_half : F → F;              (* [x ** 0.5] *)
  f_eqb : F → F → bool;            (* [==] *)
  f_geb : F → F → bool;            (* [>=] *)
  f_unpack : list byte → F;        (* [struct.unpack] of one packed float32 *)
}.

(** Decoded JSON, for the [metadata] columns. *)
Inductive json :=
| JNull
| JBool (b : bool)
| JNum (n : Z)
| JStr (s : string)
| JArr (xs : list json)
| JObj (kvs : list (string * json)).

(** Python truthiness of a decoded JSON value ([x or {}]). *)
Definition json_truthy (j : json) : bool :=
  match j with
  | JNull => false
  | JBool b => b
  | JNum n => negb (n =? 0)
  | JStr s => negb (String.eqb s "")
  | JArr xs => negb (Nat.eqb (length xs) 0)
  | JObj kvs => negb (Nat.eqb (length kvs) 0)
  end.

(** Truthiness of optional strings, numbers and lists ([if mem.get(k):]). *)
Definition str_truthy (s : option string) : bool :=
  match s with Some s => negb (String.eqb s "") | None => false end.

Definition list_truthy {A} (l : option (list A)) : bool :=
  match l with Some (_ :: _) => true | _ => false end.

(** Truthiness of an optional number, and [x or 0]. *)
Definition num_truthy (t : option Z) : bool :=
  match t with Some z => negb (z =? 0) | None => false end.

Definition or_zero (t : option Z) : Z :=
  match t with Some z => z | None => 0 end.

(** Exceptions: the class that [except] clauses dispatch on and [str(e)]. *)
Inductive exn_class :=
| FileNotFoundError | RuntimeError | TypeError | SqliteError | APIError.

Record exn := Exn { exn_kind : exn_class; exn_str : string }.

Inductive Result (A : Type) :=
| Ok (a : A)
| Raise (e : exn).
Arguments Ok {A} a.
Arguments Raise {A} e.

(** ** The state-and-exception monad

    A computation reads and updates a state [St]; the state reached when an
    exception is raised is kept, as it is in Python. *)
Definition M (St A : Type) : Type := St → Result A * St.

Definition ret {St A} (a : A) : M St A := λ s, (Ok a, s).

Definition raise {St A} (e : exn) : M St A := λ s, (Raise e, s).

Definition bind {St A B} (m : M St A) (k : A → M St B) : M St B :=
  λ s, match m s with
       | (Ok a, s') => k a s'
       | (Raise e, s') => (Raise e, s')
       end.

(** [try: m  except Exception as e: h e] *)
Definition try_except {St A} (m : M St A) (h : exn → M St A) : M St A :=
  λ s, match m s with
       | (Ok a, s') => (Ok a, s')
       | (Raise e, s') => h e s'
       end.

Definition get {St} : M St St := λ s, (Ok s, s).
Definition modify {St} (f : St → St) : M St unit := λ s, (Ok tt, f s).

Declare Scope py_scope.
Delimit Scope py_scope with py.
Notation "x <- m ;; k" := (bind m (λ x, k))
  (at level 100, m at next level, k at level 200, right associativity)
  : py_scope.
Notation "m ;;; k" := (bind m (λ _, k))
  (at level 100, k at level 200, right associativity) : py_scope.
Local Open Scope py_scope.

(** [for x in xs: acc = body(acc, x)] *)
Fixpoint for_each {St A X} (xs : list X) (acc : A) (body : A → X → M St A)
  : M St A :=
  match xs with
  | [] => ret acc
  | x :: xs' => acc' <- body acc x ;; for_each xs' acc' body
  end.

(** Run a computation on one component of a larger state. *)
Definition zoom {S T A} (proj : T → S) (inj : S → T → T) (m : M S A) : M T A :=
  λ t, let '(r, s') := m (proj t) in (r, inj s' t).

(** [enumerate(xs)] *)
Fixpoint enumerate_from {A} (n : nat) (xs : list A) : list (nat * A) :=
  match xs with
  | [] => []
  | x :: xs' => (n, x) :: enumerate_from (S n) xs'
  end.
Definition enumerate {A} (xs : list A) : list (nat * A) := enumerate_from 0 xs.

(** [range(0, n, step)] for a positive [step]. *)
Definition range_step (n step : nat) : list nat :=
  (λ k, (k * step)%nat) <$> seq 0 ((n + step - 1) / step).

(** [xs[i:i + k]] *)
Definition slice {A} (xs : list A) (i k : nat) : list A := take k (drop i xs).

(** ** config.py and the external collaborators

    [DEVICE_NAME], [is_configured], [ENV_FILE_PATH] and [LOCAL_DB_PATH] are
    the settings of [config.py] that the engines read.  The other fields
    stand for library calls whose results the package only passes on: the
    wall clock ([datetime.now(timezone.utc).isoformat()], the elapsed
    milliseconds of a cycle), [hashlib.sha256(..).hexdigest()] and
    [json.loads] ([None] when it raises [JSONDecodeError] or [TypeError]). *)
Class Platform := {
  DEVICE_NAME : string;
  is_configured : bool;
  ENV_FILE_PATH : string;
  LOCAL_DB_PATH : string;
  utcnow_isoformat : string;
  elapsed_ms : Z;
  sha256_hexdigest : string → string;
  json_loads : string → option json;
}.

(** ** client.py: the remote gateway *)
Module client.
Section client.
Context {F : Type} {FA : PyFloat F} {P : Platform}.

(** A row of the remote [memories] table, as [select("*")] returns it. *)
Record MemoryRow := {
  content_hash : string;
  content : string;
  tags : option string;
  memory_type : option string;
  metadata : json;
  created_at : option Z;
  updated_at : option Z;
  source_device : string;
  synced_at : string;
  local_deleted : bool;
  embedding : option (list F);
  is_summary : bool;
  summarized_from : option (list string);
}.

(** The dictionary [data] / [row] that the upserts send; [p_embedding] is
    [None] when the key is left out. *)
Record MemoryPayload := {
  p_content_hash : string;
  p_content : string;
  p_tags : option string;
  p_memory_type : option string;
  p_metadata : json;
  p_created_at : option Z;
  p_updated_at : option Z;
  p_source_device : string;
  p_synced_at : string;
  p_local_deleted : bool;
  p_embedding : option (list F);
}.

(** The dictionaries handed to [upsert_memories_batch]. *)
Record Mem := {
  m_content_hash : string;
  m_content : string;
  m_tags : option string;
  m_memory_type : option string;
  m_metadata : json;
  m_created_at : option Z;
  m_updated_at : option Z;
  m_embedding : option (list F);
}.

Record DeletionLogEntry := {
  d_content_hash : string;
  original_content : string;
  original_tags : option string;
  original_type : option string;
  original_metadata : json;
  reason : string;
  device_name : string;
}.

Record GraphEdge := {
  source_hash : string;
  target_hash : string;
  similarity : option F;
  relationship_type : option string;
  g_metadata : json;
}.

(** A [sync_state] row; [get_sync_state] also returns dictionaries that lack
    [device_name] and [last_sync_at]. *)
Record SyncState := {
  s_device_name : option string;
  last_sync_at : option string;
  last_sync_updated_at : option Z;
  memories_synced : option Z;
  status : string;
}.

Record Tables := {
  memories : gmap string MemoryRow;
  deletion_log : list DeletionLogEntry;
  memory_graph : gmap (string * string) GraphEdge;
  sync_state : gmap string SyncState;
}.

(** The requests that [client.py] and [summarize.py] send. *)
Inductive Request :=
| UpsertMemory (data : MemoryPayload)
| UpsertMemories (chunk : list MemoryPayload)
| SelectMemory (h : string)
| InsertDeletionLog (e : DeletionLogEntry)
| UpdateLocalDeleted (h : string)
| UpdateIsSummary (h : string) (sources : list string)
| SelectMemoriesPage (include_deleted : bool) (lo hi : nat)
| UpsertGraphEdge (e : GraphEdge)
| SelectSyncState (device : string)
| UpsertSyncState (row : SyncState).

(** The remote service: its tables, the requests received so far, and which
    request it rejects ([faults trace rq = Some msg] makes [execute()] raise
    with text [msg]; the decision may depend on everything sent before). *)
Record Remote := {
  tables : Tables;
  trace : list Request;
  faults : list Request → Request → option string;
}.

Definition set_memories (f : gmap string MemoryRow → gmap string MemoryRow)
  (t : Tables) : Tables :=
  {| memories := f (memories t); deletion_log := deletion_log t;
     memory_graph := memory_graph t; sync_state := sync_state t |}.

Definition set_deletion_log (f : list DeletionLogEntry → list DeletionLogEntry)
  (t : Tables) : Tables :=
  {| memories := memories t; deletion_log := f (deletion_log t);
     memory_graph := memory_graph t; sync_state := sync_state t |}.

Definition set_memory_graph
  (f : gmap (string * string) GraphEdge → gmap (string * string) GraphEdge)
  (t : Tables) : Tables :=
  {| memories := memories t; deletion_log := deletion_log t;
     memory_graph := f (memory_graph t); sync_state := sync_state t |}.

Definition set_sync_state (f : gmap string SyncState → gmap string SyncState)
  (t : Tables) : Tables :=
  {| memories := memories t; deletion_log := deletion_log t;
     memory_graph := memory_graph t; sync_state := f (sync_state t) |}.

(** Modelled from the spec: the remote store (Supabase tables [memories],
    [deletion_log], [memory_graph], [sync_state]; their schema is not part of
    the sources).  An upsert keyed by [content_hash] overwrites the columns
    it sends and keeps the others; a new row gets the column defaults. *)
Definition merge_row (p : MemoryPayload) (old : option MemoryRow) : MemoryRow :=
  {| content_hash := p_content_hash p;
     content := p_content p;
     tags := p_tags p;
     memory_type := p_memory_type p;
     metadata := p_metadata p;
     created_at := p_created_at p;
     updated_at := p_updated_at p;
     source_device := p_source_device p;
     synced_at := p_synced_at p;
     local_deleted := p_local_deleted p;
     embedding := match p_embedding p with
                  | Some e => Some e
                  | None => old ≫= embedding
                  end;
     is_summary := from_option is_summary false old;
     summarized_from := old ≫= summarized_from |}.

Definition store_upsert (p : MemoryPayload) (t : gmap string MemoryRow)
  : gmap string MemoryRow :=
  <[p_content_hash p := merge_row p (t !! p_content_hash p)]> t.

Definition with_local_deleted (b : bool) (r : MemoryRow) : MemoryRow :=
  {| content_hash := content_hash r; content := content r; tags := tags r;
     memory_type := memory_type r; metadata := metadata r;
     created_at := created_at r; updated_at := updated_at r;
     source_device := source_device r; synced_at := synced_at r;
     local_deleted := b; embedding := embedding r;
     is_summary := is_summary r; summarized_from := summarized_from r |}.

Definition with_summary (sources : list string) (r : MemoryRow) : MemoryRow :=
  {| content_hash := content_hash r; content := content r; tags := tags r;
     memory_type := memory_type r; metadata := metadata r;
     created_at := created_at r; updated_at := updated_at r;
     source_device := source_device r; synced_at := synced_at r;
     local_deleted := local_deleted r; embedding := embedding r;
     is_summary := true; summarized_from := Some sources |}.

(** [ORDER BY created_at] (ascending, [NULL] last). *)
Definition created_leb (a b : MemoryRow) : bool :=
  match created_at a, created_at b with
  | Some x, Some y => x <=? y
  | Some _, None => true
  | None, Some _ => false
  | None, None => true
  end.

Definition created_le (a b : MemoryRow) : Prop := created_leb a b = true.

#[global] Instance created_le_dec a b : Decision (created_le a b).
Proof. unfold created_le. apply _. Defined.

(** Modelled from the spec: the rows a paged full scan ranges over, in the
    remote store's order (ties are broken as the sort leaves them). *)
Definition rows_by_created_at (include_deleted : bool) (t : Tables)
  : list MemoryRow :=
  merge_sort created_le
    (filter (λ r, include_deleted = true ∨ local_deleted r = false)
            (snd <$> map_to_list (memories t))).

(** Modelled from the spec: what an accepted request does to the tables and
    what it returns; the request is recorded in the trace whether it is
    accepted or not. *)
Definition request {A} (rq : Request) (effect : Tables → Tables * A)
  : M Remote A :=
  λ r, match faults r (trace r) rq with
       | Some msg =>
           (Raise (Exn APIError msg),
            {| tables := tables r; trace := trace r ++ [rq];
               faults := faults r |})
       | None =>
           let '(t', a) := effect (tables r) in
           (Ok a, {| tables := t'; trace := trace r ++ [rq];
                     faults := faults r |})
       end.

Definition _get_client : M Remote unit :=
  if is_configured then ret tt
  else raise (Exn RuntimeError
    ("Supabase not configured. Run: setup-cloud.sh" +:+
     String "010"%char "Or set SUPABASE_URL and SUPABASE_SERVICE_KEY in " +:+
     ENV_FILE_PATH)).

Definition upsert_memory (content_hash content : string)
    (tags memory_type : option string) (metadata : option json)
    (created_at updated_at : option Z) (embedding : option (list F))
  : M Remote bool :=
  _get_client ;;;
  let data :=
    {| p_content_hash := content_hash;
       p_content := content;
       p_tags := tags;
       p_memory_type := memory_type;
       p_metadata := match metadata with
                     | Some j => if json_truthy j then j else JObj []
                     | None => JObj []
                     end;
       p_created_at := created_at;
       p_updated_at := updated_at;
       p_source_device := DEVICE_NAME;
       p_synced_at := utcnow_isoformat;
       p_local_deleted := false;
       p_embedding := embedding |} in
  try_except
    (request (UpsertMemory data) (λ t, (set_memories (store_upsert data) t, tt)) ;;;
     ret true)
    (λ e, ret false).

Definition batch_row (mem : Mem) : MemoryPayload :=
  {| p_content_hash := m_content_hash mem;
     p_content := m_content mem;
     p_tags := m_tags mem;
     p_memory_type := m_memory_type mem;
     p_metadata := m_metadata mem;
     p_created_at := m_created_at mem;
     p_updated_at := m_updated_at mem;
     p_source_device := DEVICE_NAME;
     p_synced_at := utcnow_isoformat;
     p_local_deleted := false;
     p_embedding := if list_truthy (m_embedding mem) then m_embedding mem
                    else None |}.

(** The fallback of a chunk that failed: one upsert per row. *)
Definition upsert_rows_individually (chunk : list MemoryPayload)
    (counts : nat * nat) : M Remote (nat * nat) :=
  for_each chunk counts (λ '(success, failed) row,
    try_except
      (request (UpsertMemory row)
               (λ t, (set_memories (store_upsert row) t, tt)) ;;;
       ret (S success, failed))
      (λ e2, ret (success, S failed))).

Definition chunk_size : nat := 50.

(** The body of the chunk loop: one bulk upsert, or the fallback. *)
Definition upsert_chunk (chunk : list MemoryPayload) (counts : nat * nat)
  : M Remote (nat * nat) :=
  let '(success, failed) := counts in
  try_except
    (request (UpsertMemories chunk)
       (λ t, (set_memories (λ m, foldl (λ m p, store_upsert p m) m chunk) t,
              tt)) ;;;
     ret ((success + length chunk)%nat, failed))
    (λ e, upsert_rows_individually chunk (success, failed)).

Definition upsert_memories_batch (memories : list Mem) : M Remote (nat * nat) :=
  _get_client ;;;
  let batch := batch_row <$> memories in
  for_each (range_step (length batch) chunk_size) (0%nat, 0%nat)
    (λ counts i, upsert_chunk (slice batch i chunk_size) counts).

(** The dictionary inserted into [deletion_log]. *)
Definition log_entry (content_hash reason : string) (original : MemoryRow)
  : DeletionLogEntry :=
  {| d_content_hash := content_hash;
     original_content := content original;
     original_tags := tags original;
     original_type := memory_type original;
     original_metadata := metadata original;
     reason := reason;
     device_name := DEVICE_NAME |}.

Definition mark_locally_deleted (content_hash : string) (reason : string)
  : M Remote bool :=
  _get_client ;;;
  try_except
    (data <- request (SelectMemory content_hash)
              (λ t, (t, option_list (memories t !! content_hash))) ;;
     match data with
     | original :: _ =>
         request (InsertDeletionLog (log_entry content_hash reason original))
           (λ t, (set_deletion_log
                    (λ l, l ++ [log_entry content_hash reason original]) t,
                  tt))
     | [] => ret tt
     end ;;;
     request (UpdateLocalDeleted content_hash)
       (λ t, (set_memories (alter (with_local_deleted true) content_hash) t,
              tt)) ;;;
     ret true)
    (λ e, ret false).

Definition page_size : nat := 1000.

(** The [while True] loop of [get_all_memories]; [fuel] bounds the number of
    pages requested ([get_all_pages_fuel] shows the bound is never hit). *)
Fixpoint get_all_pages (fuel : nat) (include_deleted : bool) (offset : nat)
    (all_memories : list MemoryRow) : M Remote (list MemoryRow) :=
  match fuel with
  | O => ret all_memories
  | S fuel' =>
      step <- try_except
        (data <- request
                  (SelectMemoriesPage include_deleted offset
                     (offset + page_size - 1)%nat)
                  (λ t, (t, slice (rows_by_created_at include_deleted t)
                                  offset page_size)) ;;
         match data with
         | [] => ret (inl all_memories)
         | _ => if (length data <? page_size)%nat
                then ret (inl (all_memories ++ data))
                else ret (inr (all_memories ++ data))
         end)
        (λ e, ret (inl all_memories)) ;;
      match step with
      | inl done => ret done
      | inr more =>
          get_all_pages fuel' include_deleted (offset + page_size)%nat more
      end
  end.

Definition get_all_memories (include_deleted : bool)
  : M Remote (list MemoryRow) :=
  _get_client ;;;
  r <- get ;;
  get_all_pages (S (size (memories (tables r)))) include_deleted 0 [].

Definition upsert_graph_edge (source_hash target_hash : string)
    (similarity : option F) (relationship_type : option string)
    (metadata : option json) : M Remote bool :=
  _get_client ;;;
  let edge :=
    {| source_hash := source_hash;
       target_hash := target_hash;
       similarity := similarity;
       relationship_type := relationship_type;
       g_metadata := match metadata with
                     | Some j => if json_truthy j then j else JObj []
                     | None => JObj []
                     end |} in
  try_except
    (request (UpsertGraphEdge edge)
       (λ t, (set_memory_graph <[(source_hash, target_hash) := edge]> t, tt)) ;;;
     ret true)
    (λ e, ret false).

Definition get_sync_state : M Remote SyncState :=
  _get_client ;;;
  try_except
    (data <- request (SelectSyncState DEVICE_NAME)
              (λ t, (t, option_list (sync_state t !! DEVICE_NAME))) ;;
     match data with
     | row :: _ => ret row
     | [] => ret {| s_device_name := Some DEVICE_NAME;
                    last_sync_at := None;
                    last_sync_updated_at := Some 0;
                    memories_synced := Some 0;
                    status := "never_synced" |}
     end)
    (λ e, ret {| s_device_name := None;
                 last_sync_at := None;
                 last_sync_updated_at := Some 0;
                 memories_synced := Some 0;
                 status := "error" |}).

(** The dictionary that [update_sync_state] upserts. *)
Definition sync_row (last_sync_updated_at : Z) (memories_synced : option Z)
    (status : string) : SyncState :=
  {| s_device_name := Some DEVICE_NAME;
     last_sync_at := Some utcnow_isoformat;
     last_sync_updated_at := Some last_sync_updated_at;
     memories_synced := memories_synced;
     status := status |}.

Definition update_sync_state (last_sync_updated_at : Z)
    (memories_synced : option Z) (status : string) : M Remote bool :=
  _get_client ;;;
  let row := sync_row last_sync_updated_at memories_synced status in
  try_except
    (request (UpsertSyncState row)
       (λ t, (set_sync_state <[DEVICE_NAME := row]> t, tt)) ;;;
     ret true)
    (λ e, ret false).

(** *** Vocabulary for the statements about the gateway *)

(** The state after a request was sent and rejected. *)
Definition sent (rq : Request) (r : Remote) : Remote :=
  {| tables := tables r; trace := trace r ++ [rq]; faults := faults r |}.

(** The state after an accepted single-row upsert. *)
Definition upserted (row : MemoryPayload) (r : Remote) : Remote :=
  {| tables := set_memories (store_upsert row) (tables r);
     trace := trace r ++ [UpsertMemory row];
     faults := faults r |}.

(** The state after an accepted bulk upsert. *)
Definition bulk_upserted (chunk : list MemoryPayload) (r : Remote) : Remote :=
  {| tables := set_memories (λ m, foldl (λ m p, store_upsert p m) m chunk)
                 (tables r);
     trace := trace r ++ [UpsertMemories chunk];
     faults := faults r |}.

(** The state after an accepted upsert of a [sync_state] row. *)
Definition synced (row : SyncState) (r : Remote) : Remote :=
  {| tables := set_sync_state <[DEVICE_NAME := row]> (tables r);
     trace := trace r ++ [UpsertSyncState row];
     faults := faults r |}.

(** The watermark stored for this device. *)
Definition watermark (r : Remote) : option Z :=
  sync_state (tables r) !! DEVICE_NAME ≫= last_sync_updated_at.

(** Only the [memories] table may differ between [t] and [t']. *)
Definition same_but_memories (t t' : Tables) : Prop :=
  deletion_log t' = deletion_log t ∧
  memory_graph t' = memory_graph t ∧
  sync_state t' = sync_state t.

(** Only the [sync_state] table may differ between [t] and [t']. *)
Definition same_but_sync_state (t t' : Tables) : Prop :=
  memories t' = memories t ∧
  deletion_log t' = deletion_log t ∧
  memory_graph t' = memory_graph t.

(** A payload that carries [local_deleted = False]. *)
Definition unflagged (p : MemoryPayload) : Prop := p_local_deleted p = false.

(** The row stored under [h] exists and is not flagged as deleted. *)
Definition cleared (m : gmap string MemoryRow) (h : string) : Prop :=
  ∃ row, m !! h = Some row ∧ local_deleted row = false.

(** Every row of [m'] is a row of [m] or is not flagged as deleted. *)
Definition only_cleared (m m' : gmap string MemoryRow) : Prop :=
  ∀ k row, m' !! k = Some row → m !! k = Some row ∨ local_deleted row = false.

(** The chunks that the loop of [upsert_memories_batch] visits. *)
Definition chunks {A} (batch : list A) : list (list A) :=
  (λ i, slice batch i chunk_size) <$> range_step (length batch) chunk_size.

(** The requests one chunk causes: the bulk upsert and, when that is
    rejected ([ok = false]), one upsert per row. *)
Definition attempt (chunk : list MemoryPayload) (ok : bool)
  : list (Request) :=
  UpsertMemories chunk :: (if ok then [] else UpsertMemory <$> chunk).

(** A fault model in which rejection depends on the rows alone: an upsert
    is rejected exactly when it carries a row that [bad] flags. *)
Definition rejects_exactly (bad : MemoryPayload → bool) (r : Remote) : Prop :=
  (∀ tr row, faults r tr (UpsertMemory row) = None ↔ bad row = false) ∧
  (∀ tr chunk,
     faults r tr (UpsertMemories chunk) = None ↔ existsb bad chunk = false).

Definition count (p : MemoryPayload → bool) (b : bool)
    (rows : list MemoryPayload) : nat :=
  length (filter (λ row, p row = b) rows).

(** The rows that an upsert carries. *)
Definition carried (rq : Request) : list MemoryPayload :=
  match rq with
  | UpsertMemory data => [data]
  | UpsertMemories chunk => chunk
  | _ => []
  end.

(** The number of rows carried by the requests of [sent] that the store
    accepted; [tr] is what it had received before. *)
Fixpoint rows_accepted (faults : list Request → Request → option string)
    (tr sent : list Request) : nat :=
  match sent with
  | [] => 0
  | rq :: rest =>
      (match faults tr rq with
       | None => length (carried rq)
       | Some _ => 0
       end + rows_accepted faults (tr ++ [rq]) rest)%nat
  end.

(** Every row carried by a request of [sent] that the store accepted is
    stored in [m] with the deletion flag cleared. *)
Definition accepted_cleared
    (faults : list Request → Request → option string)
    (tr sent : list Request) (m : gmap string MemoryRow) : Prop :=
  ∀ i rq p, sent !! i = Some rq → faults (tr ++ take i sent) rq = None →
            p ∈ carried rq → cleared m (p_content_hash p).

End client.

Arguments MemoryRow F : clear implicits.
Arguments MemoryPayload F : clear implicits.
Arguments Mem F : clear implicits.
Arguments GraphEdge F : clear implicits.
Arguments Tables F : clear implicits.
Arguments Request F : clear implicits.
Arguments Remote F : clear implicits.
End client.

(** ** sync.py: one reconciliation cycle *)
Module sync.
Section sync.
Context {F : Type} {FA : PyFloat F} {P : Platform}.

(** The local SQLite database.  Timestamps are [REAL] columns that the engine
    only compares and copies; they are integers here. *)
Record Row := {
  rowid : Z;
  row_content_hash : string;
  row_content : string;
  row_tags : option string;
  row_memory_type : option string;
  row_metadata : option string;
  row_created_at : option Z;
  row_updated_at : option Z;
  row_deleted_at : option Z;
}.

Record GraphRow := {
  g_source_hash : string;
  g_target_hash : string;
  g_similarity : option F;
  g_relationship_type : option string;
  g_metadata : option string;
}.

(** A table that can be queried, or one on which every query raises. *)
Inductive Table (A : Type) :=
| Rows (rows : list A)
| Broken (msg : string).
Arguments Rows {A} rows.
Arguments Broken {A} msg.

Record Connection := {
  memories : Table Row;
  memory_embeddings : Table (Z * option (list byte));
  memory_graph : Table GraphRow;
}.

(** The dictionaries that [_get_local_memories] returns. *)
Record Memory := {
  content_hash : string;
  content : string;
  tags : option string;
  memory_type : option string;
  metadata : json;
  created_at : option Z;
  updated_at : option Z;
  deleted_at : option Z;
}.

Record Stats := {
  new_memories : nat;
  updated_memories : nat;
  deleted_marked : nat;
  graph_edges : nat;
  errors : nat;
  duration_ms : Z;
  error_message : option string;
}.

Fixpoint unpack_floats (blob : list byte) : list F :=
  match blob with
  | a :: b :: c :: d :: rest => f_unpack [a; b; c; d] :: unpack_floats rest
  | _ => []
  end.

Definition _deserialize_embedding (blob : option (list byte))
  : option (list F) :=
  match blob with
  | None => None
  | Some blob =>
      if (length blob mod 4 =? 0)%nat then Some (unpack_floats blob)
      else None
  end.

(** [WHERE updated_at > ? OR (updated_at IS NULL AND created_at > ?)] *)
Definition changed_since (since : Z) (r : Row) : bool :=
  match row_updated_at r with
  | Some u => since <? u
  | None => match row_created_at r with
            | Some c => since <? c
            | None => false
            end
  end.

(** [COALESCE(updated_at, created_at)] *)
Definition coalesce_ts (r : Row) : option Z :=
  match row_updated_at r with
  | Some u => Some u
  | None => row_created_at r
  end.

Definition ts_leb (a b : Row) : bool :=
  match coalesce_ts a, coalesce_ts b with
  | Some x, Some y => x <=? y
  | None, _ => true
  | Some _, None => false
  end.

Definition ts_le (a b : Row) : Prop := ts_leb a b = true.

#[global] Instance ts_le_dec a b : Decision (ts_le a b).
Proof. unfold ts_le. apply _. Defined.

Definition parse_metadata (raw : option string) : json :=
  if str_truthy raw then
    match json_loads (default ""%string raw) with
    | Some j => j
    | None => JObj []
    end
  else JObj [].

Definition to_memory (r : Row) : Memory :=
  {| content_hash := row_content_hash r;
     content := row_content r;
     tags := row_tags r;
     memory_type := row_memory_type r;
     metadata := parse_metadata (row_metadata r);
     created_at := row_created_at r;
     updated_at := row_updated_at r;
     deleted_at := row_deleted_at r |}.

Definition _get_local_memories (conn : Connection) (since_updated_at : Z)
  : Result (list Memory) :=
  match memories conn with
  | Broken msg => Raise (Exn SqliteError msg)
  | Rows rows =>
      Ok (to_memory <$>
            merge_sort ts_le (filter (λ r, changed_since since_updated_at r = true) rows))
  end.

Definition _get_local_embeddings (conn : Connection)
    (content_hashes : list string) : gmap string (list F) :=
  foldl (λ embeddings content_hash,
    match memories conn, memory_embeddings conn with
    | Rows rows, Rows vectors =>
        match filter (λ r, row_content_hash r = content_hash) rows with
        | [] => embeddings
        | row :: _ =>
            match filter (λ v, v.1 = rowid row) vectors with
            | (_, Some (b :: blob)) :: _ =>
                match _deserialize_embedding (Some (b :: blob)) with
                | Some (x :: embedding) =>
                    <[content_hash := x :: embedding]> embeddings
                | _ => embeddings
                end
            | _ => embeddings
            end
        end
    | _, _ => embeddings
    end) ∅ content_hashes.

Definition _get_locally_deleted (conn : Connection) : list string :=
  match memories conn with
  | Rows rows =>
      row_content_hash <$> filter (λ r, row_deleted_at r ≠ None) rows
  | Broken _ => []
  end.

Definition stats0 : Stats :=
  {| new_memories := 0; updated_memories := 0; deleted_marked := 0;
     graph_edges := 0; errors := 0; duration_ms := 0;
     error_message := None |}.

Definition incr_deleted_marked (s : Stats) : Stats :=
  {| new_memories := new_memories s; updated_memories := updated_memories s;
     deleted_marked := S (deleted_marked s); graph_edges := graph_edges s;
     errors := errors s; duration_ms := duration_ms s;
     error_message := error_message s |}.

Definition incr_graph_edges (s : Stats) : Stats :=
  {| new_memories := new_memories s; updated_memories := updated_memories s;
     deleted_marked := deleted_marked s; graph_edges := S (graph_edges s);
     errors := errors s; duration_ms := duration_ms s;
     error_message := error_message s |}.

Definition set_upserted (success failed : nat) (s : Stats) : Stats :=
  {| new_memories := success; updated_memories := updated_memories s;
     deleted_marked := deleted_marked s; graph_edges := graph_edges s;
     errors := failed; duration_ms := duration_ms s;
     error_message := error_message s |}.

Definition set_duration (ms : Z) (s : Stats) : Stats :=
  {| new_memories := new_memories s; updated_memories := updated_memories s;
     deleted_marked := deleted_marked s; graph_edges := graph_edges s;
     errors := errors s; duration_ms := ms;
     error_message := error_message s |}.

Definition set_error (msg : string) (s : Stats) : Stats :=
  {| new_memories := new_memories s; updated_memories := updated_memories s;
     deleted_marked := deleted_marked s; graph_edges := graph_edges s;
     errors := S (errors s); duration_ms := duration_ms s;
     error_message := Some msg |}.

(** The cycle runs on the [stats] dictionary and the remote store. *)
Definition Cycle (A : Type) : Type := M (Stats * client.Remote F) A.

Definition remote {A} (m : M (client.Remote F) A) : Cycle A :=
  zoom snd (λ r st, (st.1, r)) m.

Definition update_stats (f : Stats → Stats) : Cycle unit :=
  modify (λ st, (f st.1, st.2)).

Definition lift_result {A} (r : Result A) : Cycle A :=
  match r with Ok a => ret a | Raise e => raise e end.

(** [if client.mark_locally_deleted(h, "local_soft_delete"):
        stats["deleted_marked"] += 1] *)
Definition propagate_deletion (h : string) : Cycle unit :=
  marked <- remote (client.mark_locally_deleted h "local_soft_delete") ;;
  if marked : bool then update_stats incr_deleted_marked else ret tt.

Definition batch_entry (embeddings : gmap string (list F)) (mem : Memory)
  : client.Mem F :=
  {| client.m_content_hash := content_hash mem;
     client.m_content := content mem;
     client.m_tags := tags mem;
     client.m_memory_type := memory_type mem;
     client.m_metadata := metadata mem;
     client.m_created_at := created_at mem;
     client.m_updated_at := updated_at mem;
     client.m_embedding := embeddings !! content_hash mem |}.

(** [mem.get("updated_at") or mem.get("created_at") or 0] *)
Definition change_time (mem : Memory) : Z :=
  if num_truthy (updated_at mem) then or_zero (updated_at mem)
  else or_zero (created_at mem).

(** The body of the loop "Prepare batch". *)
Definition prepare_row (embeddings : gmap string (list F))
    (acc : list (client.Mem F) * Z) (mem : Memory)
  : Cycle (list (client.Mem F) * Z) :=
  let '(batch, max_updated_at) := acc in
  let row := batch_entry embeddings mem in
  match deleted_at mem with
  | Some _ =>
      propagate_deletion (content_hash mem) ;;; ret (batch, max_updated_at)
  | None =>
      let updated := change_time mem in
      ret (batch ++ [row],
           if max_updated_at <? updated then updated else max_updated_at)
  end.

Definition prepare_batch (embeddings : gmap string (list F))
    (memories : list Memory) (last_sync : Z) : Cycle (list (client.Mem F) * Z) :=
  for_each memories ([], last_sync) (prepare_row embeddings).

(** The body of the loop over the rows of [memory_graph]. *)
Definition sync_edge (row : GraphRow) : Cycle unit :=
  let metadata :=
    if str_truthy (g_metadata row)
    then Some (parse_metadata (g_metadata row)) else None in
  stored <- remote (client.upsert_graph_edge (g_source_hash row)
                      (g_target_hash row) (g_similarity row)
                      (g_relationship_type row) metadata) ;;
  if stored : bool then update_stats incr_graph_edges else ret tt.

(** The block "Sync memory graph associations". *)
Definition sync_graph (conn : Connection) : Cycle unit :=
  try_except
    (rows <- lift_result
               match memory_graph conn with
               | Rows rows => Ok rows
               | Broken msg => Raise (Exn SqliteError msg)
               end ;;
     for_each rows tt (λ _ row, sync_edge row))
    (λ e, ret tt).

(** The body of the outer [try]; the result is [true] when the function
    returns from inside it. *)
Definition cycle (conn : Connection) : Cycle bool :=
  sync_state <- remote client.get_sync_state ;;
  let last_sync := or_zero (client.last_sync_updated_at sync_state) in
  remote (client.update_sync_state last_sync
            (client.memories_synced sync_state) "syncing") ;;;
  memories <- lift_result (_get_local_memories conn last_sync) ;;
  match memories with
  | [] =>
      for_each (_get_locally_deleted conn) tt
        (λ _ h, propagate_deletion h) ;;;
      remote (client.update_sync_state last_sync
                (client.memories_synced sync_state) "idle") ;;;
      update_stats (set_duration elapsed_ms) ;;;
      ret true
  | _ =>
      let hashes := content_hash <$> memories in
      let embeddings := _get_local_embeddings conn hashes in
      prepared <- prepare_batch embeddings memories last_sync ;;
      let '(batch, max_updated_at) := prepared in
      match batch with
      | [] => ret tt
      | _ =>
          counts <- remote (client.upsert_memories_batch batch) ;;
          update_stats (set_upserted counts.1 counts.2)
      end ;;;
      sync_graph conn ;;;
      st <- get ;;
      let total_synced :=
        or_zero (client.memories_synced sync_state)
        + Z.of_nat (new_memories st.1) in
      remote (client.update_sync_state max_updated_at (Some total_synced)
                "idle") ;;;
      ret false
  end.

(** The [except Exception as e:] clause of the cycle. *)
Definition on_cycle_error (e : exn) : Cycle bool :=
  update_stats (set_error (exn_str e)) ;;;
  try_except
    (remote (client.update_sync_state 0 (Some 0)
               ("error: " +:+ substring 0 100 (exn_str e))) ;;;
     ret tt)
    (λ _, ret tt) ;;;
  ret false.

(** [sync_once] once [_open_local_db] has returned or has raised
    [FileNotFoundError]: [db] is the connection it returned, or [None] when
    there is no file at [LOCAL_DB_PATH].  The call itself, with the
    exceptions of [sqlite3.connect] that [sync_once] does not catch, is
    [daemon.sync_once]. *)
Definition sync_once (db : option Connection) : M (client.Remote F) Stats :=
  match db with
  | None =>
      ret {| new_memories := 0; updated_memories := 0; deleted_marked := 0;
             graph_edges := 0; errors := 1; duration_ms := 0;
             error_message :=
               Some ("Local database not found: " +:+ LOCAL_DB_PATH) |}
  | Some conn =>
      λ r, match try_except (cycle conn) on_cycle_error (stats0, r) with
           | (Ok returned, (stats, r')) =>
               (Ok (if returned : bool then stats
                    else set_duration elapsed_ms stats), r')
           | (Raise e, (_, r')) => (Raise e, r')
           end
  end.

(** *** Vocabulary for the statements about the cycle *)

(** The watermark a cycle starts from: what [get_sync_state] hands to
    [sync_once], with [or 0] applied. *)
Definition watermark_read (r : client.Remote F) : Z :=
  match client.get_sync_state r with
  | (Ok sync_state, _) => or_zero (client.last_sync_updated_at sync_state)
  | (Raise _, _) => 0
  end.

(** The change-timestamp of a record: [updated_at], or [created_at] when
    [updated_at] is absent. *)
Definition change_timestamp (mem : Memory) : Z :=
  match updated_at mem with
  | Some u => u
  | None => or_zero (created_at mem)
  end.

(** The changed records of a cycle that are not tombstoned: the ones
    prepared for upsert. *)
Definition live (memories : list Memory) : list Memory :=
  filter (λ mem, deleted_at mem = None) memories.

(** The running maximum kept by the loop "Prepare batch". *)
Definition latest (max_updated_at : Z) (mems : list Memory) : Z :=
  foldl (λ acc mem, if acc <? change_time mem then change_time mem else acc)
        max_updated_at mems.

(** What a step of the cycle leaves alone: the stored sync state, the fault
    behaviour of the remote store, and the upsert counters. *)
Definition undisturbed (st : Stats) (r : client.Remote F) (st' : Stats)
    (r' : client.Remote F)
  : Prop :=
  client.sync_state (client.tables r') = client.sync_state (client.tables r) ∧
  client.faults r' = client.faults r ∧
  new_memories st' = new_memories st ∧
  updated_memories st' = updated_memories st ∧
  errors st' = errors st.

(** The hashes of all tombstoned rows of the local table, whatever their
    timestamps. *)
Definition tombstoned (rows : list Row) : list string :=
  row_content_hash <$> filter (λ row, row_deleted_at row ≠ None) rows.

(** One propagation attempt, with its outcome appended to [marks]. *)
Definition mark_one (marks : list bool) (h : string)
  : M (client.Remote F) (list bool) :=
  marked <- client.mark_locally_deleted h "local_soft_delete" ;;
  ret (marks ++ [marked]).

(** The hashes marked one after the other, with the outcome of each. *)
Definition mark_each (hashes : list string) : M (client.Remote F) (list bool) :=
  for_each hashes [] mark_one.

(** A computation of the cycle that never changes [updated_memories]. *)
Definition keeps_updated {A} (m : Cycle A) : Prop :=
  ∀ st r, updated_memories (m (st, r)).2.1 = updated_memories st.

Definition successes (marks : list bool) : nat :=
  length (filter (λ marked, marked = true) marks).

End sync.

Arguments Rows {A} rows.
Arguments Broken {A} msg.
Arguments GraphRow F : clear implicits.
Arguments Connection F : clear implicits.
Arguments Cycle F A : clear implicits.
End sync.

(** ** Python string methods used by summarize.py

    A Python [str] is modelled by [string] with one character per code
    point: the strings of the model are the [str] values whose code points
    are below 256.  On these [String.length] is [len], [substring 0 n] is
    the slice [[:n]] and [String.leb] is the order of [sorted]. *)
Module pystr.

(** [str.isspace] of a code point below 256: the control characters 9 to 13
    and 28 to 31, the space, NEL (133) and the no-break space (160). *)
Definition is_space (c : ascii) : bool :=
  let n := nat_of_ascii c in
  ((9 <=? n) && (n <=? 13) || (28 <=? n) && (n <=? 32)
   || (n =? 133) || (n =? 160))%nat.

Fixpoint lstrip (s : string) : string :=
  match s with
  | EmptyString => EmptyString
  | String c s' => if is_space c then lstrip s' else s
  end.

Fixpoint rstrip (s : string) : string :=
  match s with
  | EmptyString => EmptyString
  | String c s' =>
      match rstrip s' with
      | EmptyString => if is_space c then EmptyString else String c EmptyString
      | t => String c t
      end
  end.

Definition strip (s : string) : string := rstrip (lstrip s).

(** [s.split(sep)] for a one-character separator. *)
Fixpoint split (sep : ascii) (s : string) : list string :=
  match s with
  | EmptyString => [EmptyString]
  | String c s' =>
      if Ascii.eqb c sep then EmptyString :: split sep s'
      else match split sep s' with
           | w :: ws => String c w :: ws
           | [] => [String c EmptyString]
           end
  end.

Definition str_le (a b : string) : Prop := String.leb a b = true.

#[global] Instance str_le_dec a b : Decision (str_le a b).
Proof. unfold str_le. apply _. Defined.

(** [sorted(set(xs))] *)
Definition sorted_set (xs : list string) : list string :=
  merge_sort str_le (remove_dups xs).

Definition join (sep : string) (xs : list string) : string :=
  String.concat sep xs.

End pystr.

(** ** summarize.py: clustering and additive summaries *)
Module summarize.
Section summarize.
Context {F : Type} {FA : PyFloat F} {P : Platform}.

Local Abbreviation MemoryRow := (client.MemoryRow F).

(** [sum(...)] of floats, starting from 0. *)
Definition fsum (xs : list F) : F := foldl f_add f_zero xs.

Definition _cosine_similarity (a b : list F) : F :=
  let dot := fsum (zip_with f_mul a b) in
  let norm_a := f_pow_half (fsum ((λ x, f_mul x x) <$> a)) in
  let norm_b := f_pow_half (fsum ((λ x, f_mul x x) <$> b)) in
  if f_eqb norm_a f_zero || f_eqb norm_b f_zero then f_zero
  else f_div dot (f_mul norm_a norm_b).

(** [mem["embedding"]] of a record that passed the [m.get("embedding")]
    filter. *)
Definition vector (m : MemoryRow) : list F := default [] (client.embedding m).

(** One step of the inner loop [for j, mem_b in enumerate(with_embeddings)]. *)
Definition absorb (threshold : F) (mem_a : MemoryRow)
    (st : gset nat * list MemoryRow) (jb : nat * MemoryRow)
  : gset nat * list MemoryRow :=
  let '(assigned, cluster) := st in
  let '(j, mem_b) := jb in
  if decide (j ∈ assigned) then st
  else if f_geb (_cosine_similarity (vector mem_a) (vector mem_b)) threshold
       then ({[j]} ∪ assigned, cluster ++ [mem_b])
       else st.

(** The cluster opened by seed [i]: [assigned.add(i)], then the inner loop. *)
Definition grow_cluster (threshold : F) (with_embeddings : list MemoryRow)
    (assigned : gset nat) (i : nat) (mem_a : MemoryRow)
  : gset nat * list MemoryRow :=
  foldl (absorb threshold mem_a) ({[i]} ∪ assigned, [mem_a])
        (enumerate with_embeddings).

(** One step of the outer loop [for i, mem_a in enumerate(with_embeddings)]. *)
Definition seed_step (threshold : F) (with_embeddings : list MemoryRow)
    (st : gset nat * list (list MemoryRow)) (ia : nat * MemoryRow)
  : gset nat * list (list MemoryRow) :=
  let '(assigned, clusters) := st in
  let '(i, mem_a) := ia in
  if decide (i ∈ assigned) then st
  else
    let '(assigned', cluster) :=
      grow_cluster threshold with_embeddings assigned i mem_a in
    (assigned', if (3 <=? length cluster)%nat then clusters ++ [cluster]
                else clusters).

Definition _cluster_memories (memories : list MemoryRow) (threshold : F)
  : list (list MemoryRow) :=
  let with_embeddings :=
    filter (λ m, list_truthy (client.embedding m) = true) memories in
  match with_embeddings with
  | [] => []
  | _ => (foldl (seed_step threshold with_embeddings) (∅, [])
                (enumerate with_embeddings)).2
  end.

(** The tags of a cluster: every non-empty stripped piece of every
    comma-separated [tags] string. *)
Definition collect_tags (cluster : list MemoryRow) : list string :=
  cluster ≫= λ m,
    if str_truthy (client.tags m)
    then filter (λ tag, tag ≠ EmptyString)
           (pystr.strip <$> pystr.split ","%char (default ""%string (client.tags m)))
    else [].

(** One line of the key points; [content[:200]] and [len(content)] count
    code points, as [substring] and [String.length] do on the strings of
    the model. *)
Definition key_point (i : nat) (content : string) : string :=
  let truncated := pystr.strip (substring 0 200 content) in
  let truncated := if (200 <? String.length content)%nat
                   then truncated +:+ "..." else truncated in
  "  " +:+ pretty i +:+ ". " +:+ truncated.

(** [sorted(types)] and [', '.join] raise [TypeError] as soon as one member
    has no [memory_type]. *)
Definition _generate_summary (cluster : list MemoryRow) : Result string :=
  let contents := client.content <$> cluster in
  let all_tags := collect_tags cluster in
  match mapM client.memory_type cluster with
  | None => Raise (Exn TypeError "expected str instance, NoneType found")
  | Some types =>
      let lines :=
        [ "[SUMMARY of " +:+ pretty (length cluster) +:+ " related memories]";
          "Types: " +:+ pystr.join ", " (pystr.sorted_set types);
          match all_tags with
          | [] => ""
          | _ => "Tags: " +:+ pystr.join ", " (pystr.sorted_set all_tags)
          end;
          "";
          "Key points:" ]
        ++ ((λ ic, key_point (S ic.1) ic.2) <$> enumerate contents) in
      Ok (pystr.join (String "010"%char EmptyString) lines)
  end.

Record Stats := {
  total_memories : nat;
  clusters_found : nat;
  summaries_created : nat;
  memories_covered : nat;
  dry_run : bool;
}.

Definition summary_key (summary_content : string) : string :=
  "summary_" +:+ substring 0 32 (sha256_hexdigest summary_content).

(** The body of [for i, cluster in enumerate(clusters)]; the accumulator is
    [(summaries_created, memories_covered)]. *)
Definition summarize_cluster (dry_run : bool) (counts : nat * nat)
    (cluster : list MemoryRow) : M (client.Remote F) (nat * nat) :=
  let '(created, covered) := counts in
  let source_hashes := client.content_hash <$> cluster in
  match _generate_summary cluster with
  | Raise e => raise e
  | Ok summary_content =>
      let all_tags := collect_tags cluster ++ ["auto-summary"] in
      if dry_run then ret (created, (covered + length cluster)%nat)
      else
        success <- client.upsert_memory
          (summary_key summary_content)
          summary_content
          (Some (pystr.join "," (pystr.sorted_set all_tags)))
          (Some "pattern")
          (Some (JObj [("is_summary", JBool true);
                       ("summarized_from", JArr (JStr <$> source_hashes));
                       ("cluster_size", JNum (Z.of_nat (length cluster)));
                       ("source", JStr "non_destructive_summarizer")]))
          None None None ;;
        if success : bool then
          try_except
            (client._get_client ;;;
             client.request
               (client.UpdateIsSummary (summary_key summary_content)
                  source_hashes)
               (λ t, (client.set_memories
                        (alter (client.with_summary source_hashes)
                               (summary_key summary_content)) t, tt)))
            (λ _, ret tt) ;;;
          ret (S created, (covered + length cluster)%nat)
        else ret (created, covered)
  end.

Definition summarize (similarity_threshold : F) (min_cluster_size : Z)
    (dry_run : bool) : M (client.Remote F) Stats :=
  memories <- client.get_all_memories false ;;
  if Z.of_nat (length memories) <? min_cluster_size then
    ret {| total_memories := length memories; clusters_found := 0;
           summaries_created := 0; memories_covered := 0;
           dry_run := dry_run |}
  else
    let non_summaries :=
      filter (λ m, client.is_summary m = false) memories in
    let clusters := _cluster_memories non_summaries similarity_threshold in
    match clusters with
    | [] =>
        ret {| total_memories := length memories; clusters_found := 0;
               summaries_created := 0; memories_covered := 0;
               dry_run := dry_run |}
    | _ =>
        counts <- for_each clusters (0%nat, 0%nat) (summarize_cluster dry_run) ;;
        ret {| total_memories := length memories;
               clusters_found := length clusters;
               summaries_created := counts.1;
               memories_covered := counts.2;
               dry_run := dry_run |}
    end.

(** *** Vocabulary for the statements about clustering *)

(** The records that pass the filter [m.get("embedding")]. *)
Definition embedded (memories : list MemoryRow) : list MemoryRow :=
  filter (λ m, list_truthy (client.embedding m) = true) memories.

(** [sim >= threshold] for the pair ([mem_a], [mem_b]). *)
Definition similar (threshold : F) (mem_a mem_b : MemoryRow) : Prop :=
  f_geb (_cosine_similarity (vector mem_a) (vector mem_b)) threshold = true.

(** The records at the given positions of [with_embeddings]. *)
Definition rows_at (with_embeddings : list MemoryRow) (positions : list nat)
  : list MemoryRow :=
  omap (λ j, with_embeddings !! j) positions.

(** The loops of [_cluster_memories] once more, recording every candidate
    cluster, kept or not, as the positions of its members. *)
Definition absorb_at (threshold : F) (mem_a : MemoryRow)
    (st : gset nat * list nat) (jb : nat * MemoryRow) : gset nat * list nat :=
  let '(assigned, members) := st in
  let '(j, mem_b) := jb in
  if decide (j ∈ assigned) then st
  else if f_geb (_cosine_similarity (vector mem_a) (vector mem_b)) threshold
       then ({[j]} ∪ assigned, members ++ [j])
       else st.

Definition grow_at (threshold : F) (with_embeddings : list MemoryRow)
    (assigned : gset nat) (i : nat) (mem_a : MemoryRow)
  : gset nat * list nat :=
  foldl (absorb_at threshold mem_a) ({[i]} ∪ assigned, [i])
        (enumerate with_embeddings).

Definition seed_at (threshold : F) (with_embeddings : list MemoryRow)
    (st : gset nat * list (list nat)) (ia : nat * MemoryRow)
  : gset nat * list (list nat) :=
  let '(assigned, found) := st in
  let '(i, mem_a) := ia in
  if decide (i ∈ assigned) then st
  else
    let '(assigned', members) :=
      grow_at threshold with_embeddings assigned i mem_a in
    (assigned', found ++ [members]).

Definition candidates (threshold : F) (with_embeddings : list MemoryRow)
  : list (list nat) :=
  (foldl (seed_at threshold with_embeddings) (∅, [])
         (enumerate with_embeddings)).2.

(** A candidate is its seed followed by records similar to the seed. *)
Definition seeded (threshold : F) (with_embeddings : list MemoryRow)
    (members : list nat) : Prop :=
  ∃ i rest mem_a,
    members = i :: rest ∧ with_embeddings !! i = Some mem_a ∧
    ∀ j, j ∈ rest →
      ∃ mem_b, with_embeddings !! j = Some mem_b ∧
               similar threshold mem_a mem_b.

Definition kept (members : list nat) : Prop := (3 ≤ length members)%nat.

(** The state of the inner loop for seed [i], entered with [assigned0]:
    the members are new, distinct positions, led by the seed, and each of
    the others is similar to the seed. *)
Definition grown (threshold : F) (with_embeddings : list MemoryRow)
    (assigned0 : gset nat) (i : nat) (mem_a : MemoryRow)
    (assigned : gset nat) (members : list nat) : Prop :=
  (∀ j, j ∈ assigned ↔ j ∈ assigned0 ∨ j ∈ members) ∧
  NoDup members ∧
  (∀ j, j ∈ members → j ∉ assigned0) ∧
  (∃ rest, members = i :: rest ∧
     ∀ j, j ∈ rest →
       ∃ mem_b, with_embeddings !! j = Some mem_b ∧
                similar threshold mem_a mem_b) ∧
  Forall (λ j, j < length with_embeddings)%nat members.

(** The state of the outer loop: the assigned positions are exactly the
    members of the candidates found so far, which are pairwise disjoint. *)
Definition clustered (threshold : F) (with_embeddings : list MemoryRow)
    (assigned : gset nat) (found : list (list nat)) : Prop :=
  (∀ j, j ∈ assigned ↔ j ∈ concat found) ∧
  NoDup (concat found) ∧
  Forall (seeded threshold with_embeddings) found ∧
  Forall (Forall (λ j, j < length with_embeddings)%nat) found.

(** *** Vocabulary for the statements about summaries *)

(** Identifiers in the namespace of summaries. *)
Definition is_summary_key (k : string) : bool := String.prefix "summary_" k.

Definition is_read (rq : client.Request F) : Prop :=
  match rq with
  | client.SelectMemoriesPage _ _ _ => True
  | _ => False
  end.

(** What a run may do to the remote store: it leaves every table but
    [memories] alone, and in [memories] every row whose identifier is not a
    summary identifier; a dry run changes no table and sends only reads. *)
Definition additive (dry_run : bool) (r r' : client.Remote F) : Prop :=
  client.same_but_memories (client.tables r) (client.tables r') ∧
  (∀ k, is_summary_key k = false →
        client.memories (client.tables r') !! k =
        client.memories (client.tables r) !! k) ∧
  (dry_run = true →
     client.tables r' = client.tables r ∧
     ∃ reads, client.trace r' = client.trace r ++ reads ∧
              Forall is_read reads).

Definition preserves (dry_run : bool) {A} (m : M (client.Remote F) A) : Prop :=
  ∀ r, additive dry_run r (m r).2.

(** Several runs in a row, each with its own arguments. *)
Fixpoint summarize_runs (runs : list (F * Z * bool)) (r : client.Remote F)
  : client.Remote F :=
  match runs with
  | [] => r
  | (similarity_threshold, min_cluster_size, dry_run) :: rest =>
      summarize_runs rest
        (summarize similarity_threshold min_cluster_size dry_run r).2
  end.

End summarize.
End summarize.

(** ** Instances for running the model *)
Module float64.

Definition bytes_to_Z (bs : list byte) : Z :=
  foldr (λ b acc, Z.of_N (Byte.to_N b) + 256 * acc) 0 bs.

(** A little-endian IEEE binary32 value: sign, biased exponent, fraction. *)
Definition unpack (bs : list byte) : float :=
  let n := bytes_to_Z bs in
  let sign := n / 2 ^ 31 in
  let e := (n / 2 ^ 23) mod 256 in
  let m := n mod 2 ^ 23 in
  let magnitude :=
    if e =? 255 then (if m =? 0 then infinity else nan)
    else if e =? 0 then Z.ldexp (PrimFloat.of_uint63 (Uint63.of_Z m)) (-149)
    else Z.ldexp (PrimFloat.of_uint63 (Uint63.of_Z (2 ^ 23 + m))) (e - 150) in
  if sign =? 1 then PrimFloat.opp magnitude else magnitude.

#[global] Instance ops : PyFloat float := {|
  f_zero := PrimFloat.zero;
  f_add := PrimFloat.add;
  f_mul := PrimFloat.mul;
  f_div := PrimFloat.div;
  f_pow_half := PrimFloat.sqrt;
  f_eqb := PrimFloat.eqb;
  f_geb := λ x y, PrimFloat.leb y x;
  f_unpack := unpack;
|}.

End float64.


(** ** Concrete stores and inputs *)
Module scenario.

(** A configured device.  The digest is a stand-in that keeps the text; the
    statements below do not depend on its choice. *)
Definition laptop : Platform := {|
  DEVICE_NAME := "laptop";
  is_configured := true;
  ENV_FILE_PATH := "/home/user/.claude-memory-cloud.env";
  LOCAL_DB_PATH := "/home/user/.local/share/mcp-memory/sqlite_vec.db";
  utcnow_isoformat := "2025-01-01T00:00:00+00:00";
  elapsed_ms := 12;
  sha256_hexdigest := λ text, text;
  json_loads := λ _, None;
|}.

Definition no_tables : client.Tables float :=
  {| client.memories := ∅; client.deletion_log := [];
     client.memory_graph := ∅; client.sync_state := ∅ |}.

(** A remote store that accepts every request. *)
Definition reliable : list (client.Request float) → client.Request float
                      → option string := λ _ _, None.

Definition store (t : client.Tables float)
    (faults : list (client.Request float) → client.Request float
              → option string) : client.Remote float :=
  {| client.tables := t; client.trace := []; client.faults := faults |}.

(** Sixty records, the 37th of which the remote store refuses. *)
Definition numbered (n : nat) : client.Mem float :=
  {| client.m_content_hash := "hash" +:+ pretty n;
     client.m_content := "memory " +:+ pretty n;
     client.m_tags := None;
     client.m_memory_type := Some "note";
     client.m_metadata := JObj [];
     client.m_created_at := Some (Z.of_nat n);
     client.m_updated_at := Some (Z.of_nat n);
     client.m_embedding := None |}.

Definition sixty : list (client.Mem float) := numbered <$> seq 1 60.

Definition malformed (row : client.MemoryPayload float) : bool :=
  String.eqb (client.p_content_hash row) "hash37".

Definition refusing_malformed
  : list (client.Request float) → client.Request float → option string :=
  λ _ rq,
    match rq with
    | client.UpsertMemory row =>
        if malformed row then Some "invalid input syntax" else None
    | client.UpsertMemories chunk =>
        if existsb malformed chunk then Some "invalid input syntax" else None
    | _ => None
    end.

(** A remote store whose deletion log cannot be written. *)
Definition log_unavailable
  : list (client.Request float) → client.Request float → option string :=
  λ _ rq,
    match rq with
    | client.InsertDeletionLog _ => Some "deletion_log: timeout"
    | _ => None
    end.

(** A local database of two records, changed at t = 10 and t = 20. *)
Definition local_row (id : Z) (h text : string) (changed : Z)
    (deleted : option Z) : sync.Row :=
  {| sync.rowid := id;
     sync.row_content_hash := h;
     sync.row_content := text;
     sync.row_tags := Some "project,notes";
     sync.row_memory_type := Some "note";
     sync.row_metadata := None;
     sync.row_created_at := Some changed;
     sync.row_updated_at := Some changed;
     sync.row_deleted_at := deleted |}.

Definition local_db (rows : list sync.Row) : sync.Connection float :=
  {| sync.memories := sync.Rows rows;
     sync.memory_embeddings := sync.Rows [];
     sync.memory_graph := sync.Rows [] |}.

Definition two_records : sync.Connection float :=
  local_db [local_row 1 "aaa" "first" 10 None;
            local_row 2 "bbb" "second" 20 None].

(** A local database whose [memories] table cannot be read. *)
Definition unreadable : sync.Connection float :=
  {| sync.memories := sync.Broken "no such table: memories";
     sync.memory_embeddings := sync.Rows [];
     sync.memory_graph := sync.Rows [] |}.

(** The remote state of a device that has synced up to t = 100. *)
Definition synced_to_100 : client.Tables float :=
  {| client.memories := ∅; client.deletion_log := [];
     client.memory_graph := ∅;
     client.sync_state :=
       {[ "laptop" := {| client.s_device_name := Some "laptop";
                         client.last_sync_at := Some "2024-12-31T00:00:00+00:00";
                         client.last_sync_updated_at := Some 100;
                         client.memories_synced := Some 7;
                         client.status := "idle" |} ]} |}.

(** A record uploaded at t = 5 and tombstoned locally afterwards, on a
    device whose watermark is already past it. *)
Definition remote_row (h text : string) (deleted : bool)
  : client.MemoryRow float :=
  {| client.content_hash := h;
     client.content := text;
     client.tags := Some "project,notes";
     client.memory_type := Some "note";
     client.metadata := JObj [];
     client.created_at := Some 5;
     client.updated_at := Some 5;
     client.source_device := "laptop";
     client.synced_at := "2024-12-31T00:00:00+00:00";
     client.local_deleted := deleted;
     client.embedding := None;
     client.is_summary := false;
     client.summarized_from := None |}.

Definition one_tombstone : sync.Connection float :=
  local_db [local_row 1 "ccc" "forgotten" 5 (Some 6)].

Definition uploaded_before : client.Tables float :=
  {| client.memories := {[ "ccc" := remote_row "ccc" "forgotten" false ]};
     client.deletion_log := [];
     client.memory_graph := ∅;
     client.sync_state := client.sync_state synced_to_100 |}.

(** Remote records with embeddings. *)
Definition embedded_row (h text : string) (created : Z) (v : list float)
  : client.MemoryRow float :=
  {| client.content_hash := h;
     client.content := text;
     client.tags := Some "project, notes";
     client.memory_type := Some "note";
     client.metadata := JObj [];
     client.created_at := Some created;
     client.updated_at := Some created;
     client.source_device := "laptop";
     client.synced_at := "2024-12-31T00:00:00+00:00";
     client.local_deleted := false;
     client.embedding := Some v;
     client.is_summary := false;
     client.summarized_from := None |}.

(** Five active records: three point the same way, two point elsewhere. *)
Definition five_memories : client.Tables float :=
  {| client.memories :=
       list_to_map
         [("h1", embedded_row "h1" "alpha one" 1 [1; 0]%float);
          ("h2", embedded_row "h2" "alpha two" 2 [1; 0]%float);
          ("h3", embedded_row "h3" "alpha three" 3 [1; 0]%float);
          ("h4", embedded_row "h4" "beta" 4 [0; 1]%float);
          ("h5", embedded_row "h5" "gamma" 5 [-1; 0]%float)];
     client.deletion_log := [];
     client.memory_graph := ∅;
     client.sync_state := ∅ |}.

(** Four records at angles 0, 34, 63 and 63 degrees: at threshold 0.75 the
    first is similar to the second only, the second to all the others. *)
Definition east : client.MemoryRow float :=
  embedded_row "a" "east" 1 [1; 0]%float.
Definition north_east : client.MemoryRow float :=
  embedded_row "b" "north-east" 2 [0.75; 0.5]%float.
Definition north : client.MemoryRow float :=
  embedded_row "c" "north" 3 [0.5; 1]%float.
Definition north_again : client.MemoryRow float :=
  embedded_row "d" "north again" 4 [0.25; 0.5]%float.

Definition four_angles : list (client.MemoryRow float) :=
  [east; north_east; north; north_again].

End scenario.

(** ** client.py: vocabulary for the statements about every gateway call *)
Module gateway.
Section gateway.
Context {F : Type} {FA : PyFloat F} {P : Platform}.

(** The exception that [_get_client] raises on a device without
    credentials. *)
Definition not_configured : exn :=
  Exn RuntimeError
    ("Supabase not configured. Run: setup-cloud.sh" +:+
     String "010"%char "Or set SUPABASE_URL and SUPABASE_SERVICE_KEY in " +:+
     ENV_FILE_PATH).

(** A read of one page of [page_size] rows of the scan made with this
    [include_deleted]: [.range(offset, offset + page_size - 1)]. *)
Definition is_page_read (include_deleted : bool) (rq : client.Request F) : Prop :=
  match rq with
  | client.SelectMemoriesPage incl lo hi =>
      incl = include_deleted ∧ (hi + 1 = lo + client.page_size)%nat
  | _ => False
  end.

End gateway.
End gateway.

(** ** sync.py: the remaining reader, and vocabulary for several cycles *)
Module cycles.
Section cycles.
Context {F : Type} {FA : PyFloat F} {P : Platform}.

(** [SELECT content_hash FROM memories WHERE deleted_at IS NULL], as a set;
    the query is not guarded, so an unreadable table raises. *)
Definition _get_all_local_hashes (conn : sync.Connection F)
  : Result (gset string) :=
  match sync.memories conn with
  | sync.Rows rows =>
      Ok (list_to_set
            (sync.row_content_hash <$>
               filter (λ r, sync.row_deleted_at r = None) rows))
  | sync.Broken msg => Raise (Exn SqliteError msg)
  end.

(** A computation of the cycle that leaves one view of the [stats]
    dictionary as it found it. *)
Definition stable {A X} (view : sync.Stats → X) (m : sync.Cycle F A) : Prop :=
  ∀ st r, view (m (st, r)).2.1 = view st.

(** A remote store that always answers the reads and writes of the sync
    state. *)
Definition keeps_sync_state (r : client.Remote F) : Prop :=
  (∀ tr device, client.faults r tr (client.SelectSyncState device) = None) ∧
  (∀ tr row, client.faults r tr (client.UpsertSyncState row) = None).

(** A remote store that accepts every request. *)
Definition accepts_all (r : client.Remote F) : Prop :=
  ∀ tr rq, client.faults r tr rq = None.

(** The deletion-log entries written for [hashes]: one for each hash that
    has a remote row, in order. *)
Definition relogged (t : client.Tables F) (hashes : list string)
  : list client.DeletionLogEntry :=
  omap (λ h, client.log_entry h "local_soft_delete"
               <$> client.memories t !! h) hashes.

End cycles.
End cycles.

(** ** sync.py: opening the local database, and the daemon *)
Module daemon.
Section daemon.
Context {F : Type} {FA : PyFloat F} {P : Platform}.

(** What [_open_local_db] meets at [LOCAL_DB_PATH]: no file; a path that
    exists but that [sqlite3.connect] cannot open read-only (a directory, a
    file that may not be read), on which it raises
    [sqlite3.OperationalError] with text [msg]; or a database. *)
Inductive LocalDb :=
| NoFile
| Unopenable (msg : string)
| Database (conn : sync.Connection F).

Definition _open_local_db (db : LocalDb) : Result (sync.Connection F) :=
  match db with
  | NoFile =>
      Raise (Exn FileNotFoundError
               ("Local database not found: " +:+ LOCAL_DB_PATH))
  | Unopenable msg => Raise (Exn SqliteError msg)
  | Database conn => Ok conn
  end.

(** [sync_once] from its first line: the [try] around [_open_local_db]
    catches [FileNotFoundError] only, every other exception leaves the
    function. *)
Definition sync_once (db : LocalDb) : M (client.Remote F) sync.Stats :=
  match _open_local_db db with
  | Ok conn => sync.sync_once (Some conn)
  | Raise e =>
      match exn_kind e with
      | FileNotFoundError => sync.sync_once None
      | _ => raise e
      end
  end.

(** One pass of the [while True] loop of [sync_daemon]: the stats of the
    cycle, or [None] when the [except Exception] clause caught it and the
    daemon backs off for 30 seconds. *)
Definition daemon_cycle (db : LocalDb)
  : M (client.Remote F) (option sync.Stats) :=
  try_except (stats <- sync_once db ;; ret (Some stats))
             (λ e, ret None).

(** [sync_daemon], observed for as long as there are snapshots of the local
    database: [first] is what the initial cycle finds, [later] what each
    pass of the loop finds.  The initial cycle is outside every [try]. The
    result is the stats of every cycle. *)
Definition sync_daemon (first : LocalDb) (later : list LocalDb)
  : M (client.Remote F) (sync.Stats * list (option sync.Stats)) :=
  stats <- sync_once first ;;
  passes <- for_each later []
              (λ passes db, pass <- daemon_cycle db ;; ret (passes ++ [pass])) ;;
  ret (stats, passes).

(** *** Vocabulary *)

(** The pass over [db] ended in the back-off ([pass] is [None]) exactly when
    the database could not be opened. *)
Definition backs_off_on (db : LocalDb) (pass : option sync.Stats) : Prop :=
  match db with
  | Unopenable _ => pass = None
  | _ => is_Some pass
  end.

End daemon.

Arguments LocalDb F : clear implicits.
End daemon.

(** ** summarize.py: vocabulary for the statements about summaries *)
Module summaries.
Section summaries.
Context {F : Type} {FA : PyFloat F} {P : Platform}.

(** A record that carries a [memory_type]. *)
Definition typed (m : client.MemoryRow F) : Prop :=
  client.memory_type m ≠ None.

(** The first line of a summary of [n] records. *)
Definition header (n : nat) : string :=
  "[SUMMARY of " +:+ pretty n +:+ " related memories]".

(** A string of whitespace only. *)
Definition blank (s : string) : Prop :=
  Forall (λ c, pystr.is_space c = true) (list_ascii_of_string s).

(** A string with no whitespace at either end. *)
Definition trimmed (s : string) : Prop :=
  (∀ c t, s = String c t → pystr.is_space c = false) ∧
  (∀ t c, s = t +:+ String c "" → pystr.is_space c = false).

(** What follows the quoted text of a key point. *)
Definition ellipsis (content : string) : string :=
  if (200 <? String.length content)%nat then "..." else "".

End summaries.
End summaries.

(** ** client.py: the read-only lookups *)
Module lookup.
Section lookup.
Context {F : Type} {FA : PyFloat F} {P : Platform}.

(** The read-only queries of [client.py] that the sync cycle and the
    summarizer do not send. *)
Inductive Query :=
| SelectMemoriesLike (pattern : string) (include_deleted : bool) (limit : nat)
| SelectMemoriesIn (hashes : list string)
| SelectDeletedMemories
| CountMemories (eq : option (string * bool))
| CountMemoryGraph
| CountDeletionLog.

(** The remote service as the lookups see it: the store of [client], the
    queries received so far, which of them it refuses, and its [ILIKE]
    ([ilike pattern text]). *)
Record Service := {
  cloud : client.Remote F;
  asked : list Query;
  refuses : list Query → Query → option string;
  ilike : string → string → bool;
}.

Definition set_cloud (c : client.Remote F) (s : Service) : Service :=
  {| cloud := c; asked := asked s; refuses := refuses s; ilike := ilike s |}.

(** Modelled from the spec: a query is recorded whether it is refused or
    not, and never changes a table. *)
Definition query {A} (q : Query) (answer : Service → A) : M Service A :=
  λ s, let s' := {| cloud := cloud s; asked := asked s ++ [q];
                    refuses := refuses s; ilike := ilike s |} in
       match refuses s (asked s) q with
       | Some msg => (Raise (Exn APIError msg), s')
       | None => (Ok (answer s), s')
       end.

Definition _get_client : M Service unit :=
  zoom cloud set_cloud client._get_client.

Definition stored_rows (s : Service) : list (client.MemoryRow F) :=
  snd <$> map_to_list (client.memories (client.tables (cloud s))).

(** Modelled from the spec: [ORDER BY created_at DESC] is the ascending
    order of [client.created_le] read backwards. *)
Definition newest_first (rows : list (client.MemoryRow F))
  : list (client.MemoryRow F) :=
  reverse (merge_sort client.created_le rows).

Definition search_memories_text (query_text : string) (limit : nat)
    (include_deleted : bool) : M Service (list (client.MemoryRow F)) :=
  _get_client ;;;
  let pattern := "%" +:+ query_text +:+ "%" in
  try_except
    (query (SelectMemoriesLike pattern include_deleted limit)
       (λ s, take limit
               (newest_first
                  (filter (λ row, ilike s pattern (client.content row) = true ∧
                                  (include_deleted = true ∨
                                   client.local_deleted row = false))
                          (stored_rows s)))))
    (λ e, ret []).

Definition get_memories_by_hashes (hashes : list string)
  : M Service (list (client.MemoryRow F)) :=
  _get_client ;;;
  try_except
    (query (SelectMemoriesIn hashes)
       (λ s, filter (λ row, client.content_hash row ∈ hashes) (stored_rows s)))
    (λ e, ret []).

Definition get_deleted_memories : M Service (list (client.MemoryRow F)) :=
  _get_client ;;;
  try_except
    (query SelectDeletedMemories
       (λ s, newest_first
               (filter (λ row, client.local_deleted row = true)
                       (stored_rows s))))
    (λ e, ret []).

(** The dictionary of counts that [get_cloud_stats] returns. *)
Record CloudStats := {
  total_memories : nat;
  active_memories : nat;
  locally_deleted : nat;
  summaries : nat;
  graph_edges : nat;
  deletion_log_entries : nat;
}.

Definition count_rows (keep : client.MemoryRow F → bool) (s : Service) : nat :=
  length (filter (λ row, keep row = true) (stored_rows s)).

(** The result is the counts, or [{"error": str(e)}]. *)
Definition get_cloud_stats : M Service (CloudStats + string) :=
  _get_client ;;;
  try_except
    (total <- query (CountMemories None) (count_rows (λ _, true)) ;;
     active <- query (CountMemories (Some ("local_deleted", false)))
                 (count_rows (λ row, negb (client.local_deleted row))) ;;
     deleted <- query (CountMemories (Some ("local_deleted", true)))
                  (count_rows client.local_deleted) ;;
     summaries <- query (CountMemories (Some ("is_summary", true)))
                    (count_rows client.is_summary) ;;
     edges <- query CountMemoryGraph
                (λ s, size (client.memory_graph (client.tables (cloud s)))) ;;
     deletions <- query CountDeletionLog
                    (λ s, length (client.deletion_log (client.tables (cloud s)))) ;;
     ret (inl {| total_memories := total;
                 active_memories := active;
                 locally_deleted := deleted;
                 summaries := summaries;
                 graph_edges := edges;
                 deletion_log_entries := deletions |}))
    (λ e, ret (inr (exn_str e))).

(** *** Vocabulary *)

(** Rows are stored under their own [content_hash], the conflict key of
    every upsert. *)
Definition keyed (t : client.Tables F) : Prop :=
  ∀ k row, client.memories t !! k = Some row → client.content_hash row = k.

End lookup.

Arguments Query : clear implicits.
Arguments Service F : clear implicits.
End lookup.

(** ** restore.py: from the cloud back to the local service *)
Module restore.
Section restore.
Context {F : Type} {FA : PyFloat F} {P : Platform}.

(** [d[k] = v] on a decoded JSON object: an existing key keeps its place. *)
Fixpoint dict_set (k : string) (v : json) (kvs : list (string * json))
  : list (string * json) :=
  match kvs with
  | [] => [(k, v)]
  | (k', v') :: rest =>
      if String.eqb k' k then (k, v) :: rest
      else (k', v') :: dict_set k v rest
  end.

(** [{**base, **more}] *)
Definition dict_update (base more : list (string * json))
  : list (string * json) :=
  foldl (λ d kv, dict_set kv.1 kv.2 d) base more.

Fixpoint dict_get (k : string) (kvs : list (string * json)) : option json :=
  match kvs with
  | [] => None
  | (k', v) :: rest => if String.eqb k' k then Some v else dict_get k rest
  end.

(** How [subprocess.run(["memory", "store", ...], timeout=30)] ends. *)
Inductive Exit :=
| Returned (returncode : Z)
| NotFound
| TimedOut
| Crashed (msg : string).

(** The local [memory] command: the documents passed to [memory store] so
    far, and how each call ends. *)
Record MemoryCli := {
  calls : list json;
  exits : list json → json → Exit;
}.

(** The dictionary [store_data]; building it raises [TypeError] when the
    metadata is neither empty nor a mapping. *)
Definition store_data (content : string) (tags memory_type : option string)
    (metadata : json) : Result json :=
  let base :=
    [("tags", JStr (if str_truthy tags then default ""%string tags else ""));
     ("type", JStr (if str_truthy memory_type
                    then default ""%string memory_type else "note"))] in
  match (if json_truthy metadata then metadata else JObj []) with
  | JObj kvs =>
      Ok (JObj [("content", JStr content);
                ("metadata",
                 JObj (dict_set "restored_from" (JStr "cloud")
                         (dict_update base kvs)))])
  | _ => Raise (Exn TypeError "argument after ** must be a mapping")
  end.

Definition _store_memory_locally (content : string)
    (tags memory_type : option string) (metadata : json) : M MemoryCli bool :=
  match store_data content tags memory_type metadata with
  | Raise e => ret false
  | Ok data =>
      λ cli,
        let cli' := {| calls := calls cli ++ [data]; exits := exits cli |} in
        match exits cli (calls cli) data with
        | Returned 0 => (Ok true, cli')
        | _ => (Ok false, cli')
        end
  end.

(** The stats dictionaries; a key that a function does not set is [None]. *)
Record Stats := {
  total : option nat;
  found : option nat;
  restored : nat;
  skipped : option nat;
  not_found : option nat;
  failed : nat;
}.

(** The cloud and the local command together. *)
Record Host := {
  service : lookup.Service F;
  memory_cli : MemoryCli;
}.

Definition on_service {A} (m : M (lookup.Service F) A) : M Host A :=
  zoom service (λ s h, {| service := s; memory_cli := memory_cli h |}) m.

Definition on_cloud {A} (m : M (client.Remote F) A) : M Host A :=
  on_service (zoom lookup.cloud lookup.set_cloud m).

Definition on_cli {A} (m : M MemoryCli A) : M Host A :=
  zoom memory_cli (λ c h, {| service := service h; memory_cli := c |}) m.

(** The body of the loops [for mem in memories]; the accumulator is
    [(restored, failed)]. *)
Definition restore_one (counts : nat * nat) (mem : client.MemoryRow F)
  : M Host (nat * nat) :=
  let '(restored, failed) := counts in
  success <- on_cli (_store_memory_locally (client.content mem)
                       (client.tags mem) (client.memory_type mem)
                       (client.metadata mem)) ;;
  if success : bool then ret (S restored, failed)
  else ret (restored, S failed).

Definition restore_all (include_deleted : bool) : M Host Stats :=
  memories <- on_cloud (client.get_all_memories include_deleted) ;;
  counts <- for_each memories (0%nat, 0%nat) restore_one ;;
  ret {| total := Some (length memories); found := None;
         restored := counts.1; skipped := Some 0%nat; not_found := None;
         failed := counts.2 |}.

Definition restore_by_hashes (hashes : list string) : M Host Stats :=
  memories <- on_service (lookup.get_memories_by_hashes hashes) ;;
  let found_hashes := client.content_hash <$> memories in
  let missing := filter (λ h, h ∉ found_hashes) hashes in
  counts <- for_each memories (0%nat, 0%nat) restore_one ;;
  ret {| total := Some (length hashes); found := None;
         restored := counts.1; skipped := None;
         not_found := Some (length missing); failed := counts.2 |}.

Definition restore_deleted : M Host Stats :=
  memories <- on_service lookup.get_deleted_memories ;;
  match memories with
  | [] => ret {| total := Some 0%nat; found := None; restored := 0;
                 skipped := None; not_found := None; failed := 0 |}
  | _ =>
      counts <- for_each memories (0%nat, 0%nat) restore_one ;;
      ret {| total := Some (length memories); found := None;
             restored := counts.1; skipped := None; not_found := None;
             failed := counts.2 |}
  end.

Definition restore_by_search (query_text : string) (limit : nat)
  : M Host Stats :=
  memories <- on_service (lookup.search_memories_text query_text limit true) ;;
  match memories with
  | [] => ret {| total := None; found := Some 0%nat; restored := 0;
                 skipped := None; not_found := None; failed := 0 |}
  | _ =>
      counts <- for_each memories (0%nat, 0%nat) restore_one ;;
      ret {| total := None; found := Some (length memories);
             restored := counts.1; skipped := None; not_found := None;
             failed := counts.2 |}
  end.

(** *** Vocabulary *)

(** The document that [memory store] receives for a record. *)
Definition stored_as (content : string) (kvs : list (string * json)) : json :=
  JObj [("content", JStr content); ("metadata", JObj kvs)].

End restore.

Arguments Host F : clear implicits.
End restore.

(** ** Further concrete stores and inputs *)
Module cases.
Import scenario.

(** A device without credentials. *)
Definition offline : Platform := {|
  DEVICE_NAME := "laptop";
  is_configured := false;
  ENV_FILE_PATH := "/home/user/.claude-memory-cloud.env";
  LOCAL_DB_PATH := "/home/user/.local/share/mcp-memory/sqlite_vec.db";
  utcnow_isoformat := "2025-01-01T00:00:00+00:00";
  elapsed_ms := 12;
  sha256_hexdigest := λ text, text;
  json_loads := λ _, None;
|}.

(** The float32 value 1.0, packed little-endian. *)
Definition packed_one : list byte := [x00; x00; x80; x3f].

(** A live record with a one-dimensional embedding and a tombstoned one
    without. *)
Definition with_vector : sync.Connection float :=
  {| sync.memories :=
       sync.Rows [local_row 1 "aaa" "first" 10 None;
                  local_row 2 "ccc" "forgotten" 5 (Some 6)];
     sync.memory_embeddings := sync.Rows [(1, Some packed_one)];
     sync.memory_graph := sync.Rows [] |}.

(** Three records that point the same way. *)
Definition trio : list (client.MemoryRow float) :=
  [embedded_row "h1" "alpha one" 1 [1; 0]%float;
   embedded_row "h2" "alpha two" 2 [1; 0]%float;
   embedded_row "h3" "alpha three" 3 [1; 0]%float].

(** The same three, the last of which has no [memory_type]. *)
Definition untyped_row : client.MemoryRow float :=
  {| client.content_hash := "h3";
     client.content := "alpha three";
     client.tags := None;
     client.memory_type := None;
     client.metadata := JObj [];
     client.created_at := Some 3;
     client.updated_at := Some 3;
     client.source_device := "laptop";
     client.synced_at := "2024-12-31T00:00:00+00:00";
     client.local_deleted := false;
     client.embedding := Some [1; 0]%float;
     client.is_summary := false;
     client.summarized_from := None |}.

Definition untyped_trio : client.Tables float :=
  {| client.memories :=
       list_to_map
         [("h1", embedded_row "h1" "alpha one" 1 [1; 0]%float);
          ("h2", embedded_row "h2" "alpha two" 2 [1; 0]%float);
          ("h3", untyped_row)];
     client.deletion_log := [];
     client.memory_graph := ∅;
     client.sync_state := ∅ |}.

(** The store of an earlier upload after its record was marked as deleted:
    the row is flagged and the deletion log holds its content. *)
Definition tombstoned : client.Remote float :=
  (client.mark_locally_deleted (P := laptop) "ccc" "local_soft_delete"
     (store uploaded_before reliable)).2.

(** A service that answers every query and whose [ILIKE] matches the
    records that contain the text between the wildcards, compared as
    written. *)
Definition contains (pattern text : string) : bool :=
  let wanted := substring 1 (String.length pattern - 2) pattern in
  match index 0 wanted text with Some _ => true | None => false end.

Definition service (t : client.Tables float) : lookup.Service float :=
  {| lookup.cloud := store t reliable;
     lookup.asked := [];
     lookup.refuses := λ _ _, None;
     lookup.ilike := contains |}.

(** A [memory] command that stores every document it is given. *)
Definition memory_cli : restore.MemoryCli :=
  {| restore.calls := []; restore.exits := λ _ _, restore.Returned 0 |}.

Definition host (t : client.Tables float) : restore.Host float :=
  {| restore.service := service t; restore.memory_cli := memory_cli |}.

(** A cloud table with one active and two locally deleted records. *)
Definition archive : client.Tables float :=
  {| client.memories :=
       list_to_map
         [("h1", embedded_row "h1" "alpha one" 1 [1; 0]%float);
          ("d1", remote_row "d1" "gone one" true);
          ("d2", remote_row "d2" "gone two" true)];
     client.deletion_log := [];
     client.memory_graph := ∅;
     client.sync_state := ∅ |}.

(** A [memory] command that stores the first document and exits with 1 on
    every later one. *)
Definition once_only : restore.MemoryCli :=
  {| restore.calls := [];
     restore.exits := λ calls _, match calls with
                                 | [] => restore.Returned 0
                                 | _ => restore.Returned 1
                                 end |}.

Definition archive_host : restore.Host float :=
  {| restore.service := service archive; restore.memory_cli := once_only |}.

(** The text that [sqlite3.connect] raises on a path it cannot open. *)
Definition cannot_open : string := "unable to open database file".

(** The summary text of the three records. *)
Definition trio_summary : string :=
  Eval vm_compute in
    match summarize._generate_summary (F := float) trio with
    | Ok text => text
    | Raise _ => ""%string
    end.

(** What [summarize] reports on the five records of [five_memories]. *)
Definition five_summarized : summarize.Stats :=
  {| summarize.total_memories := 5;
     summarize.clusters_found := 1;
     summarize.summaries_created := 1;
     summarize.memories_covered := 3;
     summarize.dry_run := false |}.

End cases.


(** ** Facts about the remote gateway *)
Module client_facts.
Import client.
Section facts.
Context {F : Type} {FA : PyFloat F} {P : Platform}.
Local Open Scope nat_scope.

Local Abbreviation Remote := (client.Remote F).
Local Abbreviation MemoryPayload := (client.MemoryPayload F).

Lemma request_rejected {A} rq (effect : Tables F → Tables F * A) r msg :
  faults r (trace r) rq = Some msg →
  request rq effect r = (Raise (Exn APIError msg), sent rq r).
Proof. intros Hf. unfold request. by rewrite Hf. Qed.

Lemma request_accepted {A} rq (effect : Tables F → Tables F * A) r :
  faults r (trace r) rq = None →
  request rq effect r =
    (Ok (effect (tables r)).2,
     {| tables := (effect (tables r)).1; trace := trace r ++ [rq];
        faults := faults r |}).
Proof. intros Hf. unfold request. rewrite Hf. by destruct (effect _). Qed.

Lemma for_each_fmap {St A X Y} (g : X → Y) (xs : list X) (acc : A)
    (body : A → Y → M St A) s :
  for_each (g <$> xs) acc body s = for_each xs acc (λ a x, body a (g x)) s.
Proof.
  revert acc s. induction xs as [|x xs IH]; intros acc s; simpl; [done|].
  unfold bind. destruct (body acc (g x) s) as [[a|e] s']; [apply IH|done].
Qed.

(** *** Chunking *)

Lemma chunks_from_seq {A} (n : nat) (batch : list A) :
  length batch ≤ n * chunk_size →
  concat ((λ k, slice batch (k * chunk_size) chunk_size) <$> seq 0 n) = batch.
Proof.
  revert batch. induction n as [|n IH]; intros batch Hlen.
  - destruct batch; [done|simpl in Hlen; lia].
  - rewrite <- cons_seq, <- fmap_S_seq. cbn [fmap list_fmap concat].
    rewrite <- list_fmap_compose.
    transitivity (take chunk_size batch ++ drop chunk_size batch);
      [|apply take_drop].
    f_equal.
    rewrite <- (IH (drop chunk_size batch)) at 1
      by (rewrite length_drop; lia).
    f_equal. apply list_fmap_ext; intros _ k _. unfold slice, compose.
    rewrite drop_drop. by do 2 f_equal.
Qed.

Lemma range_step_count (n : nat) :
  n ≤ ((n + chunk_size - 1) / chunk_size) * chunk_size.
Proof.
  unfold chunk_size.
  pose proof (Nat.div_mod_eq (n + 50 - 1) 50).
  pose proof (Nat.mod_upper_bound (n + 50 - 1) 50). lia.
Qed.

Lemma concat_chunks {A} (batch : list A) : concat (chunks batch) = batch.
Proof.
  unfold chunks, range_step. rewrite <- list_fmap_compose.
  apply chunks_from_seq, range_step_count.
Qed.

Lemma chunks_length_le {A} (batch : list A) :
  Forall (λ c, length c ≤ chunk_size) (chunks batch).
Proof.
  unfold chunks. apply Forall_fmap, Forall_forall. intros i _. simpl.
  unfold slice. rewrite length_take. lia.
Qed.

Lemma chunks_lookup {A} (batch : list A) k c :
  chunks batch !! k = Some c →
  c = slice batch (k * chunk_size) chunk_size ∧
  k * chunk_size < length batch.
Proof.
  unfold chunks, range_step. rewrite <- list_fmap_compose.
  rewrite list_lookup_fmap. intros Hk.
  destruct (seq 0 _ !! k) as [k'|] eqn:Hs; [|done].
  apply lookup_seq in Hs as [-> Hlt]. simpl in Hk. injection Hk as <-.
  split; [done|]. unfold chunk_size in *.
  pose proof (Nat.div_mod_eq (length batch + 50 - 1) 50).
  pose proof (Nat.mod_upper_bound (length batch + 50 - 1) 50). lia.
Qed.

Lemma chunks_nonempty {A} (batch : list A) :
  Forall (λ c, 0 < length c) (chunks batch).
Proof.
  apply Forall_lookup. intros k c Hk.
  apply chunks_lookup in Hk as [-> Hlt]. unfold slice.
  rewrite length_take, length_drop. unfold chunk_size in *. lia.
Qed.

Lemma chunks_full {A} (batch : list A) k c :
  chunks batch !! k = Some c → S k < length (chunks batch) →
  length c = chunk_size.
Proof.
  intros Hk Hlt.
  destruct (lookup_lt_is_Some_2 (chunks batch) (S k) Hlt) as [c' Hc'].
  apply chunks_lookup in Hk as [-> _]. apply chunks_lookup in Hc' as [_ Hb].
  unfold slice. rewrite length_take, length_drop. unfold chunk_size in *. lia.
Qed.

(** *** The paged scan terminates *)

Lemma rows_by_created_at_length include_deleted (t : Tables F) :
  length (rows_by_created_at include_deleted t) ≤ size (memories t).
Proof.
  unfold rows_by_created_at. rewrite merge_sort_Permutation.
  etrans; [apply length_filter|].
  by rewrite length_fmap, length_map_to_list.
Qed.

Lemma get_all_pages_S include_deleted fuel offset acc (r : Remote) :
  get_all_pages (S fuel) include_deleted offset acc r =
  let rq := SelectMemoriesPage include_deleted offset
              (offset + page_size - 1) in
  match faults r (trace r) rq with
  | Some _ => (Ok acc, sent rq r)
  | None =>
      let data := slice (rows_by_created_at include_deleted (tables r))
                        offset page_size in
      match data with
      | [] => (Ok acc, sent rq r)
      | _ =>
          if length data <? page_size then (Ok (acc ++ data), sent rq r)
          else get_all_pages fuel include_deleted (offset + page_size)
                 (acc ++ data) (sent rq r)
      end
  end.
Proof.
  cbn [get_all_pages]. unfold bind at 1, try_except, bind at 1, request.
  cbv zeta. destruct (faults r _ _) as [msg|]; [done|]. cbv beta iota.
  destruct (slice _ _ _) as [|row data]; [done|].
  by destruct (_ <? _).
Qed.

(** Fuel beyond the number of pages is never used. *)
Lemma get_all_pages_fuel include_deleted fuel :
  ∀ offset acc (r : Remote),
    length (rows_by_created_at include_deleted (tables r)) - offset
      < fuel * page_size →
    get_all_pages (S fuel) include_deleted offset acc r =
    get_all_pages fuel include_deleted offset acc r.
Proof.
  induction fuel as [|fuel IH]; intros offset acc r Hlen; [lia|].
  rewrite (get_all_pages_S _ (S fuel)), (get_all_pages_S _ fuel). cbv zeta.
  destruct (faults r _ _) as [msg|]; [done|].
  set (data := slice (rows_by_created_at include_deleted (tables r))
                     offset page_size).
  assert (length data = min page_size
            (length (rows_by_created_at include_deleted (tables r)) - offset))
    as Hdata by (unfold data, slice; by rewrite length_take, length_drop).
  destruct data as [|row data']; [done|].
  destruct (Nat.ltb_spec (length (row :: data')) page_size) as [Hshort|Hfull];
    [done|].
  apply IH. simpl tables. unfold page_size in *. lia.
Qed.

Lemma get_all_memories_fuel include_deleted (r : Remote) extra :
  get_all_pages (extra + S (size (memories (tables r)))) include_deleted 0 [] r
  = get_all_pages (S (size (memories (tables r)))) include_deleted 0 [] r.
Proof.
  induction extra as [|extra IH]; [done|]. rewrite <- IH.
  apply get_all_pages_fuel.
  pose proof (rows_by_created_at_length include_deleted (tables r)).
  unfold page_size. lia.
Qed.

(** *** Batch upsert *)

Lemma count_cons (p : MemoryPayload → bool) b row rows :
  count p b (row :: rows) =
  (if bool_decide (p row = b) then 1 else 0) + count p b rows.
Proof.
  unfold count. rewrite filter_cons.
  case_bool_decide; case_decide; done.
Qed.

Lemma count_app (p : MemoryPayload → bool) b xs ys : count p b (xs ++ ys) = count p b xs + count p b ys.
Proof. unfold count. by rewrite filter_app, length_app. Qed.

Lemma count_none_bad (p : MemoryPayload → bool) rows :
  existsb p rows = false → count p false rows = length rows ∧ count p true rows = 0.
Proof.
  induction rows as [|row rows IH]; simpl; [done|].
  intros [Hrow Hrows]%orb_false_iff. destruct (IH Hrows) as [IH1 IH2].
  rewrite !count_cons, IH1, IH2, Hrow. simpl. done.
Qed.

Lemma for_each_cons {St A X} (x : X) (xs : list X) (acc : A)
    (body : A → X → M St A) s :
  for_each (x :: xs) acc body s =
  match body acc x s with
  | (Ok a, s') => for_each xs a body s'
  | (Raise e, s') => (Raise e, s')
  end.
Proof. done. Qed.

Lemma upsert_row_run (row : MemoryPayload) s f r :
  try_except
    (request (UpsertMemory row)
       (λ t, (set_memories (store_upsert row) t, tt)) ;;;
     ret (S s, f))
    (λ e2, ret (s, S f)) r =
  match faults r (trace r) (UpsertMemory row) with
  | Some _ => (Ok (s, S f), sent (UpsertMemory row) r)
  | None => (Ok (S s, f), upserted row r)
  end.
Proof.
  unfold try_except, bind, request, ret.
  by destruct (faults r (trace r) (UpsertMemory row)).
Qed.

Lemma upsert_rows_individually_run (chunk : list MemoryPayload) s f r :
  ∃ s' f' r',
    upsert_rows_individually chunk (s, f) r = (Ok (s', f'), r') ∧
    s' + f' = s + f + length chunk ∧
    trace r' = trace r ++ (UpsertMemory <$> chunk) ∧
    faults r' = faults r ∧
    same_but_memories (tables r) (tables r') ∧
    ∀ bad, rejects_exactly bad r →
      s' = s + count bad false chunk ∧ f' = f + count bad true chunk.
Proof.
  unfold upsert_rows_individually.
  revert s f r. induction chunk as [|row chunk IH]; intros s f r.
  - exists s, f, r. simpl. rewrite app_nil_r.
    repeat split; try done; unfold count; simpl; lia.
  - rewrite for_each_cons, upsert_row_run.
    destruct (faults r (trace r) (UpsertMemory row)) as [msg|] eqn:Hf.
    + destruct (IH s (S f) (sent (UpsertMemory row) r))
        as (s' & f' & r' & Hrun & Hsum & Htr & Hfl & (Hd1 & Hd2 & Hd3) & Hbad).
      exists s', f', r'. rewrite Hrun. unfold same_but_memories in *.
      simpl in *. rewrite Htr, <- app_assoc.
      split_and!; try done; try lia.
      intros bad Hr. destruct (Hbad bad Hr) as [-> ->].
      rewrite !count_cons. destruct Hr as [Hr _].
      destruct (bad row) eqn:Hb; [simpl; lia|].
      apply (Hr (trace r)) in Hb. congruence.
    + destruct (IH (S s) f (upserted row r))
        as (s' & f' & r' & Hrun & Hsum & Htr & Hfl & (Hd1 & Hd2 & Hd3) & Hbad).
      exists s', f', r'. rewrite Hrun. unfold same_but_memories in *.
      simpl in *. rewrite Htr, <- app_assoc.
      split_and!; try done; try lia.
      intros bad Hr. destruct (Hbad bad Hr) as [-> ->].
      rewrite !count_cons. destruct Hr as [Hr _].
      destruct (bad row) eqn:Hb; [|simpl; lia].
      apply (Hr (trace r)) in Hf. congruence.
Qed.

Lemma upsert_chunk_eq (chunk : list MemoryPayload) s f r :
  upsert_chunk chunk (s, f) r =
  match faults r (trace r) (UpsertMemories chunk) with
  | Some _ =>
      upsert_rows_individually chunk (s, f) (sent (UpsertMemories chunk) r)
  | None => (Ok (s + length chunk, f), bulk_upserted chunk r)
  end.
Proof.
  unfold upsert_chunk, try_except, bind, request, ret.
  by destruct (faults r (trace r) (UpsertMemories chunk)).
Qed.

Lemma upsert_chunk_run (chunk : list MemoryPayload) s f r :
  ∃ s' f' r' ok,
    upsert_chunk chunk (s, f) r = (Ok (s', f'), r') ∧
    s' + f' = s + f + length chunk ∧
    trace r' = trace r ++ attempt chunk ok ∧
    faults r' = faults r ∧
    same_but_memories (tables r) (tables r') ∧
    (∀ bad, rejects_exactly bad r →
       s' = s + count bad false chunk ∧ f' = f + count bad true chunk) ∧
    (ok = true ↔ faults r (trace r) (UpsertMemories chunk) = None).
Proof.
  rewrite upsert_chunk_eq.
  destruct (faults r (trace r) (UpsertMemories chunk)) as [msg|] eqn:Hf.
  - destruct (upsert_rows_individually_run chunk s f
                (sent (UpsertMemories chunk) r))
      as (s' & f' & r' & Hrun & Hsum & Htr & Hfl & (Hd1 & Hd2 & Hd3) & Hbad).
    exists s', f', r', false. rewrite Hrun. unfold same_but_memories in *.
    simpl in *. rewrite Htr, <- app_assoc. split_and!; try done.
  - eexists _, _, _, true. simpl. split_and!; try done; try lia.
    intros bad [_ Hr]. apply (Hr (trace r)) in Hf.
    apply count_none_bad in Hf as [-> ->]. lia.
Qed.

Lemma upsert_chunks_run (cs : list (list MemoryPayload)) s f r :
  ∃ s' f' r' oks,
    for_each cs (s, f) (λ counts c, upsert_chunk c counts) r
      = (Ok (s', f'), r') ∧
    s' + f' = s + f + length (concat cs) ∧
    length oks = length cs ∧
    trace r' = trace r ++ concat (zip_with attempt cs oks) ∧
    faults r' = faults r ∧
    same_but_memories (tables r) (tables r') ∧
    (∀ bad, rejects_exactly bad r →
       s' = s + count bad false (concat cs) ∧
       f' = f + count bad true (concat cs)) ∧
    ∀ k c ok, cs !! k = Some c → oks !! k = Some ok →
      (ok = true ↔
       faults r (trace r ++ concat (zip_with attempt (take k cs) (take k oks)))
         (UpsertMemories c) = None).
Proof.
  revert s f r. induction cs as [|c cs IH]; intros s f r.
  - exists s, f, r, []. simpl. rewrite app_nil_r.
    split_and!; try done; unfold count; simpl; lia.
  - rewrite for_each_cons.
    destruct (upsert_chunk_run c s f r)
      as (s1 & f1 & r1 & ok & -> & Hsum1 & Htr1 & Hfl1 & (Hd1' & Hd2' & Hd3')
          & Hbad1 & Hok1).
    destruct (IH s1 f1 r1)
      as (s' & f' & r' & oks & -> & Hsum & Hlen & Htr & Hfl
          & (Hd1 & Hd2 & Hd3) & Hbad & Hoks).
    exists s', f', r', (ok :: oks). simpl.
    rewrite Htr, Htr1, <- !app_assoc, length_app.
    unfold same_but_memories in *.
    split_and!; try done; try lia; try congruence.
    + intros bad Hr. destruct (Hbad1 bad Hr) as [E1 E2].
      assert (rejects_exactly bad r1) as Hr1
        by (unfold rejects_exactly in *; by rewrite Hfl1).
      destruct (Hbad bad Hr1) as [-> ->]. rewrite !count_app. lia.
    + intros [|k] c' ok' Hc Hok; simpl in *.
      * injection Hc as <-. injection Hok as <-. by rewrite app_nil_r.
      * rewrite (Hoks k c' ok' Hc Hok), Hfl1, Htr1, <- app_assoc. done.
Qed.

Lemma upsert_memories_batch_run (memories : list (Mem F)) r :
  is_configured = true →
  ∃ success failed r' oks,
    upsert_memories_batch memories r = (Ok (success, failed), r') ∧
    success + failed = length memories ∧
    length oks = length (chunks (batch_row <$> memories)) ∧
    trace r' = trace r ++
      concat (zip_with attempt (chunks (batch_row <$> memories)) oks) ∧
    faults r' = faults r ∧
    same_but_memories (tables r) (tables r') ∧
    (∀ bad, rejects_exactly bad r →
       success = count bad false (batch_row <$> memories) ∧
       failed = count bad true (batch_row <$> memories)) ∧
    ∀ k c ok,
      chunks (batch_row <$> memories) !! k = Some c → oks !! k = Some ok →
      (ok = true ↔
       faults r
         (trace r ++
          concat (zip_with attempt (take k (chunks (batch_row <$> memories)))
                    (take k oks)))
         (UpsertMemories c) = None).
Proof.
  intros Hc. unfold upsert_memories_batch, _get_client. rewrite Hc.
  unfold bind at 1, ret at 1. cbv beta zeta iota.
  destruct (upsert_chunks_run (chunks (batch_row <$> memories)) 0 0 r)
    as (s' & f' & r' & oks & Hrun & Hsum & Hlen & Htr & Hfl
        & (Hd1 & Hd2 & Hd3) & Hbad & Hoks).
  exists s', f', r', oks. unfold chunks in Hrun at 1.
  rewrite for_each_fmap in Hrun. rewrite Hrun.
  rewrite concat_chunks, length_fmap in Hsum.
  split_and!; try done.
  intros bad Hr. destruct (Hbad bad Hr) as [-> ->].
  by rewrite concat_chunks.
Qed.

(** *** Soft deletion *)

Lemma set_memories_id (f : gmap string (MemoryRow F) → gmap string (MemoryRow F))
    (t : Tables F) :
  f (memories t) = memories t → set_memories f t = t.
Proof. destruct t; unfold set_memories; simpl. by intros ->. Qed.

(** C2: when [mark_locally_deleted] reports success for a hash whose remote
    row existed, the deletion log has grown by one entry that carries the
    row's content, tags, type and metadata as they were before the mark, and
    the row is still stored, unchanged except for [local_deleted = true];
    when the row never existed the tables are left as they were.  A call
    that does not report success has not touched the [memories] table, and
    no call removes a row. *)
Theorem mark_locally_deleted_preserves (h reason : string) (r : Remote) :
  let '(res, r') := mark_locally_deleted h reason r in
  match res with
  | Ok true =>
      match memories (tables r) !! h with
      | Some row =>
          memories (tables r') !! h = Some (with_local_deleted true row) ∧
          content (with_local_deleted true row) = content row ∧
          local_deleted (with_local_deleted true row) = true ∧
          deletion_log (tables r') =
            deletion_log (tables r) ++ [log_entry h reason row] ∧
          original_content (log_entry h reason row) = content row
      | None => tables r' = tables r
      end
  | _ => memories (tables r') = memories (tables r)
  end ∧
  ∀ k row, memories (tables r) !! k = Some row →
    ∃ row', memories (tables r') !! k = Some row' ∧ content row' = content row.
Proof.
  unfold mark_locally_deleted, _get_client.
  destruct is_configured; [|simpl; eauto].
  unfold bind at 1, ret at 1, try_except, bind at 1, request at 1.
  destruct (faults r (trace r) (SelectMemory h)); [simpl; eauto|].
  cbv beta iota zeta.
  set (r1 := {| tables := tables r; trace := _; faults := _ |}).
  assert (∀ r2 : Remote,
    memories (tables r2) = memories (tables r) →
    let '(res, r') :=
      (request (UpdateLocalDeleted h)
         (λ t, (set_memories (alter (with_local_deleted true) h) t, tt)) ;;;
       ret true) r2 in
    match res with
    | Ok true => memories (tables r') = alter (with_local_deleted true) h
                                          (memories (tables r)) ∧
                 deletion_log (tables r') = deletion_log (tables r2) ∧
                 (memories (tables r) !! h = None → tables r' = tables r2)
    | Ok false => False
    | Raise _ => tables r' = tables r2
    end) as Hupd.
  { intros r2 Hm. unfold bind, request, ret.
    destruct (faults r2 (trace r2) (UpdateLocalDeleted h)); simpl; [done|].
    rewrite Hm. split_and!; try done.
    intros Hn. apply set_memories_id. rewrite Hm. apply alter_id.
    intros x Hx. congruence. }
  assert (∀ k row m', m' = alter (with_local_deleted true) h
                             (memories (tables r)) ∨ m' = memories (tables r) →
    memories (tables r) !! k = Some row →
    ∃ row', m' !! k = Some row' ∧ content row' = content row) as Hkeep.
  { intros k row m' [-> | ->] Hk; [|eauto].
    destruct (decide (h = k)) as [->|Hne].
    - rewrite lookup_alter_eq, Hk. simpl. eauto.
    - rewrite lookup_alter_ne by done. eauto. }
  destruct (memories (tables r) !! h) as [row|] eqn:Hrow; simpl.
  - unfold bind at 1, request at 1. simpl.
    destruct (faults r (trace r ++ [SelectMemory h])
                (InsertDeletionLog (log_entry h reason row))); simpl.
    { split; [done|]. intros k row'. apply Hkeep. by right. }
    match goal with |- context [(?m ;;; ret true) ?r2] =>
      specialize (Hupd r2 eq_refl); destruct ((m ;;; ret true) r2) as [res r']
    end.
    destruct res as [[|]|e]; simpl in *.
    + destruct Hupd as (Hm & Hd & _). rewrite Hm, Hd, lookup_alter_eq, Hrow.
      split; [done|]. intros k row'. apply Hkeep. by left.
    + done.
    + split; [by rewrite Hupd|]. intros k row'. apply Hkeep. right.
      by rewrite Hupd.
  - unfold bind at 1, ret at 1.
    specialize (Hupd r1 eq_refl).
    match goal with |- context [(?m ;;; ret true) r1] =>
      destruct ((m ;;; ret true) r1) as [res r']
    end.
    destruct res as [[|]|e]; simpl in *.
    + destruct Hupd as (Hm & Hd & Hid). split; [by apply Hid|].
      intros k row'. apply Hkeep. left. done.
    + done.
    + split; [by rewrite Hupd|]. intros k row'. apply Hkeep. right.
      by rewrite Hupd.
Qed.

(** *** Upserts clear the deletion flag *)

Lemma store_upsert_cleared (p : MemoryPayload) m :
  unflagged p → cleared (store_upsert p m) (p_content_hash p).
Proof.
  intros Hp. exists (merge_row p (m !! p_content_hash p)).
  unfold store_upsert. by rewrite lookup_insert_eq.
Qed.

Lemma store_upsert_keeps (p : MemoryPayload) m h :
  unflagged p → cleared m h → cleared (store_upsert p m) h.
Proof.
  intros Hp (row & Hrow & Hld).
  destruct (decide (p_content_hash p = h)) as [<-|Hne].
  - by apply store_upsert_cleared.
  - exists row. unfold store_upsert. by rewrite lookup_insert_ne.
Qed.

Lemma store_upsert_only (p : MemoryPayload) m0 m :
  unflagged p → only_cleared m0 m → only_cleared m0 (store_upsert p m).
Proof.
  intros Hp Hm k row. unfold store_upsert.
  destruct (decide (p_content_hash p = k)) as [<-|Hne].
  - rewrite lookup_insert_eq. intros [= <-]. by right.
  - rewrite lookup_insert_ne by done. apply Hm.
Qed.

Lemma only_cleared_refl (m : gmap string (MemoryRow F)) : only_cleared m m.
Proof. intros k row Hk. by left. Qed.

Lemma bulk_upsert_cleared (chunk : list MemoryPayload) m0 m :
  Forall unflagged chunk → only_cleared m0 m →
  only_cleared m0 (foldl (λ m p, store_upsert p m) m chunk) ∧
  (∀ h, cleared m h → cleared (foldl (λ m p, store_upsert p m) m chunk) h) ∧
  ∀ p, p ∈ chunk →
    cleared (foldl (λ m p, store_upsert p m) m chunk) (p_content_hash p).
Proof.
  intros Hall. revert m. induction Hall as [|p chunk Hp Hall IH]; intros m Hm.
  - split_and!; [done|done|]. intros p Hin. by apply elem_of_nil in Hin.
  - simpl.
    destruct (IH (store_upsert p m) (store_upsert_only p m0 m Hp Hm))
      as (IH1 & IH2 & IH3).
    split_and!; [done| |].
    + intros h Hh. by apply IH2, store_upsert_keeps.
    + intros q [->|Hin]%elem_of_cons; [|by apply IH3].
      by apply IH2, store_upsert_cleared.
Qed.

Lemma upsert_rows_individually_cleared (chunk : list MemoryPayload) m0 :
  Forall unflagged chunk → ∀ s f r,
  only_cleared m0 (memories (tables r)) →
  ∃ s' f' r',
    upsert_rows_individually chunk (s, f) r = (Ok (s', f'), r') ∧
    f ≤ f' ∧
    only_cleared m0 (memories (tables r')) ∧
    (∀ h, cleared (memories (tables r)) h → cleared (memories (tables r')) h) ∧
    (f' = f → ∀ p, p ∈ chunk →
       cleared (memories (tables r')) (p_content_hash p)).
Proof.
  unfold upsert_rows_individually.
  induction 1 as [|p chunk Hp Hall IH]; intros s f r Hm.
  - exists s, f, r. split_and!; try done.
    intros _ p Hin. by apply elem_of_nil in Hin.
  - rewrite for_each_cons, upsert_row_run.
    destruct (faults r (trace r) (UpsertMemory p)).
    + destruct (IH s (S f) (sent (UpsertMemory p) r) Hm)
        as (s' & f' & r' & -> & Hle & H1 & H2 & H3).
      exists s', f', r'. split_and!; try done; lia.
    + destruct (IH (S s) f (upserted p r)
                  (store_upsert_only p m0 _ Hp Hm))
        as (s' & f' & r' & -> & Hle & H1 & H2 & H3).
      exists s', f', r'. split_and!; try done.
      * intros h Hh. by apply H2, store_upsert_keeps.
      * intros Hf q [->|Hin]%elem_of_cons; [|by apply H3].
        by apply H2, store_upsert_cleared.
Qed.

Lemma upsert_chunks_cleared (cs : list (list MemoryPayload)) m0 :
  Forall (Forall unflagged) cs → ∀ s f r,
  only_cleared m0 (memories (tables r)) →
  ∃ s' f' r',
    for_each cs (s, f) (λ counts c, upsert_chunk c counts) r
      = (Ok (s', f'), r') ∧
    f ≤ f' ∧
    only_cleared m0 (memories (tables r')) ∧
    (∀ h, cleared (memories (tables r)) h → cleared (memories (tables r')) h) ∧
    (f' = f → ∀ p, p ∈ concat cs →
       cleared (memories (tables r')) (p_content_hash p)).
Proof.
  induction 1 as [|c cs Hc Hall IH]; intros s f r Hm.
  - exists s, f, r. split_and!; try done.
    intros _ p Hin. by apply elem_of_nil in Hin.
  - rewrite for_each_cons, upsert_chunk_eq.
    destruct (faults r (trace r) (UpsertMemories c)).
    + destruct (upsert_rows_individually_cleared c m0 Hc s f
                  (sent (UpsertMemories c) r) Hm)
        as (s1 & f1 & r1 & -> & Hle1 & Ha1 & Hb1 & Hc1).
      destruct (IH s1 f1 r1 Ha1) as (s' & f' & r' & -> & Hle & H1 & H2 & H3).
      exists s', f', r'. split_and!; try done; try lia.
      * intros h Hh. by apply H2, Hb1.
      * intros Hf q [Hin|Hin]%elem_of_app.
        -- apply H2, Hc1; [lia|done].
        -- apply H3; [lia|done].
    + destruct (bulk_upsert_cleared c m0 _ Hc Hm) as (Ha1 & Hb1 & Hc1).
      destruct (IH (s + length c) f (bulk_upserted c r) Ha1)
        as (s' & f' & r' & -> & Hle & H1 & H2 & H3).
      exists s', f', r'. split_and!; try done.
      * intros h Hh. by apply H2, Hb1.
      * intros Hf q [Hin|Hin]%elem_of_app; [by apply H2, Hc1|by apply H3].
Qed.

Lemma elem_of_concat {A} (x : A) (ls : list (list A)) :
  x ∈ concat ls ↔ ∃ l, l ∈ ls ∧ x ∈ l.
Proof.
  rewrite list_elem_of_In, in_concat. split; intros (l & H1 & H2); exists l.
  - by rewrite !list_elem_of_In.
  - by rewrite <- !list_elem_of_In.
Qed.

Lemma batch_rows_unflagged (memories : list (Mem F)) :
  Forall (Forall unflagged) (chunks (batch_row <$> memories)).
Proof.
  apply Forall_forall. intros c Hc. apply Forall_forall. intros p Hp.
  assert (p ∈ concat (chunks (batch_row <$> memories))) as Hin
    by (apply elem_of_concat; eauto).
  rewrite concat_chunks in Hin.
  apply list_elem_of_fmap in Hin as (mem & -> & _). done.
Qed.

(** *** What the store accepted is cleared *)

Lemma rows_accepted_app fl (tr a b : list (Request F)) :
  rows_accepted fl tr (a ++ b) =
  rows_accepted fl tr a + rows_accepted fl (tr ++ a) b.
Proof.
  revert tr. induction a as [|rq a IH]; intros tr; simpl.
  - by rewrite app_nil_r.
  - rewrite IH, <- app_assoc. simpl. lia.
Qed.

Lemma accepted_cleared_nil fl tr (m : gmap string (MemoryRow F)) :
  accepted_cleared fl tr [] m.
Proof. intros i rq p Hi. by rewrite lookup_nil in Hi. Qed.

Lemma accepted_cleared_cons fl tr rq rest (m : gmap string (MemoryRow F)) :
  (fl tr rq = None → ∀ p, p ∈ carried rq → cleared m (p_content_hash p)) →
  accepted_cleared fl (tr ++ [rq]) rest m →
  accepted_cleared fl tr (rq :: rest) m.
Proof.
  intros Hhd Htl [|i] rq' p Hi Hf Hp; simpl in *.
  - injection Hi as <-. rewrite app_nil_r in Hf. by apply Hhd.
  - apply (Htl i rq' p Hi); [|done]. by rewrite <- app_assoc.
Qed.

Lemma accepted_cleared_mono fl tr sent (m m' : gmap string (MemoryRow F)) :
  (∀ h, cleared m h → cleared m' h) →
  accepted_cleared fl tr sent m → accepted_cleared fl tr sent m'.
Proof. intros Hm H i rq p Hi Hf Hp. by apply Hm, (H i rq p). Qed.

Lemma accepted_cleared_app fl tr a b (m m' : gmap string (MemoryRow F)) :
  (∀ h, cleared m h → cleared m' h) →
  accepted_cleared fl tr a m →
  accepted_cleared fl (tr ++ a) b m' →
  accepted_cleared fl tr (a ++ b) m'.
Proof.
  intros Hm. revert tr. induction a as [|rq a IH]; intros tr Ha Hb.
  - by rewrite app_nil_r in Hb.
  - simpl. apply accepted_cleared_cons.
    + intros Hf p Hp. apply Hm, (Ha 0 rq p); [done| |done].
      by rewrite app_nil_r.
    + apply IH; [|by rewrite <- app_assoc].
      intros i rq' p Hi Hf Hp. apply (Ha (S i) rq' p); [done| |done].
      simpl. by rewrite <- app_assoc in Hf.
Qed.

Lemma upsert_rows_individually_accepted (chunk : list MemoryPayload) :
  Forall unflagged chunk → ∀ s f r,
  ∃ s' f' r',
    upsert_rows_individually chunk (s, f) r = (Ok (s', f'), r') ∧
    s' = s + rows_accepted (faults r) (trace r) (UpsertMemory <$> chunk) ∧
    trace r' = trace r ++ (UpsertMemory <$> chunk) ∧
    faults r' = faults r ∧
    (∀ h, cleared (memories (tables r)) h → cleared (memories (tables r')) h) ∧
    accepted_cleared (faults r) (trace r) (UpsertMemory <$> chunk)
      (memories (tables r')).
Proof.
  unfold upsert_rows_individually.
  induction 1 as [|p chunk Hp Hall IH]; intros s f r.
  - exists s, f, r. simpl. rewrite app_nil_r.
    split_and!; try done; lia.
  - rewrite for_each_cons, upsert_row_run. cbn [fmap list_fmap rows_accepted].
    destruct (faults r (trace r) (UpsertMemory p)) as [msg|] eqn:Hf.
    + destruct (IH s (S f) (sent (UpsertMemory p) r))
        as (s' & f' & r' & -> & Hs & Htr & Hfl & Hkeep & Hacc).
      exists s', f', r'. simpl in *. rewrite Htr, <- app_assoc.
      split_and!; try done.
      apply accepted_cleared_cons; [by rewrite Hf|done].
    + destruct (IH (S s) f (upserted p r))
        as (s' & f' & r' & -> & Hs & Htr & Hfl & Hkeep & Hacc).
      exists s', f', r'. simpl in *. rewrite Htr, <- app_assoc.
      split_and!; try done; try lia.
      * intros h Hh. by apply Hkeep, store_upsert_keeps.
      * apply accepted_cleared_cons; [|done].
        intros _ q [->|Hq%elem_of_nil]%elem_of_cons; [|done].
        by apply Hkeep, store_upsert_cleared.
Qed.

Lemma upsert_chunk_accepted (chunk : list MemoryPayload) s f r :
  Forall unflagged chunk →
  ∃ s' f' r' ok,
    upsert_chunk chunk (s, f) r = (Ok (s', f'), r') ∧
    s' = s + rows_accepted (faults r) (trace r) (attempt chunk ok) ∧
    trace r' = trace r ++ attempt chunk ok ∧
    faults r' = faults r ∧
    (∀ h, cleared (memories (tables r)) h → cleared (memories (tables r')) h) ∧
    accepted_cleared (faults r) (trace r) (attempt chunk ok)
      (memories (tables r')).
Proof.
  intros Hall. rewrite upsert_chunk_eq. unfold attempt.
  destruct (faults r (trace r) (UpsertMemories chunk)) as [msg|] eqn:Hf.
  - destruct (upsert_rows_individually_accepted chunk Hall s f
                (sent (UpsertMemories chunk) r))
      as (s' & f' & r' & -> & Hs & Htr & Hfl & Hkeep & Hacc).
    exists s', f', r', false. simpl in *. rewrite Hf, Htr, <- app_assoc.
    split_and!; try done.
    apply accepted_cleared_cons; [by rewrite Hf|done].
  - destruct (bulk_upsert_cleared chunk (memories (tables r))
                (memories (tables r)) Hall (only_cleared_refl _))
      as (_ & Hkeep & Hin).
    eexists _, _, _, true. simpl. rewrite Hf. simpl.
    split_and!; try done; try lia.
    apply accepted_cleared_cons; [|apply accepted_cleared_nil].
    intros _ p Hp. by apply Hin.
Qed.

Lemma upsert_chunks_accepted (cs : list (list MemoryPayload)) :
  Forall (Forall unflagged) cs → ∀ s f r,
  ∃ s' f' r' sent,
    for_each cs (s, f) (λ counts c, upsert_chunk c counts) r
      = (Ok (s', f'), r') ∧
    s' = s + rows_accepted (faults r) (trace r) sent ∧
    trace r' = trace r ++ sent ∧
    faults r' = faults r ∧
    Forall (λ rq, Forall unflagged (carried rq)) sent ∧
    (∀ c, c ∈ cs → UpsertMemories c ∈ sent) ∧
    (∀ h, cleared (memories (tables r)) h → cleared (memories (tables r')) h) ∧
    accepted_cleared (faults r) (trace r) sent (memories (tables r')).
Proof.
  induction 1 as [|c cs Hc Hall IH]; intros s f r.
  - exists s, f, r, []. simpl. rewrite app_nil_r.
    split_and!; try done; try lia. by intros c ?%elem_of_nil.
  - rewrite for_each_cons.
    destruct (upsert_chunk_accepted c s f r Hc)
      as (s1 & f1 & r1 & ok & -> & -> & Htr1 & Hfl1 & Hkeep1 & Hacc1).
    destruct (IH (s + rows_accepted (faults r) (trace r) (attempt c ok)) f1 r1)
      as (s' & f' & r' & sent & -> & Hs & Htr & Hfl & Hun & Hoff & Hkeep & Hacc).
    exists s', f', r', (attempt c ok ++ sent).
    rewrite Hfl1, Htr1 in Hs, Hacc.
    rewrite rows_accepted_app, Htr, Htr1, <- app_assoc.
    split_and!; try done; try lia; try congruence.
    + apply Forall_app. split; [|done]. unfold attempt.
      apply Forall_cons. split; [done|]. destruct ok; [done|].
      apply Forall_fmap, Forall_forall. intros p Hp. simpl.
      apply Forall_cons. split; [|done].
      by apply (proj1 (Forall_forall _ _) Hc).
    + intros c' [->|Hin]%elem_of_cons; apply elem_of_app.
      * left. unfold attempt. by left.
      * right. by apply Hoff.
    + intros h Hh. by apply Hkeep, Hkeep1.
    + by apply (accepted_cleared_app _ _ _ _ (memories (tables r1))).
Qed.


(** C9: on a configured device every upsert, single or batch, sends rows
    with [local_deleted = False], and what the store accepts is what the
    result reports.  [upsert_memory] sends one upsert for its hash and
    returns [True] exactly when the store accepts it; the row is then the
    merged row, stored with the flag cleared -- also when it was flagged
    before -- and a refused upsert changes nothing.
    [upsert_memories_batch] offers every input row in some upsert, counts
    as successes exactly the rows of the upserts that the store accepted,
    and leaves every such row stored with the flag cleared, also in a batch
    that partly failed; it never sets the flag on any row.  Neither changes
    the deletion log. *)
Theorem upsert_clears_local_deleted :
  is_configured = true →
  (∀ h c tg ty md ca ua emb (r : Remote),
     ∃ data ok r',
       upsert_memory h c tg ty md ca ua emb r = (Ok ok, r') ∧
       p_content_hash data = h ∧ unflagged data ∧
       trace r' = trace r ++ [UpsertMemory data] ∧
       (ok = true ↔ faults r (trace r) (UpsertMemory data) = None) ∧
       deletion_log (tables r') = deletion_log (tables r) ∧
       if ok then
         memories (tables r') = store_upsert data (memories (tables r)) ∧
         cleared (memories (tables r')) h
       else tables r' = tables r) ∧
  (∀ (mems : list (Mem F)) (r : Remote),
     ∃ success failed r' sent,
       upsert_memories_batch mems r = (Ok (success, failed), r') ∧
       trace r' = trace r ++ sent ∧
       Forall (λ rq, Forall unflagged (carried rq)) sent ∧
       (∀ mem, mem ∈ mems → ∃ rq, rq ∈ sent ∧ batch_row mem ∈ carried rq) ∧
       success = rows_accepted (faults r) (trace r) sent ∧
       success + failed = length mems ∧
       (∀ i rq p, sent !! i = Some rq →
          faults r (trace r ++ take i sent) rq = None →
          p ∈ carried rq →
          cleared (memories (tables r')) (p_content_hash p)) ∧
       deletion_log (tables r') = deletion_log (tables r) ∧
       only_cleared (memories (tables r)) (memories (tables r')) ∧
       (∀ h, cleared (memories (tables r)) h →
             cleared (memories (tables r')) h) ∧
       (failed = 0 → ∀ mem, mem ∈ mems →
          cleared (memories (tables r')) (m_content_hash mem))).
Proof.
  intros Hc. split.
  - intros. unfold upsert_memory, _get_client. rewrite Hc.
    unfold bind at 1, ret at 1. cbv beta zeta iota.
    match goal with |- context [UpsertMemory ?d] => set (data := d) end.
    exists data. unfold try_except, bind, request, ret.
    destruct (faults r (trace r) (UpsertMemory data)) as [msg|] eqn:Hf.
    + eexists false, _. simpl. by split_and!.
    + eexists true, _. simpl. split_and!; try done.
      by apply store_upsert_cleared.
  - intros mems r.
    destruct (upsert_memories_batch_run mems r Hc)
      as (s & f & r' & oks & Hrun & Hsum & _ & _ & _ & (Hdl & _) & _).
    pose proof Hrun as Hrun0.
    unfold upsert_memories_batch, _get_client in Hrun. rewrite Hc in Hrun.
    unfold bind at 1, ret at 1 in Hrun. cbv beta zeta iota in Hrun.
    destruct (upsert_chunks_cleared (chunks (batch_row <$> mems))
                (memories (tables r)) (batch_rows_unflagged mems) 0 0 r
                (only_cleared_refl _))
      as (s2 & f2 & r2 & Hrun2 & _ & H1 & H2 & H3).
    destruct (upsert_chunks_accepted (chunks (batch_row <$> mems))
                (batch_rows_unflagged mems) 0 0 r)
      as (s3 & f3 & r3 & sent & Hrun3 & Hs & Htr & _ & Hun & Hoff & _ & Hacc).
    rewrite Hrun3 in Hrun2. injection Hrun2 as <- <- <-.
    unfold chunks in Hrun3 at 1. rewrite for_each_fmap in Hrun3.
    rewrite Hrun in Hrun3. injection Hrun3 as <- <- <-.
    exists s, f, r', sent. split_and!; try done.
    + intros mem Hin.
      assert (batch_row mem ∈ concat (chunks (batch_row <$> mems))) as Hp
        by (rewrite concat_chunks; by apply list_elem_of_fmap_2).
      apply elem_of_concat in Hp as (c & Hcin & Hp).
      exists (UpsertMemories c). split; [by apply Hoff|done].
    + intros -> mem Hin. apply (H3 eq_refl (batch_row mem)).
      rewrite concat_chunks. by apply list_elem_of_fmap_2.
Qed.

(** C5: [upsert_memories_batch] cuts its input into consecutive chunks of
    [chunk_size] = 50 rows (only the last one may be shorter) and sends
    every chunk as one bulk upsert; exactly the chunks whose bulk upsert the
    remote store rejects are retried as one upsert per row.  The two counts
    it returns always add up to the number of input rows, and when
    rejection depends on the rows alone the good rows of a rejected chunk
    are all counted as successes. *)
Theorem upsert_memories_batch_chunked (memories : list (Mem F)) (r : Remote) :
  is_configured = true →
  let batch := batch_row <$> memories in
  chunk_size = 50 ∧
  concat (chunks batch) = batch ∧
  Forall (λ c, 0 < length c ≤ chunk_size) (chunks batch) ∧
  (∀ k c, chunks batch !! k = Some c → S k < length (chunks batch) →
          length c = chunk_size) ∧
  ∃ success failed r' oks,
    upsert_memories_batch memories r = (Ok (success, failed), r') ∧
    success + failed = length memories ∧
    length oks = length (chunks batch) ∧
    trace r' = trace r ++ concat (zip_with attempt (chunks batch) oks) ∧
    (∀ k c ok, chunks batch !! k = Some c → oks !! k = Some ok →
       (ok = true ↔
        faults r
          (trace r ++
           concat (zip_with attempt (take k (chunks batch)) (take k oks)))
          (UpsertMemories c) = None)) ∧
    ∀ bad, rejects_exactly bad r →
      success = count bad false batch ∧ failed = count bad true batch.
Proof.
  intros Hc batch. split_and!.
  - done.
  - apply concat_chunks.
  - pose proof (chunks_length_le batch) as Hle.
    pose proof (chunks_nonempty batch) as Hne.
    rewrite Forall_forall in Hle, Hne. apply Forall_forall.
    intros c Hin. split; [by apply Hne|by apply Hle].
  - apply chunks_full.
  - destruct (upsert_memories_batch_run memories r Hc)
      as (s' & f' & r' & oks & Hrun & Hsum & Hlen & Htr & _ & _ & Hbad & Hoks).
    by exists s', f', r', oks.
Qed.

End facts.
End client_facts.

(** ** Facts about the sync cycle *)
Module sync_facts.
Import sync.
Section facts.
Context {F : Type} {FA : PyFloat F} {P : Platform}.

Local Abbreviation Remote := (client.Remote F).

Lemma bind_ok {St A B} (m : M St A) (k : A → M St B) s a s' :
  m s = (Ok a, s') → bind m k s = k a s'.
Proof. unfold bind. by intros ->. Qed.

Lemma bind_raise {St A B} (m : M St A) (k : A → M St B) s e s' :
  m s = (Raise e, s') → bind m k s = (Raise e, s').
Proof. unfold bind. by intros ->. Qed.

Lemma try_except_ok {St A} (m : M St A) h s a s' :
  m s = (Ok a, s') → try_except m h s = (Ok a, s').
Proof. unfold try_except. by intros ->. Qed.

Lemma try_except_raise {St A} (m : M St A) h s e s' :
  m s = (Raise e, s') → try_except m h s = h e s'.
Proof. unfold try_except. by intros ->. Qed.

Lemma remote_run {A} (m : M Remote A) st r :
  remote m (st, r) = ((m r).1, (st, (m r).2)).
Proof. unfold remote, zoom. simpl. by destruct (m r). Qed.

(** *** The gateway calls of a cycle, on a configured device *)

Lemma get_sync_state_run (r : Remote) :
  is_configured = true →
  ∃ sync_state,
    client.get_sync_state r =
      (Ok sync_state, client.sent (client.SelectSyncState DEVICE_NAME) r).
Proof.
  intros Hc. unfold client.get_sync_state, client._get_client. rewrite Hc.
  unfold bind at 1, ret at 1, try_except, bind, client.request.
  destruct (client.faults r _ _); simpl; [by eexists|].
  destruct (option_list _); by eexists.
Qed.

Lemma update_sync_state_run w ms status (r : Remote) :
  is_configured = true →
  client.update_sync_state w ms status r =
  match client.faults r (client.trace r)
          (client.UpsertSyncState (client.sync_row w ms status)) with
  | Some _ =>
      (Ok false,
       client.sent (client.UpsertSyncState (client.sync_row w ms status)) r)
  | None => (Ok true, client.synced (client.sync_row w ms status) r)
  end.
Proof.
  intros Hc. unfold client.update_sync_state, client._get_client. rewrite Hc.
  unfold bind at 1, ret at 1, try_except, bind, client.request. simpl.
  by destruct (client.faults r _ _).
Qed.

Lemma mark_locally_deleted_run h reason (r : Remote) :
  is_configured = true →
  ∃ marked r',
    client.mark_locally_deleted h reason r = (Ok marked, r') ∧
    client.sync_state (client.tables r') = client.sync_state (client.tables r) ∧
    client.faults r' = client.faults r.
Proof.
  intros Hc. unfold client.mark_locally_deleted, client._get_client.
  rewrite Hc. unfold bind at 1, ret at 1, try_except, bind, client.request.
  destruct (client.faults r _ _); simpl; [by eexists _, _|].
  destruct (client.memories (client.tables r) !! h); simpl.
  - destruct (client.faults r _ _); simpl; [by eexists _, _|].
    destruct (client.faults r _ _); simpl; by eexists _, _.
  - unfold ret. destruct (client.faults r _ _); simpl; by eexists _, _.
Qed.

Lemma upsert_graph_edge_run src tgt sim rel md (r : Remote) :
  is_configured = true →
  ∃ stored r',
    client.upsert_graph_edge src tgt sim rel md r = (Ok stored, r') ∧
    client.sync_state (client.tables r') = client.sync_state (client.tables r) ∧
    client.faults r' = client.faults r.
Proof.
  intros Hc. unfold client.upsert_graph_edge, client._get_client.
  rewrite Hc. unfold bind at 1, ret at 1, try_except, bind, client.request.
  destruct (client.faults r _ _); simpl; by eexists _, _.
Qed.

Lemma undisturbed_refl st (r : Remote) : undisturbed st r st r.
Proof. done. Qed.

Lemma undisturbed_trans st1 (r1 : Remote) st2 (r2 : Remote) st3
    (r3 : Remote) :
  undisturbed st1 r1 st2 r2 → undisturbed st2 r2 st3 r3 →
  undisturbed st1 r1 st3 r3.
Proof.
  intros (A1 & A2 & A3 & A4 & A5) (B1 & B2 & B3 & B4 & B5).
  unfold undisturbed. split_and!; congruence.
Qed.

Lemma propagate_deletion_run h st (r : Remote) :
  is_configured = true →
  ∃ marked r',
    client.mark_locally_deleted h "local_soft_delete" r = (Ok marked, r') ∧
    propagate_deletion h (st, r) =
      (Ok tt, (if marked then incr_deleted_marked st else st, r')) ∧
    undisturbed st r (if marked then incr_deleted_marked st else st) r'.
Proof.
  intros Hc.
  destruct (mark_locally_deleted_run h "local_soft_delete" r Hc)
    as (marked & r' & Hrun & Hss & Hfl).
  exists marked, r'. split; [done|]. unfold propagate_deletion.
  split.
  - unfold bind. rewrite remote_run, Hrun. simpl. by destruct marked.
  - by destruct marked.
Qed.

Lemma prepare_rows_run (embeddings : gmap string (list F))
    (mems : list Memory) :
  is_configured = true →
  ∀ (batch : list (client.Mem F)) last st (r : Remote),
  ∃ st' r',
    for_each mems (batch, last) (prepare_row embeddings) (st, r)
    = (Ok (batch ++ (batch_entry embeddings <$> live mems),
           latest last (live mems)), (st', r')) ∧
    undisturbed st r st' r'.
Proof.
  intros Hc. induction mems as [|mem mems IH]; intros batch last st r.
  - exists st, r. simpl. by rewrite app_nil_r.
  - rewrite client_facts.for_each_cons. unfold live. rewrite filter_cons.
    unfold prepare_row at 1.
    destruct (deleted_at mem) as [t|] eqn:Hd.
    + destruct (propagate_deletion_run (content_hash mem) st r Hc)
        as (marked & r1 & _ & Hrun & Hu).
      rewrite (bind_ok _ _ _ _ _ Hrun). unfold ret at 1.
      destruct (IH batch last (if marked then incr_deleted_marked st else st)
                  r1) as (st' & r' & -> & Hu').
      exists st', r'. rewrite decide_False by done.
      split; [done|]. by eapply undisturbed_trans.
    + unfold ret at 1. cbv zeta.
      destruct (IH (batch ++ [batch_entry embeddings mem])
                  (if last <? change_time mem then change_time mem else last)
                  st r) as (st' & r' & -> & Hu').
      exists st', r'. rewrite decide_True by done. simpl.
      by rewrite <- app_assoc.
Qed.

Lemma sync_edges_run (rows : list (GraphRow F)) :
  is_configured = true →
  ∀ st (r : Remote), ∃ st' r',
    for_each rows tt (λ _ row, sync_edge row) (st, r) = (Ok tt, (st', r')) ∧
    undisturbed st r st' r'.
Proof.
  intros Hc. induction rows as [|row rows IH]; intros st r.
  - by exists st, r.
  - rewrite client_facts.for_each_cons. unfold sync_edge at 1.
    match goal with |- context [client.upsert_graph_edge ?a ?b ?c ?d ?e] =>
      destruct (upsert_graph_edge_run a b c d e r Hc)
        as (stored & r1 & Hrun & Hss & Hfl) end.
    unfold bind at 1. rewrite remote_run, Hrun. simpl.
    destruct stored.
    + destruct (IH (incr_graph_edges st) r1) as (st' & r' & Hrun' & Hu).
      exists st', r'. split; [exact Hrun'|].
      eapply undisturbed_trans; [|done]. done.
    + destruct (IH st r1) as (st' & r' & Hrun' & Hu).
      exists st', r'. split; [exact Hrun'|].
      eapply undisturbed_trans; [|done]. done.
Qed.

Lemma sync_graph_run conn st (r : Remote) :
  is_configured = true →
  ∃ st' r', sync_graph conn (st, r) = (Ok tt, (st', r')) ∧
            undisturbed st r st' r'.
Proof.
  intros Hc. unfold sync_graph.
  destruct (memory_graph conn) as [rows|msg]; simpl.
  - destruct (sync_edges_run rows Hc st r) as (st' & r' & Hrun & Hu).
    exists st', r'. split; [|done].
    unfold try_except, bind, lift_result, ret. simpl. by rewrite Hrun.
  - exists st, r. done.
Qed.

Lemma remote_ok {A} (m : M Remote A) st r a r' :
  m r = (Ok a, r') → remote m (st, r) = (Ok a, (st, r')).
Proof. intros Hm. by rewrite remote_run, Hm. Qed.

Lemma update_sync_state_ok w ms status (r : Remote) :
  is_configured = true →
  ∃ stored r',
    client.update_sync_state w ms status r = (Ok stored, r') ∧
    client.faults r' = client.faults r ∧
    client.trace r' =
      client.trace r ++ [client.UpsertSyncState (client.sync_row w ms status)] ∧
    (client.faults r (client.trace r)
       (client.UpsertSyncState (client.sync_row w ms status)) = None →
     client.watermark r' = Some w).
Proof.
  intros Hc. rewrite update_sync_state_run by done.
  destruct (client.faults r _ _) eqn:Hf; eexists _, _; split_and!; try done.
  intros _. unfold client.watermark, client.synced. simpl.
  by rewrite lookup_insert_eq.
Qed.

Lemma update_sync_state_frame w ms status (r : Remote) :
  client.same_but_sync_state (client.tables r)
    (client.tables (client.update_sync_state w ms status r).2) ∧
  client.faults (client.update_sync_state w ms status r).2 = client.faults r.
Proof.
  unfold client.update_sync_state, client._get_client.
  destruct is_configured; [|done].
  unfold bind at 1, ret at 1, try_except, bind, client.request. simpl.
  by destruct (client.faults r _ _).
Qed.

Lemma watermark_read_eq (r : Remote) sync_state r' :
  client.get_sync_state r = (Ok sync_state, r') →
  watermark_read r = or_zero (client.last_sync_updated_at sync_state).
Proof. unfold watermark_read. by intros ->. Qed.

(** A cycle with a non-empty changed set, up to its final
    [update_sync_state]. *)
Lemma cycle_changed_run conn (r : Remote) mems :
  is_configured = true →
  _get_local_memories conn (watermark_read r) = Ok mems →
  mems ≠ [] →
  ∃ sync_state st r5,
    client.faults r5 = client.faults r ∧
    updated_memories st = 0%nat ∧
    (live mems = [] ∧ new_memories st = 0%nat ∧ errors st = 0%nat ∨
     ∃ r3 r4 success failed,
       client.faults r3 = client.faults r ∧
       client.upsert_memories_batch
         (batch_entry (_get_local_embeddings conn (content_hash <$> mems))
            <$> live mems) r3 = (Ok (success, failed), r4) ∧
       new_memories st = success ∧ errors st = failed) ∧
    cycle conn (stats0, r) =
      (Ok false,
       (st, (client.update_sync_state
               (latest (watermark_read r) (live mems))
               (Some (or_zero (client.memories_synced sync_state)
                      + Z.of_nat (new_memories st)))
               "idle" r5).2)).
Proof.
  intros Hc Hmems Hne.
  destruct (get_sync_state_run r Hc) as (sync_state & Hget).
  rewrite (watermark_read_eq _ _ _ Hget) in *.
  set (last := or_zero (client.last_sync_updated_at sync_state)) in *.
  exists sync_state. unfold cycle.
  rewrite (bind_ok _ _ _ _ _ (remote_ok _ _ _ _ _ Hget)).
  fold last.
  destruct (update_sync_state_ok last (client.memories_synced sync_state)
              "syncing" (client.sent (client.SelectSyncState DEVICE_NAME) r) Hc)
    as (b2 & r2 & Hupd & Hfl2 & _).
  rewrite (bind_ok _ _ _ _ _ (remote_ok _ _ _ _ _ Hupd)).
  rewrite Hmems. unfold lift_result at 1, bind at 1, ret at 1.
  destruct mems as [|mem0 mems0]; [done|].
  set (mems := mem0 :: mems0) in *.
  set (embeddings := _get_local_embeddings conn (content_hash <$> mems)).
  destruct (prepare_rows_run embeddings mems Hc [] last stats0 r2)
    as (st3 & r3 & Hprep & (Hss3 & Hfl3 & Hnew3 & Hupd3 & Herr3)).
  unfold prepare_batch. rewrite (bind_ok _ _ _ _ _ Hprep).
  rewrite app_nil_l.
  assert (∀ st5 (r5 : Remote) W,
    (st0 <- get ;;
     remote (client.update_sync_state W
               (Some (or_zero (client.memories_synced sync_state)
                      + Z.of_nat (new_memories st0.1))) "idle") ;;;
     ret false) (st5, r5) =
    (Ok false,
     (st5, (client.update_sync_state W
              (Some (or_zero (client.memories_synced sync_state)
                     + Z.of_nat (new_memories st5))) "idle" r5).2)))
    as Hfinal.
  { intros st5 r5 W. unfold bind at 1, get. cbv beta iota. simpl fst.
    destruct (update_sync_state_ok W
                (Some (or_zero (client.memories_synced sync_state)
                       + Z.of_nat (new_memories st5))) "idle" r5 Hc)
      as (b & r6 & Hrun & _).
    rewrite (bind_ok _ _ _ _ _ (remote_ok _ _ _ _ _ Hrun)).
    by rewrite Hrun. }
  destruct (live mems) as [|m1 ms1] eqn:Hlive.
  - cbn [fmap list_fmap]. unfold ret at 1, bind at 1.
    destruct (sync_graph_run conn st3 r3 Hc)
      as (st5 & r5 & Hg & (Hss5 & Hfl5 & Hnew5 & Hupd5 & Herr5)).
    rewrite (bind_ok _ _ _ _ _ Hg).
    exists st5, r5. split_and!.
    + rewrite Hfl5, Hfl3, Hfl2. done.
    + by rewrite Hupd5, Hupd3.
    + left. split_and!; [done|by rewrite Hnew5, Hnew3|by rewrite Herr5, Herr3].
    + apply Hfinal.
  - remember (batch_entry embeddings <$> m1 :: ms1) as batch eqn:Hb.
    destruct batch as [|b0 bs]; [done|].
    destruct (client_facts.upsert_memories_batch_run (b0 :: bs) r3 Hc)
      as (success & failed & r4 & oks & Hup & _ & _ & _ & Hfl4 & _ & _).
    unfold bind at 1, bind at 1.
    rewrite (remote_ok _ _ _ _ _ Hup). unfold update_stats, modify.
    cbv beta iota. simpl fst. simpl snd.
    destruct (sync_graph_run conn (set_upserted success failed st3) r4 Hc)
      as (st5 & r5 & Hg & (Hss5 & Hfl5 & Hnew5 & Hupd5 & Herr5)).
    rewrite (bind_ok _ _ _ _ _ Hg).
    exists st5, r5. split_and!.
    + rewrite Hfl5, Hfl4, Hfl3, Hfl2. done.
    + rewrite Hupd5. simpl. by rewrite Hupd3.
    + right. exists r3, r4, success, failed.
      split_and!; try done. rewrite Hfl3, Hfl2. done.
    + apply Hfinal.
Qed.

Lemma sync_once_of_cycle conn (r : Remote) returned st r' :
  cycle conn (stats0, r) = (Ok returned, (st, r')) →
  sync_once (Some conn) r =
    (Ok (if returned : bool then st else set_duration elapsed_ms st), r').
Proof.
  intros Hcy. unfold sync_once. by rewrite (try_except_ok _ _ _ _ _ Hcy).
Qed.

(** The watermark read is not negative when the stored one is not. *)
Lemma watermark_read_nonneg (r : Remote) :
  (∀ row, client.sync_state (client.tables r) !! DEVICE_NAME = Some row →
          0 ≤ or_zero (client.last_sync_updated_at row)) →
  0 ≤ watermark_read r.
Proof.
  intros Hrow. unfold watermark_read, client.get_sync_state, client._get_client.
  destruct is_configured; [|done].
  unfold bind at 1, ret at 1, try_except, bind, client.request.
  destruct (client.faults r _ _); simpl; [done|].
  destruct (client.sync_state (client.tables r) !! DEVICE_NAME) as [row|];
    simpl; [by apply Hrow|done].
Qed.

(** *** The running maximum *)

Lemma latest_ge last mems : last ≤ latest last mems.
Proof.
  revert last. induction mems as [|mem mems IH]; intros last; simpl; [done|].
  unfold latest in *. simpl. etrans; [|apply IH].
  destruct (Z.ltb_spec last (change_time mem)); lia.
Qed.

Lemma latest_upper last mems mem :
  mem ∈ mems → change_time mem ≤ latest last mems.
Proof.
  revert last. induction mems as [|m mems IH]; intros last Hin.
  - by apply elem_of_nil in Hin.
  - unfold latest in *. simpl. apply elem_of_cons in Hin as [->|Hin].
    + etrans; [|apply latest_ge].
      destruct (Z.ltb_spec last (change_time m)); lia.
    + by apply IH.
Qed.

Lemma latest_attained last mems :
  latest last mems = last ∨ ∃ mem, mem ∈ mems ∧ latest last mems = change_time mem.
Proof.
  revert last. induction mems as [|m mems IH]; intros last; [by left|].
  unfold latest in *. simpl.
  destruct (IH (if last <? change_time m then change_time m else last))
    as [Heq|(mem & Hin & Heq)].
  - rewrite Heq. destruct (Z.ltb_spec last (change_time m)); [|by left].
    right. exists m. split; [by left|done].
  - right. exists mem. split; [by right|done].
Qed.

(** *** The change query *)

Lemma changed_rows_after (conn : Connection F) last mems mem :
  _get_local_memories conn last = Ok mems → mem ∈ mems →
  last < change_timestamp mem ∧
  (0 ≤ last → change_time mem = change_timestamp mem).
Proof.
  unfold _get_local_memories. destruct (memories conn) as [rows|]; [|done].
  intros [= <-] (row & -> & Hin)%list_elem_of_fmap.
  rewrite merge_sort_Permutation in Hin.
  apply list_elem_of_filter in Hin as [Hsel _].
  unfold changed_since in Hsel.
  unfold change_timestamp, change_time, to_memory. simpl.
  destruct (row_updated_at row) as [u|]; simpl.
  - apply Z.ltb_lt in Hsel. split; [done|]. intros H0.
    destruct (Z.eqb_spec u 0); [lia|done].
  - destruct (row_created_at row) as [c|]; [|done].
    apply Z.ltb_lt in Hsel. done.
Qed.

Lemma live_subset (mems : list Memory) mem : mem ∈ live mems → mem ∈ mems.
Proof. unfold live. by intros [_ ?]%list_elem_of_filter. Qed.

(** C4: in a cycle whose changed set is not empty, the watermark that
    [sync_once] persists with status [idle] is the largest change-timestamp
    among the records prepared for upsert, whatever the remote store did
    with the individual upserts; tombstoned records do not count, and when
    every changed record is tombstoned the watermark read at the start is
    persisted again. *)
Theorem sync_once_advances_watermark (conn : Connection F) (r : Remote) mems :
  is_configured = true →
  _get_local_memories conn (watermark_read r) = Ok mems →
  mems ≠ [] →
  0 ≤ watermark_read r →
  ∃ stats r' row,
    sync_once (Some conn) r = (Ok stats, r') ∧
    last (client.trace r') = Some (client.UpsertSyncState row) ∧
    client.status row = "idle"%string ∧
    (client.faults r (removelast (client.trace r'))
       (client.UpsertSyncState row) = None →
     client.watermark r' = client.last_sync_updated_at row) ∧
    match live mems with
    | [] => client.last_sync_updated_at row = Some (watermark_read r)
    | _ =>
        ∃ w, client.last_sync_updated_at row = Some w ∧
             (∃ mem, mem ∈ live mems ∧ w = change_timestamp mem) ∧
             ∀ mem, mem ∈ live mems → change_timestamp mem ≤ w
    end.
Proof.
  intros Hc Hmems Hne Hpos.
  destruct (cycle_changed_run conn r mems Hc Hmems Hne)
    as (sync_state & st & r5 & Hfl5 & _ & _ & Hcy).
  set (W := latest (watermark_read r) (live mems)) in *.
  set (total := Some _) in Hcy.
  destruct (update_sync_state_ok W total "idle" r5 Hc)
    as (stored & r' & Hupd & Hfl & Htr & Hacc).
  rewrite Hupd in Hcy. simpl in Hcy.
  exists (set_duration elapsed_ms st), r', (client.sync_row W total "idle").
  split_and!.
  - by rewrite (sync_once_of_cycle _ _ _ _ _ Hcy).
  - rewrite Htr. apply last_snoc.
  - done.
  - rewrite Htr, removelast_last, <- Hfl5. intros Hok.
    by rewrite (Hacc Hok).
  - destruct (live mems) as [|m1 ms1] eqn:Hlive; [done|].
    exists W. split; [done|].
    assert (∀ mem, mem ∈ m1 :: ms1 →
              change_time mem = change_timestamp mem ∧
              watermark_read r < change_time mem) as Hts.
    { intros mem Hin. rewrite <- Hlive in Hin. apply live_subset in Hin.
      destruct (changed_rows_after conn _ mems mem Hmems Hin) as [Hlt Heq].
      rewrite (Heq Hpos). done. }
    split.
    + destruct (latest_attained (watermark_read r) (m1 :: ms1))
        as [Heq|(mem & Hin & Heq)].
      * pose proof (latest_upper (watermark_read r) (m1 :: ms1) m1) as Hle.
        destruct (Hts m1) as [_ Hlt]; [by left|].
        specialize (Hle ltac:(by left)). lia.
      * exists mem. split; [done|]. subst W. rewrite Heq.
        by apply Hts.
    + intros mem Hin. destruct (Hts mem Hin) as [<- _].
      by apply latest_upper.
Qed.

(** *** The rescan of tombstones *)

Lemma mark_locally_deleted_trace h reason (r : Remote) :
  is_configured = true →
  ∃ more, client.trace (client.mark_locally_deleted h reason r).2 =
            client.trace r ++ client.SelectMemory h :: more.
Proof.
  intros Hc. unfold client.mark_locally_deleted, client._get_client.
  rewrite Hc. unfold bind at 1, ret at 1, try_except, bind, client.request.
  destruct (client.faults r _ _); simpl; [by exists []|].
  destruct (client.memories (client.tables r) !! h); simpl.
  - destruct (client.faults r _ _); simpl;
      [rewrite <- app_assoc; by eexists|].
    destruct (client.faults r _ _); simpl;
      rewrite <- !app_assoc; by eexists.
  - unfold ret. destruct (client.faults r _ _); simpl;
      rewrite <- !app_assoc; by eexists.
Qed.

Lemma successes_snoc marks marked :
  successes (marks ++ [marked]) =
  (successes marks + if marked : bool then 1 else 0)%nat.
Proof.
  unfold successes. rewrite filter_app, length_app. f_equal.
  by destruct marked.
Qed.

Lemma propagate_all_run (hashes : list string) :
  is_configured = true →
  ∀ st (r : Remote) marks0,
  ∃ marks st' r' more,
    for_each hashes marks0 mark_one r = (Ok (marks0 ++ marks), r') ∧
    length marks = length hashes ∧
    for_each hashes tt (λ _ h, propagate_deletion h) (st, r)
      = (Ok tt, (st', r')) ∧
    deleted_marked st' = (deleted_marked st + successes marks)%nat ∧
    undisturbed st r st' r' ∧
    client.trace r' = client.trace r ++ more ∧
    ∀ h, h ∈ hashes → client.SelectMemory h ∈ more.
Proof.
  intros Hc. induction hashes as [|h hashes IH]; intros st r marks0.
  - exists [], st, r, []. rewrite !app_nil_r. simpl.
    split_and!; try done; try (unfold successes; simpl; lia).
    intros h Hin. by apply elem_of_nil in Hin.
  - rewrite !client_facts.for_each_cons.
    destruct (propagate_deletion_run h st r Hc)
      as (marked & r1 & Hmark & Hprop & Hu).
    destruct (mark_locally_deleted_trace h "local_soft_delete" r Hc)
      as (more1 & Htr1).
    rewrite Hmark in Htr1. simpl in Htr1.
    unfold mark_one at 1. rewrite (bind_ok _ _ _ _ _ Hmark). unfold ret at 1.
    rewrite Hprop.
    destruct (IH (if marked then incr_deleted_marked st else st) r1
                (marks0 ++ [marked]))
      as (marks & st' & r' & more & Hrun & Hlen & Hrun' & Hcount & Hu' & Htr
          & Hsel).
    exists (marked :: marks), st', r', (client.SelectMemory h :: more1 ++ more).
    split_and!.
    + rewrite Hrun. by rewrite <- app_assoc.
    + simpl. by rewrite Hlen.
    + done.
    + rewrite Hcount.
      change (marked :: marks) with ([marked] ++ marks).
      unfold successes. rewrite filter_app, length_app.
      destruct marked; simpl; lia.
    + by eapply undisturbed_trans.
    + rewrite Htr, Htr1, <- app_assoc. done.
    + intros h' [->|Hin]%elem_of_cons; [by left|].
      right. apply elem_of_app. right. by apply Hsel.
Qed.

(** A cycle whose changed set is empty. *)
Lemma cycle_idle_run (conn : Connection F) (r : Remote) :
  is_configured = true →
  _get_local_memories conn (watermark_read r) = Ok [] →
  ∃ sync_state marks st r2,
    let r1 := (client.update_sync_state (watermark_read r)
                 (client.memories_synced sync_state) "syncing"
                 (client.sent (client.SelectSyncState DEVICE_NAME) r)).2 in
    mark_each (_get_locally_deleted conn) r1 = (Ok marks, r2) ∧
    length marks = length (_get_locally_deleted conn) ∧
    deleted_marked st = successes marks ∧
    new_memories st = 0%nat ∧ updated_memories st = 0%nat ∧
    errors st = 0%nat ∧
    (∃ more, client.trace r2 = client.trace r ++ more ∧
             ∀ h, h ∈ _get_locally_deleted conn →
                  client.SelectMemory h ∈ more) ∧
    client.faults r2 = client.faults r ∧
    cycle conn (stats0, r) =
      (Ok true,
       (set_duration elapsed_ms st,
        (client.update_sync_state (watermark_read r)
           (client.memories_synced sync_state) "idle" r2).2)).
Proof.
  intros Hc Hmems.
  destruct (get_sync_state_run r Hc) as (sync_state & Hget).
  rewrite (watermark_read_eq _ _ _ Hget) in *.
  set (last := or_zero (client.last_sync_updated_at sync_state)) in *.
  exists sync_state. unfold cycle.
  rewrite (bind_ok _ _ _ _ _ (remote_ok _ _ _ _ _ Hget)).
  fold last.
  destruct (update_sync_state_ok last (client.memories_synced sync_state)
              "syncing" (client.sent (client.SelectSyncState DEVICE_NAME) r) Hc)
    as (b2 & r1 & Hupd & Hfl1 & Htr1 & _).
  rewrite (bind_ok _ _ _ _ _ (remote_ok _ _ _ _ _ Hupd)).
  rewrite Hmems. unfold lift_result at 1, bind at 1, ret at 1.
  rewrite Hupd. simpl snd.
  destruct (propagate_all_run (_get_locally_deleted conn) Hc stats0 r1 [])
    as (marks & st & r2 & more & Hrun & Hlen & Hrun' & Hcount & Hu & Htr & Hsel).
  destruct Hu as (Hss & Hfl & Hnew & Hupdm & Herr).
  exists marks, st, r2. cbv zeta. split_and!; try done.
  - simpl in Htr1. eexists. split.
    + rewrite Htr, Htr1, <- !app_assoc. done.
    + intros h Hin. repeat (apply elem_of_app; right). by apply Hsel.
  - by rewrite Hfl, Hfl1.
  - rewrite (bind_ok _ _ _ _ _ Hrun').
    destruct (update_sync_state_ok last (client.memories_synced sync_state)
                "idle" r2 Hc) as (b3 & r3 & Hupd3 & _).
    rewrite (bind_ok _ _ _ _ _ (remote_ok _ _ _ _ _ Hupd3)).
    rewrite Hupd3. done.
Qed.

(** C6: when no record changed since the watermark, [sync_once] still
    collects every tombstoned row of the local table (whatever its
    timestamp), sends a propagation attempt for each of them in this very
    cycle, and reports in [deleted_marked] how many of the attempts
    succeeded. *)
Theorem sync_once_rescans_tombstones (conn : Connection F) rows (r : Remote) :
  is_configured = true →
  memories conn = Rows rows →
  _get_local_memories conn (watermark_read r) = Ok [] →
  ∃ stats (r' r1 : Remote) marks r2 more,
    sync_once (Some conn) r = (Ok stats, r') ∧
    client.same_but_sync_state (client.tables r) (client.tables r1) ∧
    client.faults r1 = client.faults r ∧
    mark_each (tombstoned rows) r1 = (Ok marks, r2) ∧
    length marks = length (tombstoned rows) ∧
    client.same_but_sync_state (client.tables r2) (client.tables r') ∧
    deleted_marked stats = successes marks ∧
    new_memories stats = 0%nat ∧
    client.trace r' = client.trace r ++ more ∧
    ∀ h, h ∈ tombstoned rows → client.SelectMemory h ∈ more.
Proof.
  intros Hc Hrows Hmems.
  destruct (cycle_idle_run conn r Hc Hmems)
    as (sync_state & marks & st & r2 & Hmark & Hlen & Hcount & Hnew & _ & _
        & (more & Htr & Hsel) & Hfl & Hcy).
  assert (_get_locally_deleted conn = tombstoned rows) as Htomb
    by (unfold _get_locally_deleted; by rewrite Hrows).
  rewrite Htomb in *.
  destruct (update_sync_state_ok (watermark_read r)
              (client.memories_synced sync_state) "idle" r2 Hc)
    as (b3 & r3 & Hupd3 & _ & Htr3 & _).
  pose proof (update_sync_state_frame (watermark_read r)
                (client.memories_synced sync_state) "idle" r2) as [Hfr3 _].
  pose proof (update_sync_state_frame (watermark_read r)
                (client.memories_synced sync_state) "syncing"
                (client.sent (client.SelectSyncState DEVICE_NAME) r))
    as [Hfr1 Hfl1].
  rewrite Hupd3 in Hcy, Hfr3. simpl in Hcy, Hfr3.
  eexists _, r3, _, marks, r2, _. split_and!.
  - by rewrite (sync_once_of_cycle _ _ _ _ _ Hcy).
  - exact Hfr1.
  - exact Hfl1.
  - exact Hmark.
  - done.
  - done.
  - done.
  - done.
  - rewrite Htr3, Htr, <- app_assoc. done.
  - intros h Hin. apply elem_of_app. left. by apply Hsel.
Qed.

(** *** [updated_memories] is never written *)

Lemma keeps_ret {A} (a : A) : keeps_updated (F := F) (ret a).
Proof. done. Qed.

Lemma keeps_raise {A} e : keeps_updated (F := F) (A := A) (raise e).
Proof. done. Qed.

Lemma keeps_bind {A B} (m : Cycle F A) (k : A → Cycle F B) :
  keeps_updated m → (∀ a, keeps_updated (k a)) → keeps_updated (bind m k).
Proof.
  intros Hm Hk st r. unfold bind. specialize (Hm st r).
  destruct (m (st, r)) as [[a|e] [st' r']]; simpl in *; [|done].
  by rewrite Hk.
Qed.

Lemma keeps_try_except {A} (m : Cycle F A) (h : exn → Cycle F A) :
  keeps_updated m → (∀ e, keeps_updated (h e)) →
  keeps_updated (try_except m h).
Proof.
  intros Hm Hh st r. unfold try_except. specialize (Hm st r).
  destruct (m (st, r)) as [[a|e] [st' r']]; simpl in *; [done|].
  by rewrite Hh.
Qed.

Lemma keeps_for_each {A X} (xs : list X) (acc : A) (body : A → X → Cycle F A) :
  (∀ a x, keeps_updated (body a x)) → keeps_updated (for_each xs acc body).
Proof.
  intros Hb. revert acc. induction xs as [|x xs IH]; intros acc; simpl.
  - apply keeps_ret.
  - apply keeps_bind; [apply Hb|]. intros a. apply IH.
Qed.

Lemma keeps_remote {A} (m : M Remote A) : keeps_updated (remote m).
Proof. intros st r. by rewrite remote_run. Qed.

Lemma keeps_update_stats (f : Stats → Stats) :
  (∀ st, updated_memories (f st) = updated_memories st) →
  keeps_updated (F := F) (update_stats f).
Proof. intros Hf st r. simpl. apply Hf. Qed.

Lemma keeps_lift_result {A} (res : Result A) :
  keeps_updated (F := F) (lift_result res).
Proof. by destruct res. Qed.

Lemma keeps_propagate_deletion h : keeps_updated (F := F) (propagate_deletion h).
Proof.
  apply keeps_bind; [apply keeps_remote|]. intros [|].
  - by apply keeps_update_stats.
  - apply keeps_ret.
Qed.

Lemma keeps_cycle (conn : Connection F) : keeps_updated (cycle conn).
Proof.
  unfold cycle.
  apply keeps_bind; [apply keeps_remote|]. intros sync_state.
  apply keeps_bind; [apply keeps_remote|]. intros _.
  apply keeps_bind; [apply keeps_lift_result|]. intros [|mem mems].
  - apply keeps_bind.
    { apply keeps_for_each. intros _ h. apply keeps_propagate_deletion. }
    intros _. apply keeps_bind; [apply keeps_remote|]. intros _.
    apply keeps_bind; [by apply keeps_update_stats|]. intros _.
    apply keeps_ret.
  - apply keeps_bind.
    { apply keeps_for_each. intros [batch last] m. unfold prepare_row.
      destruct (deleted_at m).
      - apply keeps_bind; [apply keeps_propagate_deletion|].
        intros _. apply keeps_ret.
      - apply keeps_ret. }
    intros [batch last]. apply keeps_bind.
    { destruct batch; [apply keeps_ret|].
      apply keeps_bind; [apply keeps_remote|]. intros counts.
      by apply keeps_update_stats. }
    intros _. apply keeps_bind.
    { apply keeps_try_except; [|intros; apply keeps_ret].
      apply keeps_bind; [apply keeps_lift_result|]. intros rows.
      apply keeps_for_each. intros _ row. unfold sync_edge.
      apply keeps_bind; [apply keeps_remote|]. intros [|].
      - by apply keeps_update_stats.
      - apply keeps_ret. }
    intros _. apply keeps_bind; [done|]. intros st.
    apply keeps_bind; [apply keeps_remote|]. intros _. apply keeps_ret.
Qed.

Lemma on_cycle_error_eq e st (r : Remote) :
  on_cycle_error e (st, r) =
  (Ok false,
   (set_error (exn_str e) st,
    (client.update_sync_state 0 (Some 0)
       ("error: " +:+ substring 0 100 (exn_str e)) r).2)).
Proof.
  unfold on_cycle_error, update_stats, modify, bind at 1. cbv beta iota.
  unfold bind at 1, try_except, bind at 1. rewrite remote_run.
  by destruct (client.update_sync_state _ _ _ _) as [[b|e'] r'].
Qed.

Lemma on_cycle_error_run e st (r : Remote) :
  ∃ r', on_cycle_error e (st, r) = (Ok false, (set_error (exn_str e) st, r')).
Proof. rewrite on_cycle_error_eq. by eexists. Qed.

Lemma sync_once_returns db (r : Remote) :
  ∃ stats r', sync_once db r = (Ok stats, r') ∧
              updated_memories stats = 0%nat.
Proof.
  destruct db as [conn|]; [|by eexists _, _].
  unfold sync_once, try_except.
  pose proof (keeps_cycle conn stats0 r) as Hk.
  destruct (cycle conn (stats0, r)) as [[returned|e] [st r1]]; simpl in Hk.
  - eexists _, _. split; [done|]. by destruct returned.
  - destruct (on_cycle_error_run e st r1) as (r' & ->).
    eexists _, _. split; [done|]. done.
Qed.

(** C10: every stats dictionary that [sync_once] returns has
    [updated_memories = 0].  The rows that the remote store accepted are
    all counted in [new_memories]: when rejection depends on the rows
    alone, [new_memories] is the number of acceptable rows of the batch and
    [errors] the number of the others, whatever the remote table held
    before. *)
Theorem sync_once_counts_every_upsert_as_new (db : option (Connection F))
    (r : Remote) :
  ∃ stats r',
    sync_once db r = (Ok stats, r') ∧
    updated_memories stats = 0%nat ∧
    ∀ conn mems bad,
      db = Some conn →
      is_configured = true →
      _get_local_memories conn (watermark_read r) = Ok mems →
      mems ≠ [] →
      client.rejects_exactly bad r →
      let batch :=
        client.batch_row <$>
          (batch_entry (_get_local_embeddings conn (content_hash <$> mems))
             <$> live mems) in
      new_memories stats = client.count bad false batch ∧
      errors stats = client.count bad true batch.
Proof.
  destruct (sync_once_returns db r) as (stats & r' & Hrun & Hzero).
  exists stats, r'. split_and!; [done|done|].
  intros conn mems bad -> Hc Hmems Hne Hbad batch.
  destruct (cycle_changed_run conn r mems Hc Hmems Hne)
    as (sync_state & st & r5 & _ & _ & Hcount & Hcy).
  rewrite (sync_once_of_cycle _ _ _ _ _ Hcy) in Hrun.
  injection Hrun as <- _. simpl.
  destruct Hcount as [(Hlive & -> & ->)|(r3 & r4 & s & f & Hfl3 & Hup & <- & <-)].
  - subst batch. rewrite Hlive. done.
  - destruct (client_facts.upsert_memories_batch_run
                (batch_entry (_get_local_embeddings conn (content_hash <$> mems))
                   <$> live mems) r3 Hc)
      as (s' & f' & r4' & oks & Hup' & _ & _ & _ & _ & _ & Hb & _).
    rewrite Hup in Hup'. injection Hup' as -> -> _.
    apply Hb. unfold client.rejects_exactly in *. by rewrite Hfl3.
Qed.

(** *** The watermark across a cycle *)

(** Without a cycle-level exception the watermark sent at the end of the
    cycle is at least the watermark read at its start. *)
Lemma sync_once_watermark_forward (conn : Connection F) (r : Remote) mems :
  is_configured = true →
  _get_local_memories conn (watermark_read r) = Ok mems →
  ∃ stats r' row w,
    sync_once (Some conn) r = (Ok stats, r') ∧
    last (client.trace r') = Some (client.UpsertSyncState row) ∧
    client.last_sync_updated_at row = Some w ∧
    watermark_read r ≤ w.
Proof.
  intros Hc Hmems. destruct mems as [|mem mems].
  - destruct (cycle_idle_run conn r Hc Hmems)
      as (sync_state & marks & st & r2 & _ & _ & _ & _ & _ & _ & _ & _ & Hcy).
    destruct (update_sync_state_ok (watermark_read r)
                (client.memories_synced sync_state) "idle" r2 Hc)
      as (b & r' & Hupd & _ & Htr & _).
    rewrite Hupd in Hcy. simpl in Hcy.
    eexists _, r', _, _. split_and!.
    + by rewrite (sync_once_of_cycle _ _ _ _ _ Hcy).
    + rewrite Htr. apply last_snoc.
    + done.
    + done.
  - destruct (cycle_changed_run conn r (mem :: mems) Hc Hmems ltac:(done))
      as (sync_state & st & r5 & _ & _ & _ & Hcy).
    set (total := Some _) in Hcy.
    destruct (update_sync_state_ok (latest (watermark_read r)
                                      (live (mem :: mems))) total "idle" r5 Hc)
      as (b & r' & Hupd & _ & Htr & _).
    rewrite Hupd in Hcy. simpl in Hcy.
    eexists _, r', _, _. split_and!.
    + by rewrite (sync_once_of_cycle _ _ _ _ _ Hcy).
    + rewrite Htr. apply last_snoc.
    + done.
    + apply latest_ge.
Qed.

(** When the local [memories] table cannot be read, the cycle ends in the
    [except] clause, which upserts a sync state with watermark 0 and
    [memories_synced = 0]. *)
Lemma sync_once_error_resets_watermark (conn : Connection F) (r : Remote) msg :
  is_configured = true →
  memories conn = Broken msg →
  ∃ stats r' row,
    sync_once (Some conn) r = (Ok stats, r') ∧
    error_message stats = Some msg ∧
    last (client.trace r') = Some (client.UpsertSyncState row) ∧
    client.last_sync_updated_at row = Some 0 ∧
    client.memories_synced row = Some 0 ∧
    (client.faults r (removelast (client.trace r'))
       (client.UpsertSyncState row) = None →
     client.watermark r' = Some 0).
Proof.
  intros Hc Hbroken.
  destruct (get_sync_state_run r Hc) as (sync_state & Hget).
  set (last := or_zero (client.last_sync_updated_at sync_state)).
  destruct (update_sync_state_ok last (client.memories_synced sync_state)
              "syncing" (client.sent (client.SelectSyncState DEVICE_NAME) r) Hc)
    as (b2 & r2 & Hupd & Hfl2 & _).
  assert (cycle conn (stats0, r) = (Raise (Exn SqliteError msg), (stats0, r2)))
    as Hcy.
  { unfold cycle.
    rewrite (bind_ok _ _ _ _ _ (remote_ok _ _ _ _ _ Hget)). fold last.
    rewrite (bind_ok _ _ _ _ _ (remote_ok _ _ _ _ _ Hupd)).
    unfold _get_local_memories. rewrite Hbroken. done. }
  set (status := ("error: " +:+ substring 0 100 msg)%string).
  destruct (update_sync_state_ok 0 (Some 0) status r2 Hc)
    as (b3 & r3 & Hupd3 & Hfl3 & Htr3 & Hacc).
  exists (set_duration elapsed_ms (set_error msg stats0)), r3,
         (client.sync_row 0 (Some 0) status).
  split_and!.
  - unfold sync_once. rewrite (try_except_raise _ _ _ _ _ Hcy).
    rewrite on_cycle_error_eq. simpl exn_str. fold status.
    by rewrite Hupd3.
  - done.
  - rewrite Htr3. apply last_snoc.
  - done.
  - done.
  - rewrite Htr3, removelast_last. intros Hok. apply Hacc.
    rewrite Hfl2. exact Hok.
Qed.

End facts.
End sync_facts.

(** ** Facts about clustering and summaries *)
Module summarize_facts.
Import summarize.
Section facts.
Context {F : Type} {FA : PyFloat F} {P : Platform}.
Local Open Scope nat_scope.

Local Abbreviation Remote := (client.Remote F).
Local Abbreviation MemoryRow := (client.MemoryRow F).

(** *** Positions *)

Lemma enumerate_from_lookup {A} (l : list A) n j x :
  (j, x) ∈ enumerate_from n l → n ≤ j ∧ l !! (j - n) = Some x.
Proof.
  revert n. induction l as [|y l IH]; intros n Hin; simpl in Hin.
  - by apply elem_of_nil in Hin.
  - apply elem_of_cons in Hin as [[= -> ->]|Hin].
    + split; [lia|]. by rewrite Nat.sub_diag.
    + apply IH in Hin as [Hle Hl]. split; [lia|].
      replace (j - n) with (S (j - S n)) by lia. done.
Qed.

Lemma enumerate_lookup {A} (l : list A) j x :
  (j, x) ∈ enumerate l → l !! j = Some x.
Proof.
  intros [_ Hl]%enumerate_from_lookup. by rewrite Nat.sub_0_r in Hl.
Qed.

Lemma rows_at_snoc (we : list MemoryRow) ms j b :
  we !! j = Some b → rows_at we (ms ++ [j]) = rows_at we ms ++ [b].
Proof. intros Hj. unfold rows_at. rewrite omap_app. simpl. by rewrite Hj. Qed.

Lemma rows_at_length (we : list MemoryRow) ms :
  Forall (λ j, j < length we) ms → length (rows_at we ms) = length ms.
Proof.
  induction 1 as [|j ms Hj _ IH]; [done|]. unfold rows_at in *.
  cbn [omap list_omap].
  destruct (lookup_lt_is_Some_2 we j Hj) as [b ->]. cbn [length].
  by rewrite IH.
Qed.

(** *** The inner loop *)

Lemma absorb_rows thr (we : list MemoryRow) a A ms j b :
  we !! j = Some b →
  absorb thr a (A, rows_at we ms) (j, b) =
  ((absorb_at thr a (A, ms) (j, b)).1,
   rows_at we (absorb_at thr a (A, ms) (j, b)).2).
Proof.
  intros Hj. unfold absorb, absorb_at. case_decide; [done|].
  destruct (f_geb _ _); [|done]. simpl. by rewrite (rows_at_snoc _ _ _ _ Hj).
Qed.

Lemma grow_rows_from thr (we : list MemoryRow) a l :
  (∀ j b, (j, b) ∈ l → we !! j = Some b) →
  ∀ A ms,
    foldl (absorb thr a) (A, rows_at we ms) l =
    ((foldl (absorb_at thr a) (A, ms) l).1,
     rows_at we (foldl (absorb_at thr a) (A, ms) l).2).
Proof.
  induction l as [|[j b] l IH]; intros Hl A ms; cbn [foldl]; [done|].
  rewrite absorb_rows by (apply Hl; by left).
  destruct (absorb_at thr a (A, ms) (j, b)) as [A' ms']. cbn [fst snd].
  apply IH. intros j' b' Hin. apply Hl. by right.
Qed.

Lemma grow_rows thr (we : list MemoryRow) A i a :
  we !! i = Some a →
  grow_cluster thr we A i a =
  ((grow_at thr we A i a).1, rows_at we (grow_at thr we A i a).2).
Proof.
  intros Hi. unfold grow_cluster, grow_at.
  replace [a] with (rows_at we [i]) by (unfold rows_at; simpl; by rewrite Hi).
  apply grow_rows_from. intros j b. apply enumerate_lookup.
Qed.

Lemma absorb_at_grown thr (we : list MemoryRow) A0 i a A ms j b :
  we !! j = Some b →
  grown thr we A0 i a A ms →
  grown thr we A0 i a (absorb_at thr a (A, ms) (j, b)).1
                      (absorb_at thr a (A, ms) (j, b)).2.
Proof.
  intros Hj Hg. unfold absorb_at. case_decide as Hin; [done|].
  destruct (f_geb _ _) eqn:Hsim; [|done]. simpl.
  destruct Hg as (Hset & Hnd & Hnew & (rest & -> & Hrest) & Hlt).
  assert (j ∉ i :: rest) as Hfresh.
  { intros Hm. apply Hin, Hset. by right. }
  split_and!.
  - intros k. rewrite elem_of_union, elem_of_singleton, elem_of_app,
      list_elem_of_singleton, Hset. tauto.
  - apply NoDup_app. split_and!; [done| |apply NoDup_singleton].
    intros k Hk Hkj%list_elem_of_singleton. by subst.
  - intros k [Hk|Hkj%list_elem_of_singleton]%elem_of_app; [by apply Hnew|].
    subst. intros Hk. apply Hin, Hset. by left.
  - exists (rest ++ [j]). split; [done|].
    intros k [Hk|Hkj%list_elem_of_singleton]%elem_of_app; [by apply Hrest|].
    subst. by exists b.
  - apply Forall_app. split; [done|]. apply Forall_singleton.
    by eapply lookup_lt_Some.
Qed.

Lemma grow_at_grown thr (we : list MemoryRow) A0 i a :
  i ∉ A0 → we !! i = Some a →
  grown thr we A0 i a (grow_at thr we A0 i a).1 (grow_at thr we A0 i a).2.
Proof.
  intros Hi Ha. unfold grow_at.
  assert (grown thr we A0 i a ({[i]} ∪ A0) [i]) as Hinit.
  { split_and!.
    - intros k. rewrite elem_of_union, elem_of_singleton,
        list_elem_of_singleton. tauto.
    - apply NoDup_singleton.
    - intros k Hk%list_elem_of_singleton. by subst.
    - exists []. split; [done|]. intros k Hk. by apply elem_of_nil in Hk.
    - apply Forall_singleton. by eapply lookup_lt_Some. }
  revert Hinit. generalize ({[i]} ∪ A0) [i].
  assert (∀ j b, (j, b) ∈ enumerate we → we !! j = Some b) as Hl
    by (intros j b; apply enumerate_lookup).
  revert Hl. generalize (enumerate we).
  induction l as [|[j b] l IH]; intros Hl A ms Hg; [done|]. cbn [foldl].
  pose proof (absorb_at_grown thr we A0 i a A ms j b (Hl j b ltac:(by left)) Hg)
    as Hstep.
  destruct (absorb_at thr a (A, ms) (j, b)) as [A' ms'].
  apply IH; [|done]. intros j' b' Hin. apply Hl. by right.
Qed.

(** *** The outer loop *)

Lemma filter_kept_snoc (found : list (list nat)) ms :
  filter kept (found ++ [ms]) =
  filter kept found ++ (if (3 <=? length ms) then [ms] else []).
Proof.
  rewrite filter_app. f_equal. rewrite filter_cons, filter_nil.
  unfold kept. destruct (Nat.leb_spec 3 (length ms)); case_decide; done || lia.
Qed.

Lemma seed_rows thr (we : list MemoryRow) A found i a :
  we !! i = Some a →
  seed_step thr we (A, rows_at we <$> filter kept found) (i, a) =
  ((seed_at thr we (A, found) (i, a)).1,
   rows_at we <$> filter kept (seed_at thr we (A, found) (i, a)).2).
Proof.
  intros Hi. unfold seed_step, seed_at. case_decide as Hin; [done|].
  rewrite (grow_rows _ _ _ _ _ Hi).
  pose proof (grow_at_grown thr we A i a Hin Hi) as (_ & _ & _ & _ & Hlt).
  destruct (grow_at thr we A i a) as [A' ms]. cbn [fst snd] in *.
  rewrite (rows_at_length _ _ Hlt), filter_kept_snoc, fmap_app.
  destruct (3 <=? length ms); [done|]. by rewrite app_nil_r.
Qed.

Lemma seed_at_clustered thr (we : list MemoryRow) A found i a :
  we !! i = Some a →
  clustered thr we A found →
  clustered thr we (seed_at thr we (A, found) (i, a)).1
                   (seed_at thr we (A, found) (i, a)).2.
Proof.
  intros Hi Hc. unfold seed_at. case_decide as Hin; [done|].
  pose proof (grow_at_grown thr we A i a Hin Hi)
    as (Hset & Hnd & Hnew & (rest & Hms & Hrest) & Hlt).
  destruct (grow_at thr we A i a) as [A' ms]. simpl in *.
  destruct Hc as (Hall & Hdis & Hseeded & Hbound).
  unfold clustered. rewrite concat_app. simpl. rewrite app_nil_r.
  split_and!.
  - intros j. rewrite elem_of_app, Hset, Hall. tauto.
  - apply NoDup_app. split_and!; [done| |done].
    intros j Hj Hj'. apply (Hnew j Hj'). by apply Hall.
  - apply Forall_app. split; [done|]. apply Forall_singleton.
    by exists i, rest, a.
  - apply Forall_app. split; [done|]. by apply Forall_singleton.
Qed.

Lemma seed_at_assigns thr (we : list MemoryRow) A found i a :
  i ∈ (seed_at thr we (A, found) (i, a)).1 ∧
  A ⊆ (seed_at thr we (A, found) (i, a)).1.
Proof.
  unfold seed_at. case_decide as Hin; [done|]. unfold grow_at.
  assert (∀ l A1 ms1, {[i]} ∪ A ⊆ A1 →
            {[i]} ∪ A ⊆ (foldl (absorb_at thr a) (A1, ms1) l).1) as Hmono.
  { induction l as [|[j b] l IH]; intros A1 ms1 Hsub; [done|].
    cbn [foldl]. unfold absorb_at at 2. case_decide; [by apply IH|].
    destruct (f_geb _ _); apply IH; set_solver. }
  specialize (Hmono (enumerate we) ({[i]} ∪ A) [i] ltac:(done)).
  destruct (foldl _ _ _) as [A' ms]. simpl in *. set_solver.
Qed.

Lemma seeds_run thr (we : list MemoryRow) l :
  (∀ j b, (j, b) ∈ l → we !! j = Some b) →
  ∀ A found,
    clustered thr we A found →
    foldl (seed_step thr we) (A, rows_at we <$> filter kept found) l =
      ((foldl (seed_at thr we) (A, found) l).1,
       rows_at we <$> filter kept (foldl (seed_at thr we) (A, found) l).2) ∧
    clustered thr we (foldl (seed_at thr we) (A, found) l).1
                     (foldl (seed_at thr we) (A, found) l).2 ∧
    A ⊆ (foldl (seed_at thr we) (A, found) l).1 ∧
    ∀ j b, (j, b) ∈ l → j ∈ (foldl (seed_at thr we) (A, found) l).1.
Proof.
  induction l as [|[i a] l IH]; intros Hl A found Hc; cbn [foldl].
  - split_and!; [done|done|done|]. intros j b Hin. by apply elem_of_nil in Hin.
  - assert (we !! i = Some a) as Hi by (apply Hl; by left).
    rewrite (seed_rows _ _ _ _ _ _ Hi).
    pose proof (seed_at_clustered thr we A found i a Hi Hc) as Hc'.
    pose proof (seed_at_assigns thr we A found i a) as [Hin Hsub].
    destruct (seed_at thr we (A, found) (i, a)) as [A' found'].
    cbn [fst snd] in *.
    destruct (IH ltac:(intros j b ?; apply Hl; by right) A' found' Hc')
      as (Hrun & Hcl & Hmono & Hcov).
    split_and!; [done|done|set_solver|].
    intros j b [[= -> ->]|Hjb]%elem_of_cons; [set_solver|by eapply Hcov].
Qed.

Lemma clustered_empty thr (we : list MemoryRow) : clustered thr we ∅ [].
Proof.
  split_and!; [|apply NoDup_nil_2|done|done].
  intros j. simpl. split; [set_solver|]. intros Hj. by apply elem_of_nil in Hj.
Qed.

Lemma enumerate_from_elem {A} (l : list A) n j x :
  l !! j = Some x → (n + j, x) ∈ enumerate_from n l.
Proof.
  revert n j. induction l as [|y l IH]; intros n [|j] Hj; simpl in *; try done.
  - injection Hj as ->. rewrite Nat.add_0_r. by left.
  - right. replace (n + S j) with (S n + j) by lia. by apply IH.
Qed.

(** The clusters returned are the candidates of three or more members, in
    the order in which they were opened. *)
Lemma cluster_memories_candidates (memories : list MemoryRow) thr :
  _cluster_memories memories thr =
  rows_at (embedded memories) <$>
    filter kept (candidates thr (embedded memories)).
Proof.
  unfold _cluster_memories, candidates. fold (embedded memories).
  destruct (seeds_run thr (embedded memories) (enumerate (embedded memories))
              ltac:(intros j b; apply enumerate_lookup) ∅ []
              (clustered_empty _ _)) as (Hrun & _).
  simpl in Hrun. rewrite Hrun.
  by destruct (embedded memories).
Qed.

(** Every record with an embedding belongs to exactly one candidate. *)
Lemma candidates_partition (we : list MemoryRow) thr :
  NoDup (concat (candidates thr we)) ∧
  (∀ j, j ∈ concat (candidates thr we) ↔ j < length we) ∧
  Forall (seeded thr we) (candidates thr we).
Proof.
  unfold candidates.
  destruct (seeds_run thr we (enumerate we)
              ltac:(intros j b; apply enumerate_lookup) ∅ []
              (clustered_empty _ _)) as (_ & Hcl & _ & Hcov).
  destruct Hcl as (Hall & Hnd & Hseeded & Hbound).
  split_and!; [done| |done].
  intros j. split.
  - intros (ms & Hms & Hj)%client_facts.elem_of_concat.
    rewrite Forall_forall in Hbound. specialize (Hbound ms Hms).
    rewrite Forall_forall in Hbound. by apply Hbound.
  - intros Hlt. destruct (lookup_lt_is_Some_2 we j Hlt) as [b Hb].
    apply Hall. apply (Hcov j b). by apply (enumerate_from_elem we 0).
Qed.

Lemma NoDup_concat_filter {A} (Q : list A → Prop) `{∀ x, Decision (Q x)}
    (ls : list (list A)) :
  NoDup (concat ls) → NoDup (concat (filter Q ls)).
Proof.
  induction ls as [|l ls IH]; [done|]. simpl.
  intros (Hl & Hdis & Hls)%NoDup_app. rewrite filter_cons.
  case_decide; [|by apply IH]. simpl. apply NoDup_app.
  split_and!; [done| |by apply IH].
  intros x Hx (l' & Hl' & Hx')%client_facts.elem_of_concat.
  apply (Hdis x Hx). apply client_facts.elem_of_concat. exists l'.
  split; [|done]. by apply list_elem_of_filter in Hl' as [_ ?].
Qed.

Lemma NoDup_concat_disjoint {A} (ls : list (list A)) l1 l2 x :
  NoDup (concat ls) → l1 ∈ ls → l2 ∈ ls → l1 ≠ l2 → x ∈ l1 → x ∉ l2.
Proof.
  induction ls as [|l ls IH]; intros Hnd H1 H2 Hne Hx1 Hx2.
  - by apply elem_of_nil in H1.
  - simpl in Hnd. apply NoDup_app in Hnd as (Hl & Hdis & Hls).
    apply elem_of_cons in H1 as [->|H1]; apply elem_of_cons in H2 as [->|H2].
    + done.
    + apply (Hdis x Hx1). apply client_facts.elem_of_concat. eauto.
    + apply (Hdis x Hx2). apply client_facts.elem_of_concat. eauto.
    + by apply (IH Hls H1 H2 Hne Hx1).
Qed.

Lemma rows_at_elem (we : list MemoryRow) ms m :
  m ∈ rows_at we ms → m ∈ we.
Proof.
  unfold rows_at. intros (j & _ & Hj)%list_elem_of_omap.
  by eapply list_elem_of_lookup_2.
Qed.

(** C8: the clusters that [_cluster_memories] returns are read off
    pairwise disjoint lists of positions of the records that have an
    embedding: no record is in two clusters, every member has an embedding,
    and every member other than the seed (the first one) has cosine
    similarity >= threshold to the seed itself. *)
Theorem cluster_memories_members (memories : list MemoryRow) (threshold : F) :
  ∃ found : list (list nat),
    _cluster_memories memories threshold =
      rows_at (embedded memories) <$> found ∧
    NoDup (concat found) ∧
    Forall (Forall (λ j, j < length (embedded memories))) found ∧
    Forall (seeded threshold (embedded memories)) found ∧
    ∀ cluster m,
      cluster ∈ _cluster_memories memories threshold → m ∈ cluster →
      m ∈ memories ∧ list_truthy (client.embedding m) = true.
Proof.
  exists (filter kept (candidates threshold (embedded memories))).
  destruct (candidates_partition (embedded memories) threshold)
    as (Hnd & Hcov & Hseeded).
  split_and!.
  - apply cluster_memories_candidates.
  - by apply NoDup_concat_filter.
  - apply Forall_forall. intros ms [_ Hms]%list_elem_of_filter.
    apply Forall_forall. intros j Hj. apply Hcov.
    apply client_facts.elem_of_concat. eauto.
  - apply Forall_forall. intros ms [_ Hms]%list_elem_of_filter.
    rewrite Forall_forall in Hseeded. by apply Hseeded.
  - intros cluster m. rewrite cluster_memories_candidates.
    intros (ms & -> & _)%list_elem_of_fmap Hm%rows_at_elem.
    unfold embedded in Hm. apply list_elem_of_filter in Hm as [? ?]. done.
Qed.

(** C7, as the code has it: [_cluster_memories] keeps exactly the candidate
    clusters of three or more records, so every cluster has at least
    [min_cluster_size] records whenever [min_cluster_size] is at most 3
    (its default); the candidates partition the records that have an
    embedding, so the members of a discarded candidate stay assigned and
    occur in no cluster of the run. *)
Theorem cluster_memories_keeps_three (memories : list MemoryRow)
    (threshold : F) (min_cluster_size : Z) :
  (min_cluster_size ≤ 3)%Z →
  (∀ cluster, cluster ∈ _cluster_memories memories threshold →
     (min_cluster_size ≤ Z.of_nat (length cluster))%Z) ∧
  _cluster_memories memories threshold =
    rows_at (embedded memories) <$>
      filter kept (candidates threshold (embedded memories)) ∧
  NoDup (concat (candidates threshold (embedded memories))) ∧
  (∀ j, j < length (embedded memories) →
        j ∈ concat (candidates threshold (embedded memories))) ∧
  ∀ members j cluster,
    members ∈ candidates threshold (embedded memories) → ¬ kept members →
    j ∈ members →
    cluster ∈ filter kept (candidates threshold (embedded memories)) →
    j ∉ cluster.
Proof.
  intros Hmin.
  destruct (candidates_partition (embedded memories) threshold)
    as (Hnd & Hcov & Hseeded).
  split_and!.
  - intros cluster. rewrite cluster_memories_candidates.
    intros (ms & -> & [Hkept Hms]%list_elem_of_filter)%list_elem_of_fmap.
    rewrite rows_at_length.
    + unfold kept in Hkept. lia.
    + apply Forall_forall. intros j Hj. apply Hcov.
      apply client_facts.elem_of_concat. eauto.
  - apply cluster_memories_candidates.
  - done.
  - intros j Hj. by apply Hcov.
  - intros members j cluster Hms Hsmall Hj [Hkept Hcl]%list_elem_of_filter.
    apply (NoDup_concat_disjoint _ members cluster j Hnd Hms Hcl); [|done].
    intros ->. done.
Qed.

(** *** Summaries are additive *)

Lemma additive_refl dry (r : Remote) : additive dry r r.
Proof.
  split_and!; [done|done|]. intros _. split; [done|].
  exists []. by rewrite app_nil_r.
Qed.

Lemma additive_trans dry (r1 r2 r3 : Remote) :
  additive dry r1 r2 → additive dry r2 r3 → additive dry r1 r3.
Proof.
  intros ((A1 & A2 & A3) & Ak & Ad) ((B1 & B2 & B3) & Bk & Bd).
  split_and!.
  - unfold client.same_but_memories. split_and!; congruence.
  - intros k Hk. by rewrite Bk, Ak.
  - intros Hd. destruct (Ad Hd) as (At & reads1 & Atr & Ar).
    destruct (Bd Hd) as (Bt & reads2 & Btr & Br).
    split; [congruence|]. exists (reads1 ++ reads2).
    split; [by rewrite Btr, Atr, app_assoc|by apply Forall_app].
Qed.

Lemma preserves_ret dry {A} (a : A) : preserves (F := F) dry (ret a).
Proof. intros r. apply additive_refl. Qed.

Lemma preserves_raise dry {A} e : preserves (F := F) (A := A) dry (raise e).
Proof. intros r. apply additive_refl. Qed.

Lemma preserves_bind dry {A B} (m : M Remote A) (k : A → M Remote B) :
  preserves dry m → (∀ a, preserves dry (k a)) → preserves dry (bind m k).
Proof.
  intros Hm Hk r. unfold bind. specialize (Hm r).
  destruct (m r) as [[a|e] r1]; simpl in *; [|done].
  eapply additive_trans; [done|apply Hk].
Qed.

Lemma preserves_try_except dry {A} (m : M Remote A) (h : exn → M Remote A) :
  preserves dry m → (∀ e, preserves dry (h e)) →
  preserves dry (try_except m h).
Proof.
  intros Hm Hh r. unfold try_except. specialize (Hm r).
  destruct (m r) as [[a|e] r1]; simpl in *; [done|].
  eapply additive_trans; [done|apply Hh].
Qed.

Lemma preserves_for_each dry {A X} (xs : list X) (acc : A)
    (body : A → X → M Remote A) :
  (∀ a x, preserves dry (body a x)) → preserves dry (for_each xs acc body).
Proof.
  intros Hb. revert acc. induction xs as [|x xs IH]; intros acc; simpl.
  - apply preserves_ret.
  - apply preserves_bind; [apply Hb|]. intros a. apply IH.
Qed.

Lemma preserves_get_client dry : preserves (F := F) dry client._get_client.
Proof.
  unfold client._get_client.
  destruct is_configured; [apply preserves_ret|apply preserves_raise].
Qed.

Lemma preserves_page dry include_deleted lo hi {A} (f : client.Tables F → A) :
  preserves dry
    (client.request (client.SelectMemoriesPage include_deleted lo hi)
       (λ t, (t, f t))).
Proof.
  intros r. unfold client.request.
  destruct (client.faults r _ _); simpl;
    (split_and!; [done|done|]; intros _; split; [done|];
     eexists [_]; split; [done|]; by apply Forall_singleton).
Qed.

Lemma preserves_get_all_pages dry fuel include_deleted offset acc :
  preserves dry (client.get_all_pages (F := F) fuel include_deleted offset acc).
Proof.
  revert offset acc. induction fuel as [|fuel IH]; intros offset acc; simpl.
  - apply preserves_ret.
  - apply preserves_bind.
    + apply preserves_try_except; [|intros; apply preserves_ret].
      apply preserves_bind; [apply preserves_page|].
      intros [|row data]; [apply preserves_ret|].
      destruct (_ <? _)%nat; apply preserves_ret.
    + intros [done|more]; [apply preserves_ret|apply IH].
Qed.

Lemma preserves_get_all_memories dry include_deleted :
  preserves dry (client.get_all_memories (F := F) include_deleted).
Proof.
  unfold client.get_all_memories.
  apply preserves_bind; [apply preserves_get_client|]. intros _.
  apply preserves_bind; [intros r; apply additive_refl|]. intros r.
  apply preserves_get_all_pages.
Qed.

Lemma summary_key_is_summary_key text : is_summary_key (summary_key text) = true.
Proof.
  unfold is_summary_key, summary_key. simpl.
  by destruct (substring 0 32 (sha256_hexdigest text)).
Qed.

Lemma preserves_write key rq
    (f : gmap string MemoryRow → gmap string MemoryRow) :
  is_summary_key key = true →
  (∀ m k, k ≠ key → f m !! k = m !! k) →
  preserves false
    (client.request rq (λ t, (client.set_memories f t, tt))).
Proof.
  intros Hkey Hf r. unfold client.request.
  destruct (client.faults r _ _); simpl; [by split_and!|].
  split_and!; [done| |done].
  intros k Hk. apply Hf. intros ->. congruence.
Qed.

Lemma preserves_upsert_memory key content tags ty md ca ua emb :
  is_summary_key key = true →
  preserves false (client.upsert_memory (F := F) key content tags ty md ca ua emb).
Proof.
  intros Hkey. unfold client.upsert_memory.
  apply preserves_bind; [apply preserves_get_client|]. intros _.
  apply preserves_try_except; [|intros; apply preserves_ret].
  apply preserves_bind; [|intros; apply preserves_ret].
  apply (preserves_write key); [done|].
  intros m k Hne. unfold client.store_upsert. simpl.
  by rewrite lookup_insert_ne.
Qed.

Lemma preserves_summarize_cluster dry counts (cluster : list MemoryRow) :
  preserves dry (summarize_cluster dry counts cluster).
Proof.
  unfold summarize_cluster. destruct counts as [created covered].
  destruct (_generate_summary cluster) as [text|e]; [|apply preserves_raise].
  destruct dry; [apply preserves_ret|].
  apply preserves_bind.
  { apply preserves_upsert_memory, summary_key_is_summary_key. }
  intros [|]; [|apply preserves_ret].
  apply preserves_bind; [|intros; apply preserves_ret].
  apply preserves_try_except; [|intros; apply preserves_ret].
  apply preserves_bind; [apply preserves_get_client|]. intros _.
  apply (preserves_write (summary_key text));
    [apply summary_key_is_summary_key|].
  intros m k Hne. by rewrite lookup_alter_ne.
Qed.

Lemma preserves_summarize thr mcs dry :
  preserves dry (summarize (F := F) thr mcs dry).
Proof.
  unfold summarize.
  apply preserves_bind; [apply preserves_get_all_memories|]. intros memories.
  destruct (_ <? _)%Z; [apply preserves_ret|].
  destruct (_cluster_memories _ _) as [|c cs]; [apply preserves_ret|].
  apply preserves_bind; [|intros; apply preserves_ret].
  apply preserves_for_each. intros counts cluster.
  apply preserves_summarize_cluster.
Qed.

(** C3: whatever the threshold, the minimum cluster size and the fault
    behaviour of the remote store, a run of [summarize] leaves every row
    whose identifier does not start with [summary_] exactly as it was
    (content, tags and embedding included) and touches no other table; a
    dry run changes no table at all and sends only page reads.  The same
    holds for any sequence of runs, dry or not. *)
Theorem summarize_is_additive (runs : list (F * Z * bool)) (r : Remote) :
  (∀ thr mcs dry, additive dry r (summarize thr mcs dry r).2) ∧
  client.same_but_memories (client.tables r)
    (client.tables (summarize_runs runs r)) ∧
  (∀ k, is_summary_key k = false →
        client.memories (client.tables (summarize_runs runs r)) !! k =
        client.memories (client.tables r) !! k) ∧
  (Forall (λ run, run.2 = true) runs →
   client.tables (summarize_runs runs r) = client.tables r).
Proof.
  split; [intros; apply preserves_summarize|].
  revert r. induction runs as [|[[thr mcs] dry] runs IH]; intros r.
  - done.
  - simpl. destruct (IH (summarize thr mcs dry r).2) as ((A1 & A2 & A3) & Ak & Ad).
    destruct (preserves_summarize thr mcs dry r) as ((B1 & B2 & B3) & Bk & Bd).
    split_and!.
    + unfold client.same_but_memories. split_and!; congruence.
    + intros k Hk. by rewrite Ak, Bk.
    + intros [Hdry Hall]%Forall_cons. simpl in Hdry.
      rewrite (Ad Hall). by destruct (Bd Hdry).
Qed.

End facts.
End summarize_facts.

(** ** The scenarios of the specification, run on the model *)
Module scenario_facts.
Import scenario.

Lemma refusing_malformed_rejects_exactly t :
  client.rejects_exactly malformed (store t refusing_malformed).
Proof.
  split; intros tr x; simpl.
  - by destruct (malformed x).
  - by destruct (existsb malformed x).
Qed.

(** C5 at a batch of 60 with the 37th row malformed: 59 successes, 1
    failure. *)
Lemma upsert_memories_batch_chunked_witness :
  @is_configured laptop = true ∧
  ∃ r', client.upsert_memories_batch (P := laptop) sixty
          (store no_tables refusing_malformed) = (Ok (59%nat, 1%nat), r').
Proof.
  split; [reflexivity|].
  destruct (client_facts.upsert_memories_batch_chunked (P := laptop)
              sixty (store no_tables refusing_malformed) eq_refl)
    as (_ & _ & _ & _ & s & f & r' & oks & Hrun & _ & _ & _ & _ & Hbad).
  destruct (Hbad malformed (refusing_malformed_rejects_exactly no_tables))
    as [Hs Hf].
  exists r'. rewrite Hrun, Hs, Hf. reflexivity.
Defined.

(** Two records changed at t = 10 and t = 20, watermark 0: both are
    propagated, the new watermark is 20 and [new_memories] is 2. *)
Example two_records_cycle :
  let run := sync.sync_once (FA := float64.ops) (P := laptop)
               (Some two_records) (store no_tables reliable) in
  (sync.new_memories <$> match run.1 with Ok st => Some st | _ => None end)
    = Some 2%nat ∧
  client.watermark (P := laptop) run.2 = Some 20.
Proof. vm_compute. done. Qed.

(** C4 at the two records: the hypotheses hold and the watermark sent is
    the larger of the two change-timestamps. *)
Lemma sync_once_advances_watermark_witness :
  (@is_configured laptop = true ∧
   sync._get_local_memories (P := laptop) two_records
     (sync.watermark_read (P := laptop) (store no_tables reliable))
   = Ok (sync.to_memory (P := laptop) <$>
           [local_row 1 "aaa" "first" 10 None;
            local_row 2 "bbb" "second" 20 None]) ∧
   0 ≤ sync.watermark_read (P := laptop) (store no_tables reliable)) ∧
  ∃ stats r' row,
    sync.sync_once (FA := float64.ops) (P := laptop) (Some two_records)
      (store no_tables reliable) = (Ok stats, r') ∧
    last (client.trace r') = Some (client.UpsertSyncState row) ∧
    client.status row = "idle"%string ∧
    (reliable (removelast (client.trace r')) (client.UpsertSyncState row)
       = None →
     client.watermark (P := laptop) r' = client.last_sync_updated_at row) ∧
    ∃ w, client.last_sync_updated_at row = Some w ∧
         (∃ mem, mem ∈ sync.live (sync.to_memory (P := laptop) <$>
                    [local_row 1 "aaa" "first" 10 None;
                     local_row 2 "bbb" "second" 20 None]) ∧
                 w = sync.change_timestamp mem) ∧
         ∀ mem, mem ∈ sync.live (sync.to_memory (P := laptop) <$>
                    [local_row 1 "aaa" "first" 10 None;
                     local_row 2 "bbb" "second" 20 None]) →
                sync.change_timestamp mem ≤ w.
Proof.
  assert (sync._get_local_memories (P := laptop) two_records
            (sync.watermark_read (P := laptop) (store no_tables reliable))
          = Ok (sync.to_memory (P := laptop) <$>
                  [local_row 1 "aaa" "first" 10 None;
                   local_row 2 "bbb" "second" 20 None])) as Hq
    by (vm_compute; reflexivity).
  assert (0 ≤ sync.watermark_read (P := laptop) (store no_tables reliable))
    as Hpos by (vm_compute; discriminate).
  split; [split_and!; [reflexivity|exact Hq|exact Hpos]|].
  exact (sync_facts.sync_once_advances_watermark (FA := float64.ops)
           (P := laptop) two_records (store no_tables reliable) _
           eq_refl Hq ltac:(discriminate) Hpos).
Defined.

(** C1, at the failing input: the watermark read at the start of the cycle
    is 100, the local table cannot be read, and the [except] clause stores
    watermark 0 (and [memories_synced = 0]), which is less than the
    watermark read. *)
Theorem sync_once_error_moves_watermark_back :
  sync.watermark_read (P := laptop) (store synced_to_100 reliable) = 100 ∧
  client.watermark (P := laptop)
    (sync.sync_once (FA := float64.ops) (P := laptop) (Some unreadable)
       (store synced_to_100 reliable)).2 = Some 0 ∧
  (client.sync_state
     (client.tables
        (sync.sync_once (FA := float64.ops) (P := laptop) (Some unreadable)
           (store synced_to_100 reliable)).2) !! "laptop")
    ≫= client.memories_synced = Some 0.
Proof. vm_compute. done. Qed.

(** One record tombstoned locally and older than the watermark: the cycle
    has no changed record, yet it writes one deletion-log entry, flags the
    remote row and reports [deleted_marked = 1]. *)
Example tombstone_cycle :
  let run := sync.sync_once (FA := float64.ops) (P := laptop)
               (Some one_tombstone) (store uploaded_before reliable) in
  (sync.deleted_marked <$> match run.1 with Ok st => Some st | _ => None end)
    = Some 1%nat ∧
  client.original_content <$> client.deletion_log (client.tables run.2)
    = ["forgotten"%string] ∧
  client.local_deleted <$> (client.memories (client.tables run.2) !! "ccc")
    = Some true.
Proof. vm_compute. done. Qed.

(** C6 at the tombstone that lies behind the watermark. *)
Lemma sync_once_rescans_tombstones_witness :
  (@is_configured laptop = true ∧
   sync.memories one_tombstone =
     sync.Rows [local_row 1 "ccc" "forgotten" 5 (Some 6)] ∧
   sync._get_local_memories (P := laptop) one_tombstone
     (sync.watermark_read (P := laptop) (store uploaded_before reliable))
   = Ok []) ∧
  ∃ stats (r' r1 : client.Remote float) marks r2 more,
    sync.sync_once (FA := float64.ops) (P := laptop) (Some one_tombstone)
      (store uploaded_before reliable) = (Ok stats, r') ∧
    client.same_but_sync_state uploaded_before (client.tables r1) ∧
    client.faults r1 = reliable ∧
    sync.mark_each (P := laptop)
      (sync.tombstoned [local_row 1 "ccc" "forgotten" 5 (Some 6)]) r1
      = (Ok marks, r2) ∧
    length marks =
      length (sync.tombstoned [local_row 1 "ccc" "forgotten" 5 (Some 6)]) ∧
    client.same_but_sync_state (client.tables r2) (client.tables r') ∧
    sync.deleted_marked stats = sync.successes marks ∧
    sync.new_memories stats = 0%nat ∧
    client.trace r' = [] ++ more ∧
    ∀ h, h ∈ sync.tombstoned [local_row 1 "ccc" "forgotten" 5 (Some 6)] →
         client.SelectMemory h ∈ more.
Proof.
  assert (sync._get_local_memories (P := laptop) one_tombstone
            (sync.watermark_read (P := laptop) (store uploaded_before reliable))
          = Ok []) as Hq by (vm_compute; reflexivity).
  split; [split_and!; [reflexivity|reflexivity|exact Hq]|].
  exact (sync_facts.sync_once_rescans_tombstones (FA := float64.ops)
           (P := laptop) one_tombstone _ (store uploaded_before reliable)
           eq_refl eq_refl Hq).
Defined.

(** Records that the remote store already holds are counted as new again:
    a first cycle uploads two records, the watermark is then lost, and the
    second cycle reports [new_memories = 2] and [updated_memories = 0]. *)
Example resync_counts_as_new :
  let first := sync.sync_once (FA := float64.ops) (P := laptop)
                 (Some two_records) (store no_tables reliable) in
  let again := sync.sync_once (FA := float64.ops) (P := laptop)
                 (Some two_records)
                 (store (client.set_sync_state (λ _, ∅) (client.tables first.2))
                    reliable) in
  size (client.memories (client.tables first.2)) = 2%nat ∧
  match again.1 with
  | Ok st => sync.new_memories st = 2%nat ∧ sync.updated_memories st = 0%nat
  | Raise _ => False
  end.
Proof. vm_compute. done. Qed.

(** Marking a stored record logs its content and flags the row; upserting
    the same hash afterwards clears the flag and keeps the log entry. *)
Example mark_then_upsert :
  let marked := (client.mark_locally_deleted (P := laptop) "ccc"
                   "local_soft_delete" (store uploaded_before reliable)).2 in
  let restored := (client.upsert_memory (P := laptop) "ccc" "forgotten"
                     (Some "project,notes") (Some "note") None (Some 5)
                     (Some 7) None marked).2 in
  client.local_deleted <$> (client.memories (client.tables marked) !! "ccc")
    = Some true ∧
  client.original_content <$> client.deletion_log (client.tables marked)
    = ["forgotten"%string] ∧
  client.local_deleted <$> (client.memories (client.tables restored) !! "ccc")
    = Some false ∧
  client.deletion_log (client.tables restored)
    = client.deletion_log (client.tables marked).
Proof. vm_compute. split_and!; reflexivity. Qed.

(** C9 at a tombstoned record that is upserted again, and at the batch of
    sixty records of which the store refuses the 37th. *)
Lemma upsert_clears_local_deleted_witness :
  @is_configured laptop = true ∧
  (∃ data ok r',
     client.upsert_memory (P := laptop) "ccc" "forgotten"
       (Some "project,notes") (Some "note") None (Some 5) (Some 7) None
       cases.tombstoned = (Ok ok, r') ∧
     client.p_content_hash data = "ccc"%string ∧ client.unflagged data ∧
     client.trace r' =
       client.trace cases.tombstoned ++ [client.UpsertMemory data] ∧
     (ok = true ↔
      client.faults cases.tombstoned (client.trace cases.tombstoned)
        (client.UpsertMemory data) = None) ∧
     client.deletion_log (client.tables r') =
       client.deletion_log (client.tables cases.tombstoned) ∧
     if ok then
       client.memories (client.tables r') =
         client.store_upsert data
           (client.memories (client.tables cases.tombstoned)) ∧
       client.cleared (client.memories (client.tables r')) "ccc"
     else client.tables r' = client.tables cases.tombstoned) ∧
  (∃ success failed r' sent,
     client.upsert_memories_batch (P := laptop) sixty
       (store no_tables refusing_malformed) = (Ok (success, failed), r') ∧
     client.trace r' = [] ++ sent ∧
     Forall (λ rq, Forall client.unflagged (client.carried rq)) sent ∧
     (∀ mem, mem ∈ sixty →
        ∃ rq, rq ∈ sent ∧
              client.batch_row (P := laptop) mem ∈ client.carried rq) ∧
     success = client.rows_accepted refusing_malformed [] sent ∧
     (success + failed = length sixty)%nat ∧
     (∀ i rq p, sent !! i = Some rq →
        refusing_malformed ([] ++ take i sent) rq = None →
        p ∈ client.carried rq →
        client.cleared (client.memories (client.tables r'))
          (client.p_content_hash p)) ∧
     client.deletion_log (client.tables r') = [] ∧
     client.only_cleared ∅ (client.memories (client.tables r')) ∧
     (∀ h, client.cleared (∅ : gmap string (client.MemoryRow float)) h →
           client.cleared (client.memories (client.tables r')) h) ∧
     (failed = 0%nat → ∀ mem, mem ∈ sixty →
        client.cleared (client.memories (client.tables r'))
          (client.m_content_hash mem))).
Proof.
  split; [reflexivity|].
  exact (conj
    (proj1 (client_facts.upsert_clears_local_deleted (P := laptop) eq_refl)
       "ccc"%string "forgotten"%string (Some "project,notes"%string)
       (Some "note"%string) None (Some 5) (Some 7) None cases.tombstoned)
    (proj2 (client_facts.upsert_clears_local_deleted (P := laptop) eq_refl)
       sixty (store no_tables refusing_malformed))).
Defined.

(** When the log entry cannot be written the row is not flagged. *)
Example mark_without_log_fails :
  (client.mark_locally_deleted (P := laptop) "ccc" "local_soft_delete"
     (store uploaded_before log_unavailable)).1 = Ok false ∧
  client.local_deleted <$>
    (client.memories
       (client.tables
          (client.mark_locally_deleted (P := laptop) "ccc" "local_soft_delete"
             (store uploaded_before log_unavailable)).2) !! "ccc")
    = Some false.
Proof. vm_compute. split; reflexivity. Qed.

(** C7 as stated fails: with [min_cluster_size = 5] a cluster of three
    records is still found and summarised; and the members of a discarded
    candidate stay assigned:
    the second record, marked by the first seed, never seeds the cluster it
    would form with the third and fourth. *)
Lemma min_cluster_size_is_ignored :
  (summarize.summarize (FA := float64.ops) (P := laptop) 0.75%float 5 false
     (store five_memories reliable)).1
  = Ok {| summarize.total_memories := 5; summarize.clusters_found := 1;
          summarize.summaries_created := 1; summarize.memories_covered := 3;
          summarize.dry_run := false |} ∧
  1%nat ∈ (summarize.seed_step (FA := float64.ops) 0.75%float four_angles
             (∅, []) (0%nat, east)).1 ∧
  (summarize.seed_step (FA := float64.ops) 0.75%float four_angles
     (∅, []) (0%nat, east)).2 = [] ∧
  summarize.similar (FA := float64.ops) 0.75%float north_east north ∧
  summarize.similar (FA := float64.ops) 0.75%float north_east north_again ∧
  summarize._cluster_memories (FA := float64.ops) four_angles 0.75%float = [].
Proof. vm_compute. split_and!; reflexivity. Qed.

(** C7, as the code has it, at the four records and the default minimum. *)
Lemma cluster_memories_keeps_three_witness :
  (3 ≤ 3)%Z ∧
  (∀ cluster,
     cluster ∈ summarize._cluster_memories (FA := float64.ops) four_angles
                 0.75%float →
     (3 ≤ Z.of_nat (length cluster))%Z) ∧
  summarize._cluster_memories (FA := float64.ops) four_angles 0.75%float =
    summarize.rows_at (summarize.embedded four_angles) <$>
      filter summarize.kept
        (summarize.candidates (FA := float64.ops) 0.75%float
           (summarize.embedded four_angles)) ∧
  NoDup (concat (summarize.candidates (FA := float64.ops) 0.75%float
                   (summarize.embedded four_angles))) ∧
  (∀ j, (j < length (summarize.embedded four_angles))%nat →
        j ∈ concat (summarize.candidates (FA := float64.ops) 0.75%float
                      (summarize.embedded four_angles))) ∧
  ∀ members j cluster,
    members ∈ summarize.candidates (FA := float64.ops) 0.75%float
                (summarize.embedded four_angles) →
    ¬ summarize.kept members →
    j ∈ members →
    cluster ∈ filter summarize.kept
                (summarize.candidates (FA := float64.ops) 0.75%float
                   (summarize.embedded four_angles)) →
    j ∉ cluster.
Proof.
  split; [lia|].
  exact (summarize_facts.cluster_memories_keeps_three (FA := float64.ops)
           four_angles 0.75%float 3 ltac:(lia)).
Defined.

(** The candidates of the four records: two pairs, both discarded. *)
Example four_angles_candidates :
  summarize.candidates (FA := float64.ops) 0.75%float four_angles
  = [[0; 1]; [2; 3]]%nat.
Proof. vm_compute. reflexivity. Qed.

(** A dry run over the five records reports the cluster and sends one page
    read; a real run adds one row under a [summary_] identifier and leaves
    the five records as they were. *)
Example summarize_five_memories :
  client.trace (summarize.summarize (FA := float64.ops) (P := laptop)
                  0.75%float 3 true (store five_memories reliable)).2
  = [client.SelectMemoriesPage false 0 999] ∧
  size (client.memories (client.tables
          (summarize.summarize (FA := float64.ops) (P := laptop)
             0.75%float 3 false (store five_memories reliable)).2)) = 6%nat ∧
  client.memories (client.tables
     (summarize.summarize (FA := float64.ops) (P := laptop)
        0.75%float 3 false (store five_memories reliable)).2) !! "h1"
  = client.memories five_memories !! "h1".
Proof. vm_compute. split_and!; reflexivity. Qed.

End scenario_facts.

(** ** Facts about every gateway call and the full scan *)
Module gateway_facts.
Import client gateway.
Section facts.
Context {F : Type} {FA : PyFloat F} {P : Platform}.
Local Open Scope nat_scope.

Local Abbreviation Remote := (client.Remote F).

(** Without credentials the sync state can be neither read nor written. *)
Lemma sync_state_requires_configuration (r : Remote) :
  is_configured = false →
  get_sync_state r = (Raise not_configured, r) ∧
  ∀ w n status, update_sync_state w n status r = (Raise not_configured, r).
Proof.
  intros Hc. unfold get_sync_state, update_sync_state, _get_client,
    not_configured.
  by rewrite Hc.
Qed.

(** X1: on a device without credentials every gateway function raises the
    [RuntimeError] of [_get_client] before it sends anything: the remote
    store is left as it was, and no function turns the failure into a
    return value. *)
Theorem gateway_requires_configuration (r : Remote) :
  is_configured = false →
  (∀ h c tg ty md ca ua emb,
     upsert_memory h c tg ty md ca ua emb r = (Raise not_configured, r)) ∧
  (∀ mems, upsert_memories_batch mems r = (Raise not_configured, r)) ∧
  (∀ h reason, mark_locally_deleted h reason r = (Raise not_configured, r)) ∧
  (∀ include_deleted,
     get_all_memories include_deleted r = (Raise not_configured, r)) ∧
  (∀ src tgt sim rel md,
     upsert_graph_edge src tgt sim rel md r = (Raise not_configured, r)) ∧
  get_sync_state r = (Raise not_configured, r) ∧
  (∀ w n status, update_sync_state w n status r = (Raise not_configured, r)).
Proof.
  intros Hc.
  unfold upsert_memory, upsert_memories_batch, mark_locally_deleted,
    get_all_memories, upsert_graph_edge, get_sync_state, update_sync_state,
    _get_client, not_configured.
  rewrite Hc. split_and!; intros; reflexivity.
Qed.

Lemma get_all_pages_scan include_deleted fuel :
  ∀ k acc (r : Remote),
    acc = take (k * page_size) (rows_by_created_at include_deleted (tables r)) →
    k * page_size ≤ length (rows_by_created_at include_deleted (tables r)) →
    length (rows_by_created_at include_deleted (tables r)) - k * page_size
      < fuel * page_size →
    ∃ n reads r',
      get_all_pages fuel include_deleted (k * page_size) acc r =
        (Ok (take (n * page_size)
               (rows_by_created_at include_deleted (tables r))), r') ∧
      tables r' = tables r ∧ faults r' = faults r ∧
      trace r' = trace r ++ reads ∧
      Forall (is_page_read include_deleted) reads ∧
      ((∀ tr lo hi,
          faults r tr (SelectMemoriesPage include_deleted lo hi) = None) →
       take (n * page_size) (rows_by_created_at include_deleted (tables r))
         = rows_by_created_at include_deleted (tables r) ∧
       k + length reads =
         length (rows_by_created_at include_deleted (tables r)) / page_size + 1).
Proof.
  induction fuel as [|fuel IH]; intros k acc r Hacc Hk Hfuel; [lia|].
  rewrite client_facts.get_all_pages_S. cbv zeta.
  set (rows := rows_by_created_at include_deleted (tables r)) in *.
  set (rq := SelectMemoriesPage include_deleted (k * page_size)
               (k * page_size + page_size - 1)).
  assert (is_page_read include_deleted rq) as Hrq
    by (simpl; unfold page_size; split; [done|lia]).
  destruct (faults r (trace r) rq) as [msg|] eqn:Hf.
  { exists k, [rq], (sent rq r). subst acc.
    split_and!; try done; [by apply Forall_singleton|].
    intros Hok. unfold rq in Hf. by rewrite Hok in Hf. }
  assert (length (slice rows (k * page_size) page_size)
          = min page_size (length rows - k * page_size)) as Hlen
    by (unfold slice; by rewrite length_take, length_drop).
  assert (acc ++ slice rows (k * page_size) page_size
          = take (S k * page_size) rows) as Happ.
  { subst acc. unfold slice. rewrite take_take_drop. f_equal. lia. }
  destruct (slice rows (k * page_size) page_size) as [|row data] eqn:Hdata.
  { exists k, [rq], (sent rq r). subst acc.
    split_and!; try done; [by apply Forall_singleton|].
    intros _. cbn [length] in Hlen. unfold page_size in *.
    assert (length rows = k * 1000) as Hl by lia.
    split; [apply take_ge; lia|].
    rewrite Hl, Nat.div_mul by done. simpl. lia. }
  destruct (Nat.ltb_spec (length (row :: data)) page_size) as [Hshort|Hfull].
  { exists (S k), [rq], (sent rq r). rewrite Happ.
    split_and!; try done; [by apply Forall_singleton|].
    intros _. unfold page_size in *.
    split; [apply take_ge; lia|].
    assert (length rows / 1000 = k) as ->; [|simpl; lia].
    symmetry. apply (Nat.div_unique _ _ _ (length rows - k * 1000)); lia. }
  destruct (IH (S k) (acc ++ row :: data) (sent rq r))
    as (n & reads & r' & Hrun & Ht & Hfl & Htr & Hreads & Hall).
  { simpl tables. fold rows. exact Happ. }
  { simpl tables. fold rows. unfold page_size in *. lia. }
  { simpl tables. fold rows. unfold page_size in *. lia. }
  exists n, (rq :: reads), r'.
  replace (k * page_size + page_size) with (S k * page_size) by lia.
  simpl tables in *. fold rows in Hrun, Hall. rewrite Hrun.
  split_and!; try done.
  - rewrite Htr. simpl. by rewrite <- app_assoc.
  - by apply Forall_cons.
  - intros Hok. destruct (Hall Hok) as [H1 H2]. split; [done|].
    cbn [length]. lia.
Qed.

Lemma get_all_memories_scan (include_deleted : bool) (r : Remote) :
  is_configured = true →
  ∃ n reads r',
    get_all_memories include_deleted r =
      (Ok (take (n * page_size)
             (rows_by_created_at include_deleted (tables r))), r') ∧
    tables r' = tables r ∧ faults r' = faults r ∧
    trace r' = trace r ++ reads ∧
    Forall (is_page_read include_deleted) reads ∧
    ((∀ tr lo hi,
        faults r tr (SelectMemoriesPage include_deleted lo hi) = None) →
     take (n * page_size) (rows_by_created_at include_deleted (tables r))
       = rows_by_created_at include_deleted (tables r) ∧
     length reads =
       length (rows_by_created_at include_deleted (tables r)) / page_size + 1).
Proof.
  intros Hc. unfold get_all_memories, _get_client. rewrite Hc.
  unfold bind at 1, ret at 1, bind at 1, get.
  destruct (get_all_pages_scan include_deleted (S (size (memories (tables r))))
              0 [] r) as (n & reads & r' & Hrun & Ht & Hfl & Htr & Hreads & Hall).
  - done.
  - lia.
  - pose proof (client_facts.rows_by_created_at_length include_deleted (tables r)).
    unfold page_size. lia.
  - exists n, reads, r'. change (0 * page_size) with 0 in Hrun.
    rewrite Hrun. split_and!; try done.
Qed.

Lemma rows_by_created_at_elem include_deleted (t : Tables F) row :
  row ∈ rows_by_created_at include_deleted t ↔
  (∃ k, memories t !! k = Some row) ∧
  (include_deleted = true ∨ local_deleted row = false).
Proof.
  unfold rows_by_created_at. rewrite merge_sort_Permutation.
  rewrite list_elem_of_filter, list_elem_of_fmap. split.
  - intros [Hd ([k row'] & -> & Hin%elem_of_map_to_list)]. eauto.
  - intros [[k Hk] Hd]. split; [done|]. exists (k, row).
    split; [done|]. by apply elem_of_map_to_list.
Qed.

(** X2: a full scan never raises on a configured device and never changes
    a table: it sends page reads only, each for [page_size] = 1000 rows, and
    what it returns is a prefix of the rows in scan order that ends on a
    page boundary or is the whole table -- also when the remote store
    refuses a page, in which case the rows of the later pages are missing
    from the result without any error. *)
Theorem get_all_memories_returns_prefix (include_deleted : bool) (r : Remote) :
  is_configured = true →
  ∃ n reads r',
    get_all_memories include_deleted r =
      (Ok (take (n * page_size)
             (rows_by_created_at include_deleted (tables r))), r') ∧
    page_size = 1000 ∧
    tables r' = tables r ∧
    trace r' = trace r ++ reads ∧
    Forall (is_page_read include_deleted) reads.
Proof.
  intros Hc.
  destruct (get_all_memories_scan include_deleted r Hc)
    as (n & reads & r' & Hrun & Ht & _ & Htr & Hreads & _).
  by exists n, reads, r'.
Qed.

(** X3: when no page read is refused, the scan returns every stored row
    (every row not flagged as deleted when [include_deleted] is false), each
    once, after one request per full page plus one. *)
Theorem get_all_memories_complete (include_deleted : bool) (r : Remote) :
  is_configured = true →
  (∀ tr lo hi, faults r tr (SelectMemoriesPage include_deleted lo hi) = None) →
  ∃ result reads r',
    get_all_memories include_deleted r = (Ok result, r') ∧
    result ≡ₚ
      filter (λ row, include_deleted = true ∨ local_deleted row = false)
             (snd <$> map_to_list (memories (tables r))) ∧
    (∀ row, row ∈ result ↔
       (∃ k, memories (tables r) !! k = Some row) ∧
       (include_deleted = true ∨ local_deleted row = false)) ∧
    trace r' = trace r ++ reads ∧
    length reads = length result / page_size + 1.
Proof.
  intros Hc Hok.
  destruct (get_all_memories_scan include_deleted r Hc)
    as (n & reads & r' & Hrun & _ & _ & Htr & _ & Hall).
  destruct (Hall Hok) as [Hfull Hcount]. rewrite Hfull in Hrun.
  exists (rows_by_created_at include_deleted (tables r)), reads, r'.
  split_and!; try done.
  - unfold rows_by_created_at. apply merge_sort_Permutation.
  - intros row. apply rows_by_created_at_elem.
Qed.

End facts.
End gateway_facts.

(** ** Further facts about the sync cycle *)
Module cycle_facts.
Import sync cycles gateway.
Section facts.
Context {F : Type} {FA : PyFloat F} {P : Platform}.

Local Abbreviation Remote := (client.Remote F).

(** *** Views of the stats that a cycle leaves alone *)

Lemma stable_ret {A X} (view : Stats → X) (a : A) :
  stable (F := F) view (ret a).
Proof. done. Qed.

Lemma stable_raise {A X} (view : Stats → X) e :
  stable (F := F) (A := A) view (raise e).
Proof. done. Qed.

Lemma stable_bind {A B X} (view : Stats → X) (m : Cycle F A)
    (k : A → Cycle F B) :
  stable view m → (∀ a, stable view (k a)) → stable view (bind m k).
Proof.
  intros Hm Hk st r. unfold bind. specialize (Hm st r).
  destruct (m (st, r)) as [[a|e] [st' r']]; simpl in *; [|done].
  by rewrite Hk.
Qed.

Lemma stable_try_except {A X} (view : Stats → X) (m : Cycle F A)
    (h : exn → Cycle F A) :
  stable view m → (∀ e, stable view (h e)) → stable view (try_except m h).
Proof.
  intros Hm Hh st r. unfold try_except. specialize (Hm st r).
  destruct (m (st, r)) as [[a|e] [st' r']]; simpl in *; [done|].
  by rewrite Hh.
Qed.

Lemma stable_for_each {A X Y} (view : Stats → Y) (xs : list X) (acc : A)
    (body : A → X → Cycle F A) :
  (∀ a x, stable view (body a x)) → stable view (for_each xs acc body).
Proof.
  intros Hb. revert acc. induction xs as [|x xs IH]; intros acc; simpl.
  - apply stable_ret.
  - apply stable_bind; [apply Hb|]. intros a. apply IH.
Qed.

Lemma stable_remote {A X} (view : Stats → X) (m : M Remote A) :
  stable view (remote m).
Proof. intros st r. by rewrite sync_facts.remote_run. Qed.

Lemma stable_update_stats {X} (view : Stats → X) (f : Stats → Stats) :
  (∀ st, view (f st) = view st) → stable (F := F) view (update_stats f).
Proof. intros Hf st r. simpl. apply Hf. Qed.

Lemma stable_lift_result {A X} (view : Stats → X) (res : Result A) :
  stable (F := F) view (lift_result res).
Proof. by destruct res. Qed.

Lemma stable_propagate_deletion {X} (view : Stats → X) h :
  (∀ st, view (incr_deleted_marked st) = view st) →
  stable (F := F) view (propagate_deletion h).
Proof.
  intros Hv. apply stable_bind; [apply stable_remote|]. intros [|].
  - by apply stable_update_stats.
  - apply stable_ret.
Qed.

Lemma stable_cycle {X} (view : Stats → X) (conn : Connection F) :
  (∀ st, view (incr_deleted_marked st) = view st) →
  (∀ st, view (incr_graph_edges st) = view st) →
  (∀ s f st, view (set_upserted s f st) = view st) →
  (∀ ms st, view (set_duration ms st) = view st) →
  stable view (cycle conn).
Proof.
  intros Hd Hg Hu Ht. unfold cycle.
  apply stable_bind; [apply stable_remote|]. intros sync_state.
  apply stable_bind; [apply stable_remote|]. intros _.
  apply stable_bind; [apply stable_lift_result|]. intros [|mem mems].
  - apply stable_bind.
    { apply stable_for_each. intros _ h. by apply stable_propagate_deletion. }
    intros _. apply stable_bind; [apply stable_remote|]. intros _.
    apply stable_bind; [by apply stable_update_stats|]. intros _.
    apply stable_ret.
  - apply stable_bind.
    { apply stable_for_each. intros [batch last] m. unfold prepare_row.
      destruct (deleted_at m).
      - apply stable_bind; [by apply stable_propagate_deletion|].
        intros _. apply stable_ret.
      - apply stable_ret. }
    intros [batch last]. apply stable_bind.
    { destruct batch; [apply stable_ret|].
      apply stable_bind; [apply stable_remote|]. intros counts.
      by apply stable_update_stats. }
    intros _. apply stable_bind.
    { apply stable_try_except; [|intros; apply stable_ret].
      apply stable_bind; [apply stable_lift_result|]. intros rows.
      apply stable_for_each. intros _ row. unfold sync_edge.
      apply stable_bind; [apply stable_remote|]. intros [|].
      - by apply stable_update_stats.
      - apply stable_ret. }
    intros _. apply stable_bind; [done|]. intros st.
    apply stable_bind; [apply stable_remote|]. intros _. apply stable_ret.
Qed.

(** *** Without credentials *)

(** X5: on a device without credentials a cycle over an existing local
    database sends nothing and returns stats with one error and the text of
    the configuration error; the attempt of the [except] clause to record
    the failure remotely fails for the same reason and is swallowed. *)
Theorem sync_once_without_configuration (conn : Connection F) (r : Remote) :
  is_configured = false →
  sync_once (Some conn) r =
    (Ok {| new_memories := 0; updated_memories := 0; deleted_marked := 0;
           graph_edges := 0; errors := 1; duration_ms := elapsed_ms;
           error_message := Some (exn_str not_configured) |}, r).
Proof.
  intros Hc.
  destruct (gateway_facts.sync_state_requires_configuration r Hc)
    as [Hget Hupd].
  assert (cycle conn (stats0, r) = (Raise not_configured, (stats0, r))) as Hcy.
  { unfold cycle. apply sync_facts.bind_raise.
    by rewrite sync_facts.remote_run, Hget. }
  unfold sync_once. rewrite (sync_facts.try_except_raise _ _ _ _ _ Hcy).
  rewrite sync_facts.on_cycle_error_eq, Hupd. done.
Qed.

(** *** Which failures a cycle reports *)

(** Once the database is open, a cycle on a configured device returns
    stats, and they carry an [error_message] only when the local [memories]
    table cannot be read. *)
Lemma opened_cycle_reports_local_failures (conn : Connection F)
    (r : Remote) :
  is_configured = true →
  ∃ stats r',
    sync_once (Some conn) r = (Ok stats, r') ∧
    match memories conn with
    | Rows _ => error_message stats = None
    | Broken msg =>
        error_message stats = Some msg ∧ errors stats = 1%nat ∧
        new_memories stats = 0%nat ∧ deleted_marked stats = 0%nat
    end.
Proof.
  intros Hc.
  destruct (memories conn) as [rows|msg] eqn:Hmem.
  - assert (∃ mems, _get_local_memories conn (watermark_read r) = Ok mems)
      as [mems Hmems]
      by (unfold _get_local_memories; rewrite Hmem; by eexists).
    pose proof (stable_cycle error_message conn ltac:(done) ltac:(done)
                  ltac:(done) ltac:(done) stats0 r) as Hst.
    assert (∃ returned st r', cycle conn (stats0, r) = (Ok returned, (st, r')))
      as (returned & st & r' & Hcy).
    { destruct mems as [|mem mems].
      - destruct (sync_facts.cycle_idle_run conn r Hc Hmems)
          as (? & ? & ? & ? & _ & _ & _ & _ & _ & _ & _ & _ & Hcy).
        by eexists _, _, _.
      - destruct (sync_facts.cycle_changed_run conn r (mem :: mems) Hc Hmems
                    ltac:(done)) as (? & ? & ? & _ & _ & _ & Hcy).
        by eexists _, _, _. }
    rewrite Hcy in Hst. simpl in Hst.
    rewrite (sync_facts.sync_once_of_cycle _ _ _ _ _ Hcy).
    eexists _, _. split; [done|]. by destruct returned.
  - destruct (sync_facts.get_sync_state_run r Hc) as (sync_state & Hget).
    set (last := or_zero (client.last_sync_updated_at sync_state)).
    destruct (sync_facts.update_sync_state_ok last
                (client.memories_synced sync_state) "syncing"
                (client.sent (client.SelectSyncState DEVICE_NAME) r) Hc)
      as (b2 & r2 & Hupd & _).
    assert (cycle conn (stats0, r)
            = (Raise (Exn SqliteError msg), (stats0, r2))) as Hcy.
    { unfold cycle.
      rewrite (sync_facts.bind_ok _ _ _ _ _
                 (sync_facts.remote_ok _ _ _ _ _ Hget)). fold last.
      rewrite (sync_facts.bind_ok _ _ _ _ _
                 (sync_facts.remote_ok _ _ _ _ _ Hupd)).
      unfold _get_local_memories. rewrite Hmem. done. }
    unfold sync_once. rewrite (sync_facts.try_except_raise _ _ _ _ _ Hcy).
    rewrite sync_facts.on_cycle_error_eq. by eexists _, _.
Qed.

(** *** The persisted sync state *)

(** X4: what [update_sync_state] writes is what the next [get_sync_state]
    of the device reads. *)
Theorem sync_state_round_trip (w : Z) (n : option Z) (status : string)
    (r : Remote) :
  is_configured = true →
  keeps_sync_state r →
  ∃ r1 row r2,
    client.update_sync_state w n status r = (Ok true, r1) ∧
    client.get_sync_state r1 = (Ok row, r2) ∧
    client.s_device_name row = Some DEVICE_NAME ∧
    client.last_sync_updated_at row = Some w ∧
    client.memories_synced row = n ∧
    client.status row = status ∧
    client.same_but_sync_state (client.tables r) (client.tables r2).
Proof.
  intros Hc [Hsel Hups].
  rewrite sync_facts.update_sync_state_run by done. rewrite Hups.
  eexists _, _, _. split; [reflexivity|].
  unfold client.get_sync_state, client._get_client. rewrite Hc.
  unfold bind at 1, ret at 1, try_except, bind, client.request.
  cbn [client.synced client.faults client.trace client.tables].
  rewrite Hsel. cbn [client.set_sync_state client.sync_state].
  rewrite lookup_insert_eq. simpl. done.
Qed.

(** *** Two cycles in a row *)

Lemma watermark_read_stored (r : Remote) w :
  is_configured = true →
  client.faults r (client.trace r) (client.SelectSyncState DEVICE_NAME) = None →
  client.watermark r = Some w →
  watermark_read r = w.
Proof.
  intros Hc Hf Hw.
  unfold watermark_read, client.get_sync_state, client._get_client.
  rewrite Hc. unfold bind at 1, ret at 1, try_except, bind, client.request.
  rewrite Hf. simpl. unfold client.watermark in Hw.
  destruct (client.sync_state (client.tables r) !! DEVICE_NAME) as [row|];
    simpl in *; [|done].
  by rewrite Hw.
Qed.

Lemma local_memories_elem (conn : Connection F) rows since mems mem :
  memories conn = Rows rows →
  _get_local_memories conn since = Ok mems →
  mem ∈ mems ↔
  ∃ row, row ∈ rows ∧ changed_since since row = true ∧ mem = to_memory row.
Proof.
  unfold _get_local_memories. intros -> [= <-].
  rewrite list_elem_of_fmap. split.
  - intros (row & -> & Hin). rewrite merge_sort_Permutation in Hin.
    apply list_elem_of_filter in Hin as [Hsel Hin]. by exists row.
  - intros (row & Hin & Hsel & ->). exists row. split; [done|].
    rewrite merge_sort_Permutation. by apply list_elem_of_filter.
Qed.

Lemma changed_since_mono w W row :
  w ≤ W → changed_since W row = true → changed_since w row = true.
Proof.
  unfold changed_since. intros Hle.
  destruct (row_updated_at row) as [u|]; [|destruct (row_created_at row)];
    rewrite ?Z.ltb_lt; try done; lia.
Qed.

Lemma upsert_memories_batch_nil (r : Remote) :
  is_configured = true →
  client.upsert_memories_batch [] r = (Ok (0%nat, 0%nat), r).
Proof.
  intros Hc. unfold client.upsert_memories_batch, client._get_client.
  by rewrite Hc.
Qed.

(** A cycle over a readable table on a store that answers the sync-state
    requests: what it persists, and what it counts when nothing is live. *)
Lemma sync_once_persists (conn : Connection F) (r : Remote) mems :
  is_configured = true →
  keeps_sync_state r →
  _get_local_memories conn (watermark_read r) = Ok mems →
  ∃ stats r',
    sync_once (Some conn) r = (Ok stats, r') ∧
    client.faults r' = client.faults r ∧
    client.watermark r' = Some (latest (watermark_read r) (live mems)) ∧
    (live mems = [] →
     new_memories stats = 0%nat ∧ errors stats = 0%nat).
Proof.
  intros Hc [Hsel Hups] Hmems. destruct mems as [|mem mems].
  - destruct (sync_facts.cycle_idle_run conn r Hc Hmems)
      as (sync_state & marks & st & r2 & _ & _ & _ & Hnew & _ & Herr & _ & Hfl
          & Hcy).
    destruct (sync_facts.update_sync_state_ok (watermark_read r)
                (client.memories_synced sync_state) "idle" r2 Hc)
      as (b & r' & Hupd & Hfl' & _ & Hacc).
    rewrite Hupd in Hcy. simpl in Hcy.
    eexists _, r'. split_and!.
    + by rewrite (sync_facts.sync_once_of_cycle _ _ _ _ _ Hcy).
    + by rewrite Hfl', Hfl.
    + apply Hacc. rewrite Hfl. apply Hups.
    + done.
  - destruct (sync_facts.cycle_changed_run conn r (mem :: mems) Hc Hmems
                ltac:(done))
      as (sync_state & st & r5 & Hfl5 & _ & Hcount & Hcy).
    set (total := Some _) in Hcy.
    destruct (sync_facts.update_sync_state_ok
                (latest (watermark_read r) (live (mem :: mems))) total "idle"
                r5 Hc)
      as (b & r' & Hupd & Hfl' & _ & Hacc).
    rewrite Hupd in Hcy. simpl in Hcy.
    eexists _, r'. split_and!.
    + by rewrite (sync_facts.sync_once_of_cycle _ _ _ _ _ Hcy).
    + by rewrite Hfl', Hfl5.
    + apply Hacc. rewrite Hfl5. apply Hups.
    + intros Hlive. simpl.
      destruct Hcount as [(_ & -> & ->)|(r3 & r4 & s & f & _ & Hup & <- & <-)];
        [done|].
      rewrite Hlive in Hup. cbn [fmap list_fmap] in Hup.
      rewrite upsert_memories_batch_nil in Hup by done.
      by injection Hup as <- <- _.
Qed.

(** A completed cycle leaves a watermark after which no live record of the
    same table is selected. *)
Lemma first_cycle_settles (conn : Connection F) rows (r : Remote) :
  is_configured = true →
  keeps_sync_state r →
  memories conn = Rows rows →
  0 ≤ watermark_read r →
  ∃ stats r' w,
    sync_once (Some conn) r = (Ok stats, r') ∧
    client.faults r' = client.faults r ∧
    client.watermark r' = Some w ∧
    ∀ mems, _get_local_memories conn w = Ok mems → live mems = [].
Proof.
  intros Hc Hks Hrows Hpos.
  assert (∃ mems, _get_local_memories conn (watermark_read r) = Ok mems)
    as [mems1 Hmems1]
    by (unfold _get_local_memories; rewrite Hrows; by eexists).
  destruct (sync_once_persists conn r mems1 Hc Hks Hmems1)
    as (stats1 & r1 & Hrun1 & Hfl1 & Hw1 & _).
  set (W := latest (watermark_read r) (live mems1)) in *.
  assert (watermark_read r ≤ W) as HwW by apply sync_facts.latest_ge.
  exists stats1, r1, W. split_and!; try done.
  intros mems2 Hmems2.
  destruct (live mems2) as [|mem rest] eqn:Hlive; [done|exfalso].
  assert (mem ∈ live mems2) as Hin by (rewrite Hlive; by left).
  pose proof Hin as [Hd Hin2]%list_elem_of_filter.
  destruct (sync_facts.changed_rows_after conn W mems2 mem Hmems2 Hin2)
    as [Hlt Heq].
  apply (local_memories_elem conn rows W mems2 mem Hrows Hmems2) in Hin2
    as (row & Hrow & Hsel & ->).
  assert (to_memory row ∈ live mems1) as Hin1.
  { apply list_elem_of_filter. split; [done|].
    apply (local_memories_elem conn rows _ mems1 _ Hrows Hmems1).
    exists row. split_and!; [done| |done].
    by apply (changed_since_mono _ W). }
  pose proof (sync_facts.latest_upper (watermark_read r) _ _ Hin1) as Hle.
  fold W in Hle. rewrite Heq in Hle by lia. lia.
Qed.

(** A cycle that starts from such a watermark uploads nothing and persists
    the same watermark. *)
Lemma settled_cycle (conn : Connection F) rows (r : Remote) w :
  is_configured = true →
  keeps_sync_state r →
  memories conn = Rows rows →
  client.watermark r = Some w →
  (∀ mems, _get_local_memories conn w = Ok mems → live mems = []) →
  ∃ stats r',
    sync_once (Some conn) r = (Ok stats, r') ∧
    new_memories stats = 0%nat ∧ errors stats = 0%nat ∧
    client.faults r' = client.faults r ∧
    client.watermark r' = Some w.
Proof.
  intros Hc Hks Hrows Hw Hnone.
  assert (watermark_read r = w) as Hread
    by (apply watermark_read_stored; [done|apply Hks|done]).
  assert (∃ mems, _get_local_memories conn w = Ok mems) as [mems Hmems]
    by (unfold _get_local_memories; rewrite Hrows; by eexists).
  pose proof (Hnone mems Hmems) as Hlive.
  rewrite <- Hread in Hmems.
  destruct (sync_once_persists conn r mems Hc Hks Hmems)
    as (stats & r' & Hrun & Hfl & Hw' & Hzero).
  rewrite Hlive, Hread in Hw'. destruct (Hzero Hlive) as [Hnew Herr].
  by exists stats, r'.
Qed.

(** X7: on a store that answers the sync-state requests, the cycle that
    follows a completed cycle over the same local table selects no live
    record: it uploads nothing and persists the same watermark, whatever
    the remote store did with the uploads of the first cycle -- a record
    whose upload was refused is not sent again. *)
Theorem sync_once_twice_uploads_nothing (conn : Connection F) rows
    (r : Remote) :
  is_configured = true →
  keeps_sync_state r →
  memories conn = Rows rows →
  0 ≤ watermark_read r →
  ∃ stats1 r1 stats2 r2 w,
    sync_once (Some conn) r = (Ok stats1, r1) ∧
    sync_once (Some conn) r1 = (Ok stats2, r2) ∧
    new_memories stats2 = 0%nat ∧ errors stats2 = 0%nat ∧
    client.watermark r1 = Some w ∧ client.watermark r2 = Some w ∧
    ∀ mems, _get_local_memories conn w = Ok mems → live mems = [].
Proof.
  intros Hc Hks Hrows Hpos.
  destruct (first_cycle_settles conn rows r Hc Hks Hrows Hpos)
    as (stats1 & r1 & w & Hrun1 & Hfl1 & Hw1 & Hnone).
  assert (keeps_sync_state r1) as Hks1
    by (unfold keeps_sync_state in *; by rewrite Hfl1).
  destruct (settled_cycle conn rows r1 w Hc Hks1 Hrows Hw1 Hnone)
    as (stats2 & r2 & Hrun2 & Hnew & Herr & _ & Hw2).
  by exists stats1, r1, stats2, r2, w.
Qed.

(** The last request of a cycle with a non-empty changed set, in terms of
    the sync state it read. *)
Lemma cycle_changed_total conn (r : Remote) mems sync_state r0 :
  is_configured = true →
  client.get_sync_state r = (Ok sync_state, r0) →
  _get_local_memories conn (watermark_read r) = Ok mems →
  mems ≠ [] →
  ∃ st r5,
    cycle conn (stats0, r) =
      (Ok false,
       (st, (client.update_sync_state
               (latest (watermark_read r) (live mems))
               (Some (or_zero (client.memories_synced sync_state)
                      + Z.of_nat (new_memories st)))
               "idle" r5).2)).
Proof.
  intros Hc Hget Hmems Hne.
  rewrite (sync_facts.watermark_read_eq _ _ _ Hget) in *.
  set (last := or_zero (client.last_sync_updated_at sync_state)) in *.
  unfold cycle.
  rewrite (sync_facts.bind_ok _ _ _ _ _ (sync_facts.remote_ok _ _ _ _ _ Hget)).
  fold last.
  destruct (sync_facts.update_sync_state_ok last
              (client.memories_synced sync_state) "syncing" r0 Hc)
    as (b2 & r2 & Hupd & _).
  rewrite (sync_facts.bind_ok _ _ _ _ _ (sync_facts.remote_ok _ _ _ _ _ Hupd)).
  rewrite Hmems. unfold lift_result at 1, bind at 1, ret at 1.
  destruct mems as [|mem0 mems0]; [done|].
  set (mems := mem0 :: mems0) in *.
  set (embeddings := _get_local_embeddings conn (content_hash <$> mems)).
  destruct (sync_facts.prepare_rows_run embeddings mems Hc [] last stats0 r2)
    as (st3 & r3 & Hprep & _).
  unfold prepare_batch. rewrite (sync_facts.bind_ok _ _ _ _ _ Hprep).
  rewrite app_nil_l.
  assert (∀ st5 (r5 : Remote) W,
    (st0 <- get ;;
     remote (client.update_sync_state W
               (Some (or_zero (client.memories_synced sync_state)
                      + Z.of_nat (new_memories st0.1))) "idle") ;;;
     ret false) (st5, r5) =
    (Ok false,
     (st5, (client.update_sync_state W
              (Some (or_zero (client.memories_synced sync_state)
                     + Z.of_nat (new_memories st5))) "idle" r5).2)))
    as Hfinal.
  { intros st5 r5 W. unfold bind at 1, get. cbv beta iota. simpl fst.
    destruct (sync_facts.update_sync_state_ok W
                (Some (or_zero (client.memories_synced sync_state)
                       + Z.of_nat (new_memories st5))) "idle" r5 Hc)
      as (b & r6 & Hrun & _).
    rewrite (sync_facts.bind_ok _ _ _ _ _
               (sync_facts.remote_ok _ _ _ _ _ Hrun)).
    by rewrite Hrun. }
  destruct (live mems) as [|m1 ms1] eqn:Hlive.
  - cbn [fmap list_fmap]. unfold ret at 1, bind at 1.
    destruct (sync_facts.sync_graph_run conn st3 r3 Hc)
      as (st5 & r5 & Hg & _).
    rewrite (sync_facts.bind_ok _ _ _ _ _ Hg).
    exists st5, r5. apply Hfinal.
  - remember (batch_entry embeddings <$> m1 :: ms1) as batch eqn:Hb.
    destruct batch as [|b0 bs]; [done|].
    destruct (client_facts.upsert_memories_batch_run (b0 :: bs) r3 Hc)
      as (success & failed & r4 & oks & Hup & _).
    unfold bind at 1, bind at 1.
    rewrite (sync_facts.remote_ok _ _ _ _ _ Hup). unfold update_stats, modify.
    cbv beta iota. simpl fst. simpl snd.
    destruct (sync_facts.sync_graph_run conn
                (set_upserted success failed st3) r4 Hc)
      as (st5 & r5 & Hg & _).
    rewrite (sync_facts.bind_ok _ _ _ _ _ Hg).
    exists st5, r5. apply Hfinal.
Qed.

(** X8: a cycle that found changed records persists, with status [idle],
    the counter [memories_synced] it read plus the [new_memories] of this
    cycle (0 when the stored counter is missing or the state could not be
    read): the counter is a running total of accepted upserts, so a record
    that is uploaded again is counted again. *)
Theorem sync_once_accumulates_memories_synced (conn : Connection F)
    (r : Remote) mems sync_state r0 :
  is_configured = true →
  client.get_sync_state r = (Ok sync_state, r0) →
  _get_local_memories conn (watermark_read r) = Ok mems →
  mems ≠ [] →
  ∃ stats r' row,
    sync_once (Some conn) r = (Ok stats, r') ∧
    last (client.trace r') = Some (client.UpsertSyncState row) ∧
    client.status row = "idle"%string ∧
    client.memories_synced row =
      Some (or_zero (client.memories_synced sync_state)
            + Z.of_nat (new_memories stats)).
Proof.
  intros Hc Hget Hmems Hne.
  destruct (cycle_changed_total conn r mems sync_state r0 Hc Hget Hmems Hne)
    as (st & r5 & Hcy).
  set (total := Some _) in Hcy.
  destruct (sync_facts.update_sync_state_ok
              (latest (watermark_read r) (live mems)) total "idle" r5 Hc)
    as (stored & r' & Hupd & _ & Htr & _).
  rewrite Hupd in Hcy. simpl in Hcy.
  exists (set_duration elapsed_ms st), r',
         (client.sync_row (latest (watermark_read r) (live mems)) total "idle").
  split_and!.
  - by rewrite (sync_facts.sync_once_of_cycle _ _ _ _ _ Hcy).
  - rewrite Htr. apply last_snoc.
  - done.
  - done.
Qed.

(** *** Idle cycles and the deletion log *)

Lemma mark_locally_deleted_accepted h reason (r : Remote) :
  is_configured = true → accepts_all r →
  ∃ r',
    client.mark_locally_deleted h reason r = (Ok true, r') ∧
    client.memories (client.tables r') =
      alter (client.with_local_deleted true) h
            (client.memories (client.tables r)) ∧
    client.deletion_log (client.tables r') =
      client.deletion_log (client.tables r) ++
      option_list (client.log_entry h reason
                     <$> client.memories (client.tables r) !! h) ∧
    client.faults r' = client.faults r.
Proof.
  intros Hc Hok. unfold client.mark_locally_deleted, client._get_client.
  rewrite Hc. unfold bind at 1, ret at 1, try_except, bind, client.request.
  rewrite Hok. cbv beta iota zeta. cbn [client.tables client.trace client.faults].
  destruct (client.memories (client.tables r) !! h) as [row|] eqn:Hrow; simpl.
  - repeat (rewrite Hok; simpl). eexists. split; [reflexivity|]. done.
  - unfold ret. repeat (rewrite Hok; simpl). eexists.
    split; [reflexivity|]. simpl. by rewrite app_nil_r.
Qed.

Lemma relogged_marked (t t' : client.Tables F) h hashes :
  client.memories t' =
    alter (client.with_local_deleted true) h (client.memories t) →
  relogged t' hashes = relogged t hashes.
Proof.
  intros Hm. unfold relogged. apply list_omap_ext, Forall2_same_length_lookup.
  split; [done|]. intros i x y Hx Hy. rewrite Hx in Hy. injection Hy as <-.
  rewrite Hm. destruct (decide (h = x)) as [->|Hne].
  - rewrite lookup_alter_eq. by destruct (client.memories t !! x).
  - by rewrite lookup_alter_ne.
Qed.

Lemma mark_each_accepted (hashes : list string) :
  is_configured = true →
  ∀ marks0 (r : Remote), accepts_all r →
  ∃ r',
    for_each hashes marks0 mark_one r =
      (Ok (marks0 ++ replicate (length hashes) true), r') ∧
    client.deletion_log (client.tables r') =
      client.deletion_log (client.tables r) ++ relogged (client.tables r) hashes ∧
    (∀ hs, relogged (client.tables r') hs = relogged (client.tables r) hs) ∧
    client.faults r' = client.faults r.
Proof.
  intros Hc. induction hashes as [|h hashes IH]; intros marks0 r Hok.
  - exists r. simpl. by rewrite !app_nil_r.
  - rewrite client_facts.for_each_cons. unfold mark_one at 1.
    destruct (mark_locally_deleted_accepted h "local_soft_delete" r Hc Hok)
      as (r1 & Hrun & Hm & Hd & Hfl).
    rewrite (sync_facts.bind_ok _ _ _ _ _ Hrun). unfold ret at 1.
    assert (accepts_all r1) as Hok1 by (unfold accepts_all; by rewrite Hfl).
    destruct (IH (marks0 ++ [true]) r1 Hok1) as (r' & Hrun' & Hd' & Hre & Hfl').
    exists r'. rewrite Hrun'. split_and!.
    + by rewrite <- app_assoc.
    + rewrite Hd', Hd, <- app_assoc. f_equal.
      rewrite (relogged_marked _ _ h hashes Hm).
      unfold relogged. cbn [omap list_omap].
      by destruct (client.memories (client.tables r) !! h).
    + intros hs. by rewrite Hre, (relogged_marked _ _ h hs Hm).
    + by rewrite Hfl'.
Qed.

Lemma successes_replicate n : successes (replicate n true) = n.
Proof.
  unfold successes. induction n as [|n IH]; [done|].
  cbn [replicate]. rewrite filter_cons_True by done. simpl. by rewrite IH.
Qed.

Lemma relogged_ext (t t' : client.Tables F) hashes :
  client.memories t' = client.memories t →
  relogged t' hashes = relogged t hashes.
Proof. unfold relogged. by intros ->. Qed.

(** X9: on a store that accepts every request, a cycle with nothing to
    upload marks every local tombstone again: [deleted_marked] is the number
    of all tombstoned rows, and the deletion log receives one more entry for
    each of them that has a remote row, whether or not that row was already
    flagged; the next such cycle appends the same entries once more. *)
Theorem sync_once_relogs_tombstones (conn : Connection F) rows (r : Remote) :
  is_configured = true →
  accepts_all r →
  memories conn = Rows rows →
  _get_local_memories conn (watermark_read r) = Ok [] →
  ∃ stats r',
    sync_once (Some conn) r = (Ok stats, r') ∧
    deleted_marked stats = length (tombstoned rows) ∧
    client.deletion_log (client.tables r') =
      client.deletion_log (client.tables r) ++
      relogged (client.tables r) (tombstoned rows) ∧
    relogged (client.tables r') (tombstoned rows) =
      relogged (client.tables r) (tombstoned rows) ∧
    accepts_all r'.
Proof.
  intros Hc Hok Hrows Hmems.
  destruct (sync_facts.cycle_idle_run conn r Hc Hmems)
    as (sync_state & marks & st & r2 & Hmark & _ & Hcount & _ & _ & _ & _ & Hfl
        & Hcy).
  assert (_get_locally_deleted conn = tombstoned rows) as Htomb
    by (unfold _get_locally_deleted; by rewrite Hrows).
  rewrite Htomb in *. cbv zeta in Hmark.
  pose proof (sync_facts.update_sync_state_frame (watermark_read r)
                (client.memories_synced sync_state) "syncing"
                (client.sent (client.SelectSyncState DEVICE_NAME) r))
    as [(Hm1 & Hd1 & _) Hfl1].
  set (r1 := (client.update_sync_state _ _ "syncing" _).2) in *.
  assert (accepts_all r1) as Hok1 by (unfold accepts_all; by rewrite Hfl1).
  destruct (mark_each_accepted (tombstoned rows) Hc [] r1 Hok1)
    as (r2' & Hrun & Hd2 & Hre2 & _).
  unfold mark_each in Hmark. rewrite Hrun in Hmark.
  injection Hmark as <- <-.
  pose proof (sync_facts.update_sync_state_frame (watermark_read r)
                (client.memories_synced sync_state) "idle" r2')
    as [(Hm3 & Hd3 & _) Hfl3].
  eexists _, _. split; [by rewrite (sync_facts.sync_once_of_cycle _ _ _ _ _ Hcy)|].
  split_and!.
  - simpl. rewrite Hcount. simpl. apply successes_replicate.
  - rewrite Hd3, Hd2, Hd1. f_equal. by apply relogged_ext.
  - rewrite (relogged_ext _ _ _ Hm3), Hre2. by apply relogged_ext.
  - unfold accepts_all. rewrite Hfl3, Hfl. exact Hok.
Qed.

(** *** The local readers *)

Lemma unpack_floats_length (blob : list byte) :
  length (unpack_floats (F := F) blob) = (length blob / 4)%nat.
Proof.
  assert (∀ n (blob : list byte), (length blob < n)%nat →
            length (unpack_floats (F := F) blob) = (length blob / 4)%nat) as H.
  { induction n as [|n IH]; intros b Hn; [lia|].
    destruct b as [|a [|b' [|c [|d rest]]]]; try done.
    cbn [unpack_floats length]. rewrite IH by (simpl in Hn; lia).
    change (S (S (S (S (length rest))))) with (4 + length rest)%nat.
    replace (4 + length rest)%nat with (length rest + 1 * 4)%nat by lia.
    rewrite Nat.div_add by done. lia. }
  by apply (H (S (length blob))); lia.
Qed.

(** X10: a blob of packed float32 values decodes to one number per four
    bytes; a blob whose length is not a multiple of four, and a missing
    blob, decode to nothing. *)
Theorem deserialize_embedding_length (blob : list byte) :
  match _deserialize_embedding (F := F) (Some blob) with
  | Some floats => length blob = (4 * length floats)%nat
  | None => (length blob mod 4)%nat ≠ 0%nat
  end ∧
  _deserialize_embedding (F := F) None = None.
Proof.
  split; [|done]. unfold _deserialize_embedding.
  destruct (Nat.eqb_spec (length blob mod 4) 0) as [Hz|Hnz]; [|done].
  rewrite unpack_floats_length.
  pose proof (Nat.div_mod_eq (length blob) 4). lia.
Qed.

Lemma get_local_embeddings_step (conn : Connection F)
    (embeddings : gmap string (list F)) hashes h v :
  foldl (λ embeddings content_hash,
    match memories conn, memory_embeddings conn with
    | Rows rows, Rows vectors =>
        match filter (λ r, row_content_hash r = content_hash) rows with
        | [] => embeddings
        | row :: _ =>
            match filter (λ v, v.1 = rowid row) vectors with
            | (_, Some (b :: blob)) :: _ =>
                match _deserialize_embedding (Some (b :: blob)) with
                | Some (x :: embedding) =>
                    <[content_hash := x :: embedding]> embeddings
                | _ => embeddings
                end
            | _ => embeddings
            end
        end
    | _, _ => embeddings
    end) embeddings hashes !! h = Some v →
  embeddings !! h = Some v ∨
  h ∈ hashes ∧ v ≠ [] ∧
  ∃ rows vectors row blob,
    memories conn = Rows rows ∧ memory_embeddings conn = Rows vectors ∧
    row ∈ rows ∧ row_content_hash row = h ∧
    (rowid row, Some blob) ∈ vectors ∧
    _deserialize_embedding (Some blob) = Some v.
Proof.
  revert embeddings. induction hashes as [|h0 hashes IH]; intros embeddings.
  - simpl. by left.
  - cbn [foldl]. intros Hv. apply IH in Hv as [Hv|(Hin & Hne & Hex)].
    + destruct (memories conn) as [rows|] eqn:Hrows; [|by left].
      destruct (memory_embeddings conn) as [vectors|] eqn:Hvec; [|by left].
      destruct (filter _ rows) as [|row more] eqn:Hfind; [by left|].
      destruct (filter _ vectors) as [|[id [[|b blob]|]] more'] eqn:Hfind';
        try by left.
      destruct (_deserialize_embedding (Some (b :: blob)))
        as [[|x embedding]|] eqn:Hde; try by left.
      destruct (decide (h0 = h)) as [->|Hne].
      * rewrite lookup_insert_eq in Hv. injection Hv as <-.
        right. split_and!; [by left|done|].
        assert (row ∈ filter (λ r, row_content_hash r = h) rows) as Hr
          by (rewrite Hfind; by left).
        apply list_elem_of_filter in Hr as [Hh Hr].
        assert ((id, Some (b :: blob)) ∈
                filter (λ v : Z * option (list byte), v.1 = rowid row) vectors)
          as Hb by (rewrite Hfind'; by left).
        apply list_elem_of_filter in Hb as [Hid Hb]. simpl in Hid. subst id.
        by exists rows, vectors, row, (b :: blob).
      * rewrite lookup_insert_ne in Hv by done. by left.
    + right. split_and!; [by right|done|done].
Qed.

(** X11: every embedding that [_get_local_embeddings] returns is keyed by one
    of the requested hashes, is not empty, and is the decoded blob stored
    for a local row with that hash; when either table cannot be read the
    result is empty instead of an error. *)
Theorem get_local_embeddings_sound (conn : Connection F)
    (content_hashes : list string) :
  (∀ h v,
     _get_local_embeddings conn content_hashes !! h = Some v →
     h ∈ content_hashes ∧ v ≠ [] ∧
     ∃ rows vectors row blob,
       memories conn = Rows rows ∧ memory_embeddings conn = Rows vectors ∧
       row ∈ rows ∧ row_content_hash row = h ∧
       (rowid row, Some blob) ∈ vectors ∧
       _deserialize_embedding (Some blob) = Some v) ∧
  ((∃ msg, memories conn = Broken msg) ∨
   (∃ msg, memory_embeddings conn = Broken msg) →
   _get_local_embeddings conn content_hashes = ∅).
Proof.
  split.
  - intros h v Hv. unfold _get_local_embeddings in Hv.
    apply get_local_embeddings_step in Hv as [Hv|Hv]; [|done].
    by rewrite lookup_empty in Hv.
  - intros Hbroken. unfold _get_local_embeddings.
    generalize (∅ : gmap string (list F)).
    induction content_hashes as [|h hs IH]; intros acc; [done|].
    cbn [foldl]. etrans; [|apply (IH acc)]. f_equal.
    destruct Hbroken as [[msg ->]|[msg ->]]; [done|].
    by destruct (memories conn).
Qed.

(** X12: when content hashes are unique in the local table, the hashes that
    [_get_all_local_hashes] returns and those that [_get_locally_deleted]
    returns split the table: every row is in exactly one of the two. *)
Theorem local_hashes_split (conn : Connection F) (rows : list Row) :
  memories conn = Rows rows →
  NoDup (row_content_hash <$> rows) →
  ∃ hashes,
    _get_all_local_hashes conn = Ok hashes ∧
    ∀ row, row ∈ rows →
      (row_content_hash row ∈ hashes ↔ row_deleted_at row = None) ∧
      (row_content_hash row ∈ _get_locally_deleted conn ↔
       row_deleted_at row ≠ None).
Proof.
  unfold _get_all_local_hashes, _get_locally_deleted.
  intros -> Hnd. eexists. split; [done|]. intros row Hrow.
  assert (∀ row', row' ∈ rows → row_content_hash row' = row_content_hash row →
                  row' = row) as Hinj.
  { intros row' Hrow' Heq.
    apply list_elem_of_lookup in Hrow as [i Hi], Hrow' as [j Hj].
    assert (i = j) as ->; [|congruence].
    apply (NoDup_lookup _ i j (row_content_hash row) Hnd);
      rewrite list_lookup_fmap; [by rewrite Hi|by rewrite Hj, <- Heq]. }
  split.
  - rewrite elem_of_list_to_set, list_elem_of_fmap. split.
    + intros (row' & Heq & [Hd Hin]%list_elem_of_filter).
      by rewrite <- (Hinj row' Hin (eq_sym Heq)).
    + intros Hd. exists row. split; [done|]. by apply list_elem_of_filter.
  - rewrite list_elem_of_fmap. split.
    + intros (row' & Heq & [Hd Hin]%list_elem_of_filter).
      by rewrite <- (Hinj row' Hin (eq_sym Heq)).
    + intros Hd. exists row. split; [done|]. by apply list_elem_of_filter.
Qed.

End facts.
End cycle_facts.


(** ** Facts about the daemon *)
Module daemon_facts.
Import sync cycles.
Section facts.
Context {F : Type} {FA : PyFloat F} {P : Platform}.

Local Abbreviation Remote := (client.Remote F).
Local Abbreviation LocalDb := (daemon.LocalDb F).

(** *** Opening the database *)

Lemma sync_once_opened (conn : Connection F) :
  daemon.sync_once (daemon.Database conn) = sync_once (Some conn).
Proof. done. Qed.

Lemma sync_once_unopenable msg (r : Remote) :
  daemon.sync_once (daemon.Unopenable msg) r = (Raise (Exn SqliteError msg), r).
Proof. done. Qed.

Lemma sync_once_outcome (db : LocalDb) (r : Remote) :
  match db with
  | daemon.Unopenable msg =>
      daemon.sync_once db r = (Raise (Exn SqliteError msg), r)
  | _ => ∃ stats r', daemon.sync_once db r = (Ok stats, r')
  end.
Proof.
  destruct db as [|msg|conn]; [|done|].
  - by eexists _, _.
  - rewrite sync_once_opened.
    destruct (sync_facts.sync_once_returns (Some conn) r)
      as (stats & r' & Hrun & _).
    by exists stats, r'.
Qed.

(** X6: [sync_once] lets exactly one failure leave it as an exception: a
    local database that exists but cannot be opened, before anything is
    sent.  A missing file gives stats with one error and the text of the
    [FileNotFoundError], again without any request.  Once the database is
    open, a cycle on a configured device always returns stats, and they
    carry an [error_message] only when the local [memories] table cannot be
    read: whatever the remote store refuses is absorbed by the gateway
    functions and never reaches the [except] clause of the cycle. *)
Theorem sync_once_reports_local_failures_only (db : LocalDb) (r : Remote) :
  is_configured = true →
  match db with
  | daemon.NoFile =>
      daemon.sync_once db r =
        (Ok {| new_memories := 0; updated_memories := 0; deleted_marked := 0;
               graph_edges := 0; errors := 1; duration_ms := 0;
               error_message :=
                 Some ("Local database not found: " +:+ LOCAL_DB_PATH) |}, r)
  | daemon.Unopenable msg =>
      daemon.sync_once db r = (Raise (Exn SqliteError msg), r)
  | daemon.Database conn =>
      ∃ stats r',
        daemon.sync_once db r = (Ok stats, r') ∧
        match memories conn with
        | Rows _ => error_message stats = None
        | Broken msg =>
            error_message stats = Some msg ∧ errors stats = 1%nat ∧
            new_memories stats = 0%nat ∧ deleted_marked stats = 0%nat
        end
  end.
Proof.
  intros Hc. destruct db as [|msg|conn]; [done|done|].
  rewrite sync_once_opened.
  apply (cycle_facts.opened_cycle_reports_local_failures conn r Hc).
Qed.

(** *** The loop *)

Lemma daemon_cycle_run (db : LocalDb) (r : Remote) :
  ∃ pass r',
    daemon.daemon_cycle db r = (Ok pass, r') ∧ daemon.backs_off_on db pass.
Proof.
  pose proof (sync_once_outcome db r) as Hrun.
  unfold daemon.daemon_cycle, try_except, bind.
  destruct db as [|msg|conn].
  - destruct Hrun as (stats & r' & ->).
    exists (Some stats), r'. split; [done|by eexists].
  - rewrite Hrun. by exists None, r.
  - destruct Hrun as (stats & r' & ->).
    exists (Some stats), r'. split; [done|by eexists].
Qed.

Lemma daemon_passes_run (later : list LocalDb) :
  ∀ passes0 (r : Remote),
  ∃ passes r',
    for_each later passes0
      (λ passes db, pass <- daemon.daemon_cycle db ;; ret (passes ++ [pass])) r
    = (Ok (passes0 ++ passes), r') ∧
    Forall2 daemon.backs_off_on later passes.
Proof.
  induction later as [|db later IH]; intros passes0 r.
  - exists [], r. by rewrite app_nil_r.
  - rewrite client_facts.for_each_cons.
    destruct (daemon_cycle_run db r) as (pass & r1 & Hpass & Hback).
    rewrite (sync_facts.bind_ok _ _ _ _ _ Hpass). unfold ret at 1.
    destruct (IH (passes0 ++ [pass]) r1) as (passes & r' & -> & Hall).
    exists (pass :: passes), r'. rewrite <- app_assoc.
    split; [done|]. by apply Forall2_cons.
Qed.

(** X13: the daemon backs off exactly when the local database exists but
    cannot be opened.  In the loop, the pass over such a database ends in the
    [except Exception] clause, and every other pass gets its stats from
    [sync_once] -- whatever the tables hold and whatever the remote store
    refuses.  The initial cycle is not guarded: there the same failure ends
    the daemon before it has sent anything. *)
Theorem sync_daemon_backs_off_when_unopenable (first : LocalDb)
    (later : list LocalDb) (r : Remote) :
  match first with
  | daemon.Unopenable msg =>
      daemon.sync_daemon first later r = (Raise (Exn SqliteError msg), r)
  | _ =>
      ∃ stats passes r',
        daemon.sync_daemon first later r = (Ok (stats, passes), r') ∧
        Forall2 daemon.backs_off_on later passes
  end.
Proof.
  pose proof (sync_once_outcome first r) as Hrun. unfold daemon.sync_daemon.
  assert (∀ stats r1,
    daemon.sync_once first r = (Ok stats, r1) →
    ∃ stats passes r',
      (stats <- daemon.sync_once first ;;
       passes <- for_each later []
                   (λ passes db,
                      pass <- daemon.daemon_cycle db ;; ret (passes ++ [pass])) ;;
       ret (stats, passes)) r = (Ok (stats, passes), r') ∧
      Forall2 daemon.backs_off_on later passes) as Hloop.
  { intros stats r1 Hrun1. rewrite (sync_facts.bind_ok _ _ _ _ _ Hrun1).
    destruct (daemon_passes_run later [] r1) as (passes & r' & Hpasses & Hall).
    rewrite (sync_facts.bind_ok _ _ _ _ _ Hpasses).
    by exists stats, passes, r'. }
  destruct first as [|msg|conn].
  - destruct Hrun as (stats & r1 & Hrun). by apply (Hloop stats r1).
  - by rewrite (sync_facts.bind_raise _ _ _ _ _ Hrun).
  - destruct Hrun as (stats & r1 & Hrun). by apply (Hloop stats r1).
Qed.

Lemma settled_passes (conn : Connection F) rows w (n : nat) :
  is_configured = true →
  memories conn = Rows rows →
  (∀ mems, _get_local_memories conn w = Ok mems → live mems = []) →
  ∀ passes0 (r : Remote),
    keeps_sync_state r → client.watermark r = Some w →
    ∃ passes r',
      for_each (replicate n (daemon.Database conn)) (Some <$> passes0)
        (λ passes db, pass <- daemon.daemon_cycle db ;; ret (passes ++ [pass])) r
      = (Ok (Some <$> (passes0 ++ passes)), r') ∧
      length passes = n ∧
      Forall (λ stats, new_memories stats = 0%nat ∧ errors stats = 0%nat)
             passes ∧
      client.watermark r' = Some w.
Proof.
  intros Hc Hrows Hnone. induction n as [|n IH]; intros passes0 r Hks Hw.
  - exists [], r. by rewrite app_nil_r.
  - cbn [replicate]. rewrite client_facts.for_each_cons.
    destruct (cycle_facts.settled_cycle conn rows r w Hc Hks Hrows Hw Hnone)
      as (stats & r1 & Hrun & Hnew & Herr & Hfl & Hw1).
    assert (daemon.daemon_cycle (daemon.Database conn) r = (Ok (Some stats), r1))
      as Hpass.
    { unfold daemon.daemon_cycle, try_except, bind.
      by rewrite sync_once_opened, Hrun. }
    rewrite (sync_facts.bind_ok _ _ _ _ _ Hpass). unfold ret at 1.
    replace ((Some <$> passes0) ++ [Some stats])
      with (Some <$> (passes0 ++ [stats])) by (by rewrite fmap_app).
    assert (keeps_sync_state r1) as Hks1
      by (unfold keeps_sync_state in *; by rewrite Hfl).
    destruct (IH (passes0 ++ [stats]) r1 Hks1 Hw1)
      as (passes & r' & -> & Hlen & Hall & Hw').
    exists (stats :: passes), r'. rewrite <- app_assoc. simpl.
    rewrite Hlen. split_and!; try done. by apply Forall_cons.
Qed.

(** X14: while the local table stays as it is, the store answers the
    sync-state requests and the stored watermark is not negative, no pass
    of the daemon's loop uploads a record: everything that will ever be
    sent is sent by the initial cycle. *)
Theorem sync_daemon_settles (conn : Connection F) rows (n : nat) (r : Remote) :
  is_configured = true →
  keeps_sync_state r →
  memories conn = Rows rows →
  0 ≤ watermark_read r →
  ∃ stats passes r',
    daemon.sync_daemon (daemon.Database conn)
      (replicate n (daemon.Database conn)) r
      = (Ok (stats, Some <$> passes), r') ∧
    length passes = n ∧
    Forall (λ stats, new_memories stats = 0%nat ∧ errors stats = 0%nat) passes.
Proof.
  intros Hc Hks Hrows Hpos. unfold daemon.sync_daemon.
  destruct (cycle_facts.first_cycle_settles conn rows r Hc Hks Hrows Hpos)
    as (stats & r1 & w & Hrun & Hfl & Hw & Hnone).
  rewrite sync_once_opened, (sync_facts.bind_ok _ _ _ _ _ Hrun).
  assert (keeps_sync_state r1) as Hks1
    by (unfold keeps_sync_state in *; by rewrite Hfl).
  destruct (settled_passes conn rows w n Hc Hrows Hnone [] r1 Hks1 Hw)
    as (passes & r' & Hpasses & Hlen & Hall & _).
  change (Some <$> []) with (@nil (option Stats)) in Hpasses.
  rewrite (sync_facts.bind_ok _ _ _ _ _ Hpasses).
  by exists stats, passes, r'.
Qed.

End facts.
End daemon_facts.

(** ** Facts about the string methods *)
Module pystr_facts.
Import pystr.
Local Open Scope nat_scope.

Lemma append_nil (t : string) : "" +:+ t = t.
Proof. done. Qed.

Lemma append_cons c (s t : string) : String c s +:+ t = String c (s +:+ t).
Proof. done. Qed.

Lemma prefix_append (s t : string) : String.prefix s (s +:+ t) = true.
Proof.
  induction s as [|c s IH]; [by destruct t|].
  rewrite append_cons. simpl. destruct (ascii_dec c c); [done|congruence].
Qed.

Lemma append_length (s t : string) :
  String.length (s +:+ t) = String.length s + String.length t.
Proof.
  induction s as [|c s IH]; [done|].
  rewrite append_cons. cbn [String.length]. by rewrite IH.
Qed.

Lemma substring_length_le n m (s : string) : String.length (substring n m s) ≤ m.
Proof.
  revert n m. induction s as [|c s IH]; intros [|n] [|m]; simpl;
    try lia; try apply IH.
  specialize (IH 0 m). lia.
Qed.

Lemma substring_all (s : string) m :
  String.length s ≤ m → substring 0 m s = s.
Proof.
  revert m. induction s as [|c s IH]; intros [|m] Hle; simpl in *;
    try done; try lia.
  rewrite IH by lia. done.
Qed.

Lemma lstrip_length (s : string) : String.length (lstrip s) ≤ String.length s.
Proof.
  induction s as [|c s IH]; simpl; [done|]. destruct (is_space c); simpl; lia.
Qed.

Lemma rstrip_length (s : string) : String.length (rstrip s) ≤ String.length s.
Proof.
  induction s as [|c s IH]; simpl; [done|].
  destruct (rstrip s); [destruct (is_space c)|]; simpl in *; lia.
Qed.

Lemma strip_length (s : string) : String.length (strip s) ≤ String.length s.
Proof.
  unfold strip. etrans; [apply rstrip_length|apply lstrip_length].
Qed.

(** The characters of a string. *)
Lemma lstrip_chars (s : string) c :
  c ∈ list_ascii_of_string (lstrip s) → c ∈ list_ascii_of_string s.
Proof.
  induction s as [|a s IH]; simpl; [done|].
  destruct (is_space a); [|done]. intros Hc. right. by apply IH.
Qed.

Lemma rstrip_chars (s : string) c :
  c ∈ list_ascii_of_string (rstrip s) → c ∈ list_ascii_of_string s.
Proof.
  induction s as [|a s IH]; simpl; [done|].
  destruct (rstrip s) as [|b t].
  - destruct (is_space a); simpl; [by intros ?%elem_of_nil|].
    intros ->%list_elem_of_singleton. by left.
  - simpl. intros [->|Hc]%elem_of_cons; [by left|]. right. by apply IH.
Qed.

Lemma strip_chars (s : string) c :
  c ∈ list_ascii_of_string (strip s) → c ∈ list_ascii_of_string s.
Proof. unfold strip. intros ?%rstrip_chars. by apply lstrip_chars. Qed.

Lemma rstrip_cons c (s : string) :
  rstrip (String c s) =
  match rstrip s with
  | EmptyString => if is_space c then EmptyString else String c EmptyString
  | t => String c t
  end.
Proof. done. Qed.

Lemma rstrip_idemp (s : string) : rstrip (rstrip s) = rstrip s.
Proof.
  induction s as [|c s IH]; [done|]. rewrite rstrip_cons.
  destruct (rstrip s) as [|b t] eqn:Hr.
  - destruct (is_space c) eqn:Hc; [done|]. rewrite rstrip_cons. simpl.
    by rewrite Hc.
  - by rewrite rstrip_cons, IH.
Qed.

Lemma rstrip_head c (s : string) :
  is_space c = false → ∃ t, rstrip (String c s) = String c t.
Proof.
  intros Hc. simpl. destruct (rstrip s); [|by eexists].
  rewrite Hc. by eexists.
Qed.

Lemma lstrip_head (s : string) :
  lstrip s = "" ∨ ∃ c t, lstrip s = String c t ∧ is_space c = false.
Proof.
  induction s as [|c s IH]; simpl; [by left|].
  destruct (is_space c) eqn:Hc; [done|]. right. by exists c, s.
Qed.

Lemma strip_idemp (s : string) : strip (strip s) = strip s.
Proof.
  unfold strip. destruct (lstrip_head s) as [->|(c & t & -> & Hc)]; [done|].
  destruct (rstrip_head c t Hc) as [u Hu]. rewrite Hu.
  cbn [lstrip]. rewrite Hc, <- Hu. apply rstrip_idemp.
Qed.

Lemma split_no_sep sep (s w : string) :
  w ∈ split sep s → sep ∉ list_ascii_of_string w.
Proof.
  revert w. induction s as [|c s IH]; intros w; simpl.
  - intros ->%list_elem_of_singleton. simpl. by intros ?%elem_of_nil.
  - destruct (Ascii.eqb_spec c sep) as [->|Hne].
    + intros [->|Hw]%elem_of_cons; [simpl; by intros ?%elem_of_nil|].
      by apply IH.
    + destruct (split sep s) as [|w0 ws] eqn:Hs.
      * intros ->%list_elem_of_singleton. simpl.
        intros [?|?%elem_of_nil]%elem_of_cons; congruence.
      * intros [->|Hw]%elem_of_cons.
        -- simpl. intros [?|Hin]%elem_of_cons; [congruence|].
           by apply (IH w0); [left|].
        -- apply IH. by right.
Qed.

Lemma split_sep_free sep (s : string) :
  sep ∉ list_ascii_of_string s → split sep s = [s].
Proof.
  induction s as [|c s IH]; simpl; [done|]. intros Hin.
  destruct (Ascii.eqb_spec c sep) as [->|Hne]; [by destruct Hin; left|].
  rewrite IH; [done|]. intros Hs. apply Hin. by right.
Qed.

Lemma split_append sep (s t : string) :
  sep ∉ list_ascii_of_string s →
  split sep (s +:+ String sep t) = s :: split sep t.
Proof.
  induction s as [|c s IH]; intros Hin.
  - rewrite append_nil. simpl. by rewrite Ascii.eqb_refl.
  - rewrite append_cons. simpl in *.
    destruct (Ascii.eqb_spec c sep) as [->|Hne]; [by destruct Hin; left|].
    rewrite IH; [done|]. intros Hs. apply Hin. by right.
Qed.

Lemma split_join sep (xs : list string) :
  xs ≠ [] →
  Forall (λ x, sep ∉ list_ascii_of_string x) xs →
  split sep (join (String sep "") xs) = xs.
Proof.
  unfold join. induction xs as [|x xs IH]; [done|]. intros _ [Hx Hxs]%Forall_cons.
  destruct xs as [|y ys].
  - simpl. by apply split_sep_free.
  - change (String.concat (String sep "") (x :: y :: ys))
      with (x +:+ String sep "" +:+ String.concat (String sep "") (y :: ys)).
    rewrite append_cons, append_nil.
    rewrite split_append by done. f_equal. by apply IH.
Qed.

(** *** What [strip] removes *)

Lemma append_empty_r (s : string) : s +:+ "" = s.
Proof. induction s as [|c s IH]; [done|]. by rewrite append_cons, IH. Qed.

Lemma append_eq_nil (s t : string) : s +:+ t = "" → s = "" ∧ t = "".
Proof. destruct s; [by rewrite append_nil|by rewrite append_cons]. Qed.

Lemma lstrip_split (s : string) : ∃ lead, s = lead +:+ lstrip s ∧ summaries.blank lead.
Proof.
  induction s as [|c s (lead & IH & Hb)].
  - exists "". split; [done|constructor].
  - simpl. destruct (is_space c) eqn:Hc.
    + exists (String c lead). rewrite append_cons, <- IH.
      split; [done|]. by constructor.
    + exists "". split; [done|constructor].
Qed.

Lemma rstrip_split (s : string) : ∃ trail, s = rstrip s +:+ trail ∧ summaries.blank trail.
Proof.
  induction s as [|c s (trail & IH & Hb)].
  - exists "". split; [done|constructor].
  - rewrite rstrip_cons. destruct (rstrip s) as [|b u] eqn:Hr.
    + rewrite append_nil in IH. subst trail.
      destruct (is_space c) eqn:Hc.
      * exists (String c s). rewrite append_nil. split; [done|].
        by constructor.
      * exists s. by rewrite append_cons, append_nil.
    + exists trail. by rewrite append_cons, <- IH.
Qed.

Lemma rstrip_last (s : string) :
  ∀ t c, rstrip s = t +:+ String c "" → is_space c = false.
Proof.
  induction s as [|a s IH]; intros t c.
  - simpl. intros H. symmetry in H. by apply append_eq_nil in H as [_ ?].
  - rewrite rstrip_cons. destruct (rstrip s) as [|b u] eqn:Hr.
    + destruct (is_space a) eqn:Ha.
      * intros H. symmetry in H. by apply append_eq_nil in H as [_ ?].
      * destruct t as [|a' t'].
        -- rewrite append_nil. by intros [= <-].
        -- rewrite append_cons. intros [= _ H]. symmetry in H.
           by apply append_eq_nil in H as [_ ?].
    + destruct t as [|a' t'].
      * rewrite append_nil. by intros [= _ H].
      * rewrite append_cons. intros [= _ H]. by apply (IH t').
Qed.

Lemma strip_split (s : string) :
  ∃ lead trail, s = lead +:+ strip s +:+ trail ∧ summaries.blank lead ∧ summaries.blank trail.
Proof.
  destruct (lstrip_split s) as (lead & Hs & Hlead).
  destruct (rstrip_split (lstrip s)) as (trail & Hl & Htrail).
  exists lead, trail. unfold strip. by rewrite <- Hl.
Qed.

Lemma strip_trimmed (s : string) : summaries.trimmed (strip s).
Proof.
  split; [|apply rstrip_last].
  unfold strip. intros c t Hs.
  destruct (lstrip_head s) as [Hl|(c' & t' & Hl & Hc')].
  - by rewrite Hl in Hs.
  - rewrite Hl in Hs. destruct (rstrip_head c' t' Hc') as [u Hu].
    rewrite Hu in Hs. by injection Hs as <- _.
Qed.

End pystr_facts.

(** ** Further facts about clustering and summaries *)
Module summaries_facts.
Import summarize summaries pystr.
Section facts.
Context {F : Type} {FA : PyFloat F} {P : Platform}.
Local Open Scope nat_scope.

Local Abbreviation Remote := (client.Remote F).
Local Abbreviation MemoryRow := (client.MemoryRow F).

(** *** Which clusters can be summarised *)

Lemma generate_summary_cases (cluster : list MemoryRow) :
  match _generate_summary cluster with
  | Ok text =>
      Forall typed cluster ∧
      String.prefix (header (length cluster)) text = true
  | Raise e =>
      exn_kind e = TypeError ∧ Exists (λ m, ¬ typed m) cluster
  end.
Proof.
  unfold _generate_summary.
  destruct (mapM client.memory_type cluster) as [types|] eqn:Hty.
  - split.
    + apply mapM_Some_1 in Hty. apply Forall_forall. intros m Hm.
      apply list_elem_of_lookup in Hm as [i Hi].
      destruct (Forall2_lookup_l _ _ _ _ _ Hty Hi) as (ty & _ & Hm).
      unfold typed. by rewrite Hm.
    + unfold pystr.join. cbn [List.app String.concat].
      apply (pystr_facts.prefix_append (header _)).
  - split; [done|]. apply mapM_None_1 in Hty.
    eapply Exists_impl; [done|]. intros m Hm Hn. by apply Hn.
Qed.

(** X16: [_generate_summary] returns a text exactly when every member of
    the cluster has a [memory_type]; the text starts with the header line
    giving the size of the cluster, and the only exception it raises is a
    [TypeError]. *)
Theorem generate_summary_needs_types (cluster : list MemoryRow) :
  (Forall typed cluster ↔ ∃ text, _generate_summary cluster = Ok text) ∧
  (∀ text, _generate_summary cluster = Ok text →
           String.prefix (header (length cluster)) text = true) ∧
  (∀ e, _generate_summary cluster = Raise e → exn_kind e = TypeError).
Proof.
  pose proof (generate_summary_cases cluster) as Hcase.
  destruct (_generate_summary cluster) as [text|e].
  - destruct Hcase as [Hty Hpre]. split_and!.
    + split; [by exists text|done].
    + by intros ? [= <-].
    + done.
  - destruct Hcase as [Hk Hex]. split_and!.
    + split; [|by intros [? ?]]. intros Hall.
      apply Exists_exists in Hex as (m & Hm & Hn). destruct Hn.
      by apply (proj1 (Forall_forall _ _) Hall).
    + done.
    + by intros ? [= <-].
Qed.

(** One cluster of the loop of [summarize] on a configured device. *)
Lemma summarize_cluster_run dry created covered (cluster : list MemoryRow)
    (r : Remote) :
  is_configured = true →
  match _generate_summary cluster with
  | Raise e =>
      summarize_cluster dry (created, covered) cluster r = (Raise e, r)
  | Ok _ =>
      ∃ (stored : bool) r',
        summarize_cluster dry (created, covered) cluster r =
          (Ok (if stored then S created else created,
               if stored || dry then covered + length cluster else covered),
           r') ∧
        (dry = true → stored = false ∧ r' = r) ∧
        dom (client.memories (client.tables r)) ⊆
          dom (client.memories (client.tables r')) ∧
        size (client.memories (client.tables r')) ≤
          size (client.memories (client.tables r)) + (if stored then 1 else 0)
  end.
Proof.
  intros Hc. unfold summarize_cluster.
  destruct (_generate_summary cluster) as [text|e]; [|done].
  destruct dry.
  { exists false, r. split_and!; try done. lia. }
  unfold client.upsert_memory, client._get_client. rewrite Hc.
  unfold bind at 1, bind at 1, ret at 1, try_except at 1, bind at 1,
    client.request at 1.
  match goal with |- context [client.faults r (client.trace r) ?rq] =>
    destruct (client.faults r (client.trace r) rq) as [msg|] end.
  { exists false, (client.sent
      (client.UpsertMemory
         {| client.p_content_hash := summary_key text;
            client.p_content := text;
            client.p_tags :=
              Some (pystr.join ","
                      (pystr.sorted_set
                         (collect_tags cluster ++ ["auto-summary"])));
            client.p_memory_type := Some "pattern";
            client.p_metadata :=
              JObj [("is_summary", JBool true);
                    ("summarized_from",
                     JArr (JStr <$> (client.content_hash <$> cluster)));
                    ("cluster_size", JNum (Z.of_nat (length cluster)));
                    ("source", JStr "non_destructive_summarizer")];
            client.p_created_at := None;
            client.p_updated_at := None;
            client.p_source_device := DEVICE_NAME;
            client.p_synced_at := utcnow_isoformat;
            client.p_local_deleted := false;
            client.p_embedding := None |}) r).
    split_and!; try done. simpl. lia. }
  cbv beta iota zeta. unfold ret at 1. cbv beta iota.
  unfold bind at 1, try_except, bind at 1, ret at 1, client.request.
  cbv beta iota zeta.
  cbn [client.tables client.trace client.faults].
  match goal with |- context [client.faults r ?tr ?rq] =>
    destruct (client.faults r tr rq) as [msg|] end.
  - eexists true, _. split; [reflexivity|]. split_and!; [done| |].
    + simpl. unfold client.store_upsert. rewrite dom_insert. set_solver.
    + simpl. unfold client.store_upsert. rewrite map_size_insert.
      destruct (_ !! _); unfold id; lia.
  - eexists true, _. split; [reflexivity|]. split_and!; [done| |].
    + simpl. unfold client.store_upsert. rewrite dom_alter, dom_insert.
      set_solver.
    + simpl. rewrite <- size_dom, dom_alter, size_dom.
      unfold client.store_upsert. rewrite map_size_insert.
      destruct (_ !! _); unfold id; lia.
Qed.


(** The loop over the clusters, as far as it gets. *)
Lemma summarize_clusters_outcome dry (clusters : list (list MemoryRow)) :
  is_configured = true →
  ∀ counts (r : Remote),
    match (for_each clusters counts (summarize_cluster dry) r).1 with
    | Ok _ => Forall (Forall typed) clusters
    | Raise e =>
        exn_kind e = TypeError ∧ Exists (Exists (λ m, ¬ typed m)) clusters
    end.
Proof.
  intros Hc. induction clusters as [|c cs IH]; intros [created covered] r.
  - by simpl.
  - rewrite client_facts.for_each_cons.
    pose proof (summarize_cluster_run dry created covered c r Hc) as Hstep.
    pose proof (generate_summary_cases c) as Hcase.
    destruct (_generate_summary c) as [text|e].
    + destruct Hstep as (stored & r' & -> & _). destruct Hcase as [Hty _].
      specialize (IH (if stored then S created else created,
                      if stored || dry then covered + length c else covered)
                     r').
      destruct (for_each cs _ _ r').1 as [counts'|e'].
      * by apply Forall_cons.
      * destruct IH as [Hk Hex]. split; [done|]. by apply Exists_cons_tl.
    + rewrite Hstep. simpl. destruct Hcase as [Hk Hex].
      split; [done|]. by apply Exists_cons_hd.
Qed.

Lemma summarize_clusters_run dry (clusters : list (list MemoryRow)) :
  is_configured = true →
  ∀ created covered (r : Remote) counts' r',
    for_each clusters (created, covered) (summarize_cluster dry) r
      = (Ok counts', r') →
    ∃ k,
      counts'.1 = created + k ∧ k ≤ length clusters ∧
      (dry = true → k = 0 ∧ r' = r) ∧
      counts'.2 ≤ covered + length (concat clusters) ∧
      (Forall (λ c, 3 ≤ length c) clusters → covered + 3 * k ≤ counts'.2) ∧
      dom (client.memories (client.tables r)) ⊆
        dom (client.memories (client.tables r')) ∧
      size (client.memories (client.tables r')) ≤
        size (client.memories (client.tables r)) + k.
Proof.
  intros Hc. induction clusters as [|c cs IH];
    intros created covered r counts' r' Hrun.
  - injection Hrun as <- <-. exists 0. simpl. split_and!; try done; lia.
  - rewrite client_facts.for_each_cons in Hrun.
    pose proof (summarize_cluster_run dry created covered c r Hc) as Hstep.
    destruct (_generate_summary c) as [text|e]; [|by rewrite Hstep in Hrun].
    destruct Hstep as (stored & r1 & Hstep & Hdry & Hdom & Hsize).
    rewrite Hstep in Hrun.
    destruct (IH _ _ _ _ _ Hrun) as (k & H1 & H2 & H3 & H4 & H5 & H6 & H7).
    exists ((if stored then 1 else 0) + k).
    cbn [concat length]. rewrite length_app. split_and!.
    + rewrite H1. destruct stored; lia.
    + destruct stored; lia.
    + intros Hd. destruct (Hdry Hd) as [-> ->].
      destruct (H3 Hd) as [-> ->]. done.
    + etrans; [exact H4|]. destruct (stored || dry); lia.
    + intros [Hc3 Hcs]%Forall_cons. specialize (H5 Hcs).
      destruct stored, dry; cbn [orb] in H5; lia.
    + set_solver.
    + destruct stored; lia.
Qed.

(** *** The sizes of the clusters *)

Lemma rows_at_concat_length (we : list MemoryRow) (found : list (list nat)) :
  Forall (Forall (λ j, j < length we)) found →
  length (concat (rows_at we <$> found)) = length (concat found).
Proof.
  induction 1 as [|ms found Hms _ IH]; [done|].
  cbn [fmap list_fmap concat]. rewrite !length_app, IH.
  by rewrite (summarize_facts.rows_at_length _ _ Hms).
Qed.

Lemma kept_candidates_bound (memories : list MemoryRow) thr :
  Forall (Forall (λ j, j < length (embedded memories)))
         (filter kept (candidates thr (embedded memories))).
Proof.
  destruct (summarize_facts.candidates_partition (embedded memories) thr)
    as (_ & Hcov & _).
  apply Forall_forall. intros ms [_ Hms]%list_elem_of_filter.
  apply Forall_forall. intros j Hj. apply Hcov.
  apply client_facts.elem_of_concat. eauto.
Qed.

Lemma cluster_memories_sizes (memories : list MemoryRow) thr :
  length (concat (_cluster_memories memories thr)) ≤ length memories ∧
  Forall (λ c, 3 ≤ length c) (_cluster_memories memories thr).
Proof.
  rewrite summarize_facts.cluster_memories_candidates.
  pose proof (kept_candidates_bound memories thr) as Hbound.
  destruct (summarize_facts.candidates_partition (embedded memories) thr)
    as (Hnd & Hcov & _).
  split.
  - rewrite (rows_at_concat_length _ _ Hbound).
    assert (length (embedded memories) ≤ length memories) as Hle
      by (unfold embedded; apply length_filter).
    etrans; [|exact Hle].
    transitivity (length (seq 0 (length (embedded memories))));
      [|by rewrite length_seq].
    apply submseteq_length, NoDup_submseteq.
    + by apply summarize_facts.NoDup_concat_filter.
    + intros j (ms & [_ Hms]%list_elem_of_filter & Hj)%client_facts.elem_of_concat.
      apply elem_of_seq. split; [lia|]. simpl. apply Hcov.
      apply client_facts.elem_of_concat. eauto.
  - apply Forall_fmap, Forall_forall.
    intros ms Hin. pose proof Hin as [Hkept _]%list_elem_of_filter.
    rewrite Forall_forall in Hbound. simpl.
    by rewrite (summarize_facts.rows_at_length _ _ (Hbound ms Hin)).
Qed.

(** X15: every cluster uses up three records with an embedding of its own:
    there are at most a third as many clusters as such records, and none at
    all when fewer than three records have an embedding. *)
Theorem cluster_memories_count (memories : list MemoryRow) (threshold : F) :
  3 * length (_cluster_memories memories threshold)
    ≤ length (embedded memories) ∧
  (length (embedded memories) < 3 → _cluster_memories memories threshold = []).
Proof.
  assert (3 * length (_cluster_memories memories threshold)
          ≤ length (embedded memories)) as Hbound.
  { assert (_cluster_memories memories threshold =
            _cluster_memories (embedded memories) threshold) as ->.
    { rewrite !summarize_facts.cluster_memories_candidates.
      unfold embedded. by rewrite list_filter_filter_l. }
    destruct (cluster_memories_sizes (embedded memories)
                threshold) as [Hlen H3].
    etrans; [|exact Hlen]. clear Hlen.
    induction H3 as [|c cs Hc _ IH]; [done|].
    cbn [concat length]. rewrite length_app. lia. }
  split; [done|]. intros Hlt.
  destruct (_cluster_memories memories threshold); [done|]. simpl in *. lia.
Qed.

(** *** Runs of [summarize] *)

Lemma get_all_memories_ok include_deleted (r : Remote) memories r1 :
  client.get_all_memories include_deleted r = (Ok memories, r1) →
  is_configured = true ∧ client.tables r1 = client.tables r.
Proof.
  intros Hget. destruct is_configured eqn:Hc.
  - split; [done|].
    destruct (gateway_facts.get_all_memories_scan include_deleted r Hc)
      as (n & reads & r' & Hrun & Ht & _).
    rewrite Hrun in Hget. by injection Hget as _ <-.
  - unfold client.get_all_memories, client._get_client in Hget.
    by rewrite Hc in Hget.
Qed.

(** X19: a run of [summarize] that gets past the size check ends in a
    [TypeError] exactly when some cluster has a member without a
    [memory_type] -- in a dry run too -- and otherwise returns its stats. *)
Theorem summarize_raises_on_untyped_cluster (similarity_threshold : F)
    (min_cluster_size : Z) (dry_run : bool) (r : Remote) memories r1 :
  client.get_all_memories false r = (Ok memories, r1) →
  (min_cluster_size ≤ Z.of_nat (length memories))%Z →
  let clusters :=
    _cluster_memories (filter (λ m, client.is_summary m = false) memories)
                      similarity_threshold in
  match (summarize similarity_threshold min_cluster_size dry_run r).1 with
  | Ok stats =>
      Forall (Forall typed) clusters ∧
      clusters_found stats = length clusters
  | Raise e =>
      exn_kind e = TypeError ∧ Exists (Exists (λ m, ¬ typed m)) clusters
  end.
Proof.
  intros Hget Hmin clusters.
  destruct (get_all_memories_ok _ _ _ _ Hget) as [Hc _].
  unfold summarize. unfold bind at 1. rewrite Hget.
  destruct (Z.ltb_spec (Z.of_nat (length memories)) min_cluster_size);
    [lia|].
  fold clusters. destruct clusters as [|c cs] eqn:Hcl; [done|].
  pose proof (summarize_clusters_outcome dry_run (c :: cs) Hc (0, 0) r1)
    as Hout.
  unfold bind.
  destruct (for_each (c :: cs) (0, 0) (summarize_cluster dry_run) r1)
    as [[counts|e] r2]; simpl in *; done.
Qed.

(** X20: the stats of a completed run are consistent: no more summaries than
    clusters, at least three covered records per summary, no more covered
    records than records read, and no summary in a dry run. *)
Theorem summarize_stats_bounds (similarity_threshold : F)
    (min_cluster_size : Z) (dry : bool) (r : Remote) stats r' :
  summarize similarity_threshold min_cluster_size dry r = (Ok stats, r') →
  dry_run stats = dry ∧
  summaries_created stats ≤ clusters_found stats ∧
  3 * summaries_created stats ≤ memories_covered stats ∧
  memories_covered stats ≤ total_memories stats ∧
  (dry = true → summaries_created stats = 0 ∧ r' = (client.get_all_memories false r).2).
Proof.
  unfold summarize. unfold bind at 1.
  destruct (client.get_all_memories false r) as [[memories|e] r1] eqn:Hget;
    [|done].
  destruct (get_all_memories_ok _ _ _ _ Hget) as [Hc _].
  destruct (_ <? _)%Z.
  { intros [= <- <-]. simpl. split_and!; try done; lia. }
  set (non_summaries := filter _ memories).
  destruct (cluster_memories_sizes non_summaries similarity_threshold)
    as [Hlen H3].
  destruct (_cluster_memories non_summaries similarity_threshold)
    as [|c cs] eqn:Hcl.
  { intros [= <- <-]. simpl. split_and!; try done; lia. }
  unfold bind.
  destruct (for_each (c :: cs) (0, 0) (summarize_cluster dry) r1)
    as [[counts|e] r2] eqn:Hrun; [|done].
  intros [= <- <-].
  destruct (summarize_clusters_run dry (c :: cs) Hc 0 0 r1 counts r2 Hrun)
    as (k & H1 & H2 & Hd & H4 & H5 & _ & _).
  specialize (H5 H3).
  pose proof (length_filter (λ m, client.is_summary m = false) memories).
  fold non_summaries in H. cbn [dry_run summaries_created clusters_found
    memories_covered total_memories].
  cbn [length] in H2.
  split_and!; try done; try lia.
  intros Hdry. destruct (Hd Hdry) as [-> ->]. split; [lia|done].
Qed.

(** X21: a completed run removes no row and adds at most one row for every
    summary it reports as created. *)
Theorem summarize_adds_reported_rows (similarity_threshold : F)
    (min_cluster_size : Z) (dry : bool) (r : Remote) stats r' :
  summarize similarity_threshold min_cluster_size dry r = (Ok stats, r') →
  dom (client.memories (client.tables r)) ⊆
    dom (client.memories (client.tables r')) ∧
  size (client.memories (client.tables r')) ≤
    size (client.memories (client.tables r)) + summaries_created stats.
Proof.
  unfold summarize. unfold bind at 1.
  destruct (client.get_all_memories false r) as [[memories|e] r1] eqn:Hget;
    [|done].
  destruct (get_all_memories_ok _ _ _ _ Hget) as [Hc Ht].
  destruct (_ <? _)%Z.
  { intros [= <- <-]. rewrite Ht. simpl. split; [done|lia]. }
  destruct (_cluster_memories _ similarity_threshold) as [|c cs].
  { intros [= <- <-]. rewrite Ht. simpl. split; [done|lia]. }
  unfold bind.
  destruct (for_each (c :: cs) (0, 0) (summarize_cluster dry) r1)
    as [[counts|e] r2] eqn:Hrun; [|done].
  intros [= <- <-].
  destruct (summarize_clusters_run dry (c :: cs) Hc 0 0 r1 counts r2 Hrun)
    as (k & H1 & _ & _ & _ & _ & Hdom & Hsize).
  rewrite Ht in Hdom, Hsize. cbn [summaries_created]. split; [done|lia].
Qed.

(** X17: a key point of a summary quotes the first 200 characters of the
    record without the whitespace at their two ends and with nothing else
    removed, after the index and before an ellipsis that is there exactly
    when the record is longer than 200 characters; the line is never longer
    than the index plus 207 characters. *)
Theorem key_point_bounded (i : nat) (content : string) :
  ∃ quoted lead trail,
    key_point i content =
      "  " +:+ pretty i +:+ ". " +:+ quoted +:+ ellipsis content ∧
    substring 0 200 content = lead +:+ quoted +:+ trail ∧
    blank lead ∧ blank trail ∧ trimmed quoted ∧
    (String.length content ≤ 200 → lead +:+ quoted +:+ trail = content) ∧
    String.length (key_point i content) ≤ String.length (pretty i) + 207.
Proof.
  destruct (pystr_facts.strip_split (substring 0 200 content))
    as (lead & trail & Hs & Hlead & Htrail).
  exists (strip (substring 0 200 content)), lead, trail. split_and!.
  - unfold key_point, ellipsis.
    destruct (_ <? _); [done|by rewrite pystr_facts.append_empty_r].
  - done.
  - done.
  - done.
  - apply pystr_facts.strip_trimmed.
  - intros Hle. by rewrite <- Hs, pystr_facts.substring_all.
  - unfold key_point. rewrite !pystr_facts.append_length.
    pose proof (pystr_facts.strip_length (substring 0 200 content)).
    pose proof (pystr_facts.substring_length_le 0 200 content).
    destruct (_ <? _); rewrite ?pystr_facts.append_length; simpl; lia.
Qed.

Lemma collect_tags_clean (cluster : list MemoryRow) tag :
  tag ∈ collect_tags cluster →
  tag ≠ "" ∧ strip tag = tag ∧ ","%char ∉ list_ascii_of_string tag.
Proof.
  unfold collect_tags. intros (m & Htag & _)%list_elem_of_bind.
  destruct (str_truthy (client.tags m)); [|by apply elem_of_nil in Htag].
  apply list_elem_of_filter in Htag as [Hne (w & -> & Hw)%list_elem_of_fmap].
  split_and!; [done|apply pystr_facts.strip_idemp|].
  intros Hc%pystr_facts.strip_chars. by apply (pystr_facts.split_no_sep _ _ _ Hw).
Qed.

Lemma sorted_set_elem (xs : list string) x : x ∈ sorted_set xs ↔ x ∈ xs.
Proof.
  unfold sorted_set. rewrite merge_sort_Permutation. apply elem_of_remove_dups.
Qed.

Lemma sorted_set_NoDup (xs : list string) : NoDup (sorted_set xs).
Proof.
  unfold sorted_set. rewrite merge_sort_Permutation. apply NoDup_remove_dups.
Qed.

Lemma read_back (tags : list string) :
  Forall (λ tag, tag ≠ "" ∧ strip tag = tag ∧
                 ","%char ∉ list_ascii_of_string tag) tags →
  filter (λ tag, tag ≠ EmptyString)
         (strip <$> split ","%char (join "," tags)) = tags.
Proof.
  intros Hall. destruct tags as [|t ts]; [done|].
  rewrite pystr_facts.split_join; [|done|].
  - induction Hall as [|x xs (Hne & Hs & _) _ IH]; [done|].
    cbn [fmap list_fmap]. rewrite Hs, filter_cons_True by done.
    f_equal. apply IH.
  - eapply Forall_impl; [done|]. by intros x (_ & _ & ?).
Qed.


Lemma join_nonempty sep (xs : list string) :
  xs ≠ [] → Forall (λ x, x ≠ EmptyString) xs → join sep xs ≠ EmptyString.
Proof.
  unfold join. destruct xs as [|x [|y ys]]; [done| |];
    intros _ [Hx _]%Forall_cons.
  - done.
  - change (String.concat sep (x :: y :: ys))
      with (x +:+ sep +:+ String.concat sep (y :: ys)).
    destruct x; [done|]. by rewrite pystr_facts.append_cons.
Qed.

Lemma summary_tags_clean (cluster : list MemoryRow) :
  Forall (λ tag, tag ≠ "" ∧ strip tag = tag ∧
                 ","%char ∉ list_ascii_of_string tag)
         (sorted_set (collect_tags cluster ++ ["auto-summary"])).
Proof.
  apply Forall_forall. intros tag [Hin|Hin]%sorted_set_elem%elem_of_app.
  - by apply (collect_tags_clean cluster).
  - apply list_elem_of_singleton in Hin as ->.
    split_and!; [done|done|]. simpl. intros Hin.
    repeat (apply elem_of_cons in Hin as [Hin|Hin]; [discriminate|]).
    by apply elem_of_nil in Hin.
Qed.

(** X18: the row that [summarize] upserts for a cluster is keyed in the
    [summary_] namespace, typed [pattern], never flagged as deleted and
    carries no embedding; its [tags] string, read back the way the code
    reads tags, is exactly the sorted, duplicate-free tags of the members
    plus [auto-summary]. *)
Theorem summary_row_is_tagged created covered (cluster : list MemoryRow)
    (r : Remote) text :
  is_configured = true →
  _generate_summary cluster = Ok text →
  ∃ data more,
    client.trace (summarize_cluster false (created, covered) cluster r).2 =
      client.trace r ++ client.UpsertMemory data :: more ∧
    client.p_content_hash data = summary_key text ∧
    client.p_content data = text ∧
    client.p_memory_type data = Some "pattern"%string ∧
    client.p_local_deleted data = false ∧
    client.p_embedding data = None ∧
    ∀ m : MemoryRow, client.tags m = client.p_tags data →
      collect_tags [m] = sorted_set (collect_tags cluster ++ ["auto-summary"]) ∧
      "auto-summary"%string ∈ collect_tags [m] ∧
      NoDup (collect_tags [m]) ∧
      ∀ tag, tag ∈ collect_tags cluster → tag ∈ collect_tags [m].
Proof.
  intros Hc Hgen. unfold summarize_cluster. rewrite Hgen.
  unfold client.upsert_memory, client._get_client. rewrite Hc.
  unfold bind at 1, bind at 1, ret at 1, try_except at 1, bind at 1,
    client.request at 1.
  match goal with |- context [client.faults r (client.trace r) ?rq] =>
    destruct (client.faults r (client.trace r) rq) as [msg|] end.
  all: cbv beta iota zeta; unfold ret at 1; cbv beta iota.
  2: unfold bind at 1, try_except, bind at 1, ret at 1, client.request;
     cbv beta iota zeta; cbn [client.tables client.trace client.faults];
     match goal with |- context [client.faults r ?tr ?rq] =>
       destruct (client.faults r tr rq) as [msg|] end.
  all: eexists _, _; split;
    [cbn [snd client.trace]; rewrite <- ?app_assoc; reflexivity|].
  all: split_and!; try done.
  all: intros m Hm; cbn [client.p_tags] in Hm.
  all: assert (collect_tags [m] =
               sorted_set (collect_tags cluster ++ ["auto-summary"])) as Heq.
  all: try (unfold collect_tags at 1; cbn [mbind list_bind]; rewrite Hm;
    rewrite app_nil_r; cbn [default];
    pose proof (summary_tags_clean cluster) as Hclean;
    assert (str_truthy (Some (join ","
              (sorted_set (collect_tags cluster ++ ["auto-summary"])))) = true)
      as ->;
    [unfold str_truthy; apply negb_true_iff, String.eqb_neq, join_nonempty;
      [intros Hnil;
       assert ("auto-summary"%string ∈
               sorted_set (collect_tags cluster ++ ["auto-summary"])) as Hin
         by (apply sorted_set_elem, elem_of_app; right; by left);
       rewrite Hnil in Hin; by apply elem_of_nil in Hin
      |eapply Forall_impl; [exact Hclean|]; by intros x (? & _)]
    |by apply read_back]).
  all: rewrite Heq; split_and!;
    [done
    |apply sorted_set_elem, elem_of_app; right; by left
    |apply sorted_set_NoDup
    |intros tag Htag; apply sorted_set_elem, elem_of_app; by left].
Qed.

End facts.
End summaries_facts.


(** ** Facts about the lookups *)
Module lookup_facts.
Import lookup.
Section facts.
Context {F : Type} {FA : PyFloat F} {P : Platform}.
Local Open Scope nat_scope.

Local Abbreviation Service := (lookup.Service F).
Local Abbreviation MemoryRow := (client.MemoryRow F).

Lemma set_cloud_id (s : Service) : set_cloud (cloud s) s = s.
Proof. by destruct s. Qed.

Lemma get_client_run (s : Service) :
  _get_client s =
  if is_configured then (Ok tt, s) else (Raise gateway.not_configured, s).
Proof.
  unfold _get_client, zoom, client._get_client.
  destruct is_configured; simpl; by rewrite set_cloud_id.
Qed.

(** A guarded query on a configured device. *)
Lemma lookup_run {A} q (answer : Service → list A) (s : Service) :
  is_configured = true →
  (_get_client ;;; try_except (query q answer) (λ e, ret [])) s =
  (Ok (match refuses s (asked s) q with
       | Some _ => []
       | None => answer s
       end),
   {| cloud := cloud s; asked := asked s ++ [q]; refuses := refuses s;
      ilike := ilike s |}).
Proof.
  intros Hc. unfold bind. rewrite get_client_run, Hc.
  unfold try_except, query. by destruct (refuses s (asked s) q).
Qed.

Lemma count_rows_split (keep : MemoryRow → bool) (s : Service) :
  count_rows (λ _, true) s =
  count_rows (λ row, negb (keep row)) s + count_rows keep s.
Proof.
  unfold count_rows. induction (stored_rows s) as [|row rows IH]; [done|].
  rewrite !filter_cons.
  destruct (keep row); repeat case_decide; try done; cbn [length] in *; lia.
Qed.

Lemma count_rows_le (keep : MemoryRow → bool) (s : Service) :
  count_rows keep s ≤ count_rows (λ _, true) s.
Proof. rewrite (count_rows_split keep). lia. Qed.

Lemma count_rows_all (s : Service) :
  count_rows (λ _, true) s = size (client.memories (client.tables (cloud s))).
Proof.
  unfold count_rows. rewrite <- length_map_to_list, <- (length_fmap snd).
  fold (stored_rows s). f_equal.
  induction (stored_rows s) as [|row rows IH]; [done|].
  rewrite filter_cons_True by done. by f_equal.
Qed.

(** X22: on a configured device [get_cloud_stats] never raises and never
    changes the store; the counts it returns are those of one state of the
    tables, so the total is the active plus the locally deleted records and
    bounds the number of summaries; as soon as one of its six queries is
    refused it returns that query's error text instead of any count. *)
Theorem cloud_stats_consistent (s : Service) :
  is_configured = true →
  ∃ result s',
    get_cloud_stats s = (Ok result, s') ∧
    cloud s' = cloud s ∧
    match result with
    | inl stats =>
        total_memories stats = active_memories stats + locally_deleted stats ∧
        summaries stats ≤ total_memories stats ∧
        total_memories stats = size (client.memories (client.tables (cloud s))) ∧
        graph_edges stats = size (client.memory_graph (client.tables (cloud s))) ∧
        deletion_log_entries stats =
          length (client.deletion_log (client.tables (cloud s))) ∧
        length (asked s') = length (asked s) + 6
    | inr msg =>
        ∃ sent q, asked s' = asked s ++ sent ++ [q] ∧
                  refuses s (asked s ++ sent) q = Some msg ∧
                  length sent < 6
    end.
Proof.
  intros Hc. unfold get_cloud_stats, bind at 1.
  rewrite get_client_run, Hc. unfold try_except.
  do 6 (unfold bind at 1, query at 1;
        cbn [cloud asked refuses ilike];
        match goal with |- context [refuses s ?tr ?q] =>
          destruct (refuses s tr q) eqn:?
        end;
        [eexists _, _; split; [reflexivity|]; split; [done|];
         cbn [asked exn_str]; rewrite <- ?app_assoc in *; cbn [List.app] in *;
         match goal with
         | H : refuses s (asked s ++ ?sent) ?q = Some _ |- _ => exists sent, q
         | H : refuses s (asked s) ?q = Some _ |- _ =>
             exists [], q; rewrite app_nil_r
         end; split_and!; [done|done|simpl; lia]|]).
  eexists _, _. split; [reflexivity|]. split; [done|].
  cbn [total_memories active_memories locally_deleted summaries graph_edges
       deletion_log_entries asked cloud].
  pose proof (count_rows_split client.local_deleted s) as Hsplit.
  pose proof (count_rows_le client.is_summary s) as Hle.
  pose proof (count_rows_all s) as Hall.
  unfold count_rows, stored_rows in *. cbn [cloud] in *.
  split_and!; try done.
  rewrite !length_app. simpl. lia.
Qed.

End facts.
End lookup_facts.

(** ** Facts about restoring *)
Module restore_facts.
Import restore.
Section facts.
Context {F : Type} {FA : PyFloat F} {P : Platform}.
Local Open Scope nat_scope.

Local Abbreviation Host := (restore.Host F).
Local Abbreviation MemoryRow := (client.MemoryRow F).

(** *** Dictionaries *)

Lemma dict_get_set_eq k v kvs : dict_get k (dict_set k v kvs) = Some v.
Proof.
  induction kvs as [|[k' v'] kvs IH]; simpl.
  - by rewrite String.eqb_refl.
  - destruct (String.eqb_spec k' k) as [->|Hne]; simpl.
    + by rewrite String.eqb_refl.
    + by destruct (String.eqb_spec k' k).
Qed.

Lemma dict_get_set_ne k k' v kvs :
  k ≠ k' → dict_get k (dict_set k' v kvs) = dict_get k kvs.
Proof.
  intros Hne. induction kvs as [|[k0 v0] kvs IH]; simpl.
  - by destruct (String.eqb_spec k' k); [congruence|].
  - destruct (String.eqb_spec k0 k') as [->|Hne0]; simpl.
    + by destruct (String.eqb_spec k' k); [congruence|].
    + by destruct (String.eqb_spec k0 k).
Qed.

Lemma dict_get_update_absent k base more :
  dict_get k more = None →
  dict_get k (dict_update base more) = dict_get k base.
Proof.
  unfold dict_update. revert base.
  induction more as [|[k' v'] more IH]; intros base; simpl; [done|].
  destruct (String.eqb_spec k' k) as [->|Hne]; [done|]. intros Hk.
  rewrite IH by done. by apply dict_get_set_ne.
Qed.

Lemma dict_get_set_is_Some k k' v kvs :
  is_Some (dict_get k kvs) → is_Some (dict_get k (dict_set k' v kvs)).
Proof.
  destruct (decide (k = k')) as [->|Hne].
  - by rewrite dict_get_set_eq.
  - by rewrite dict_get_set_ne.
Qed.

Lemma dict_get_update_is_Some k base more :
  is_Some (dict_get k base) ∨ is_Some (dict_get k more) →
  is_Some (dict_get k (dict_update base more)).
Proof.
  unfold dict_update. revert base.
  induction more as [|[k' v'] more IH]; intros base; simpl.
  - by intros [?|[? ?]].
  - intros Hk. apply IH.
    destruct (String.eqb_spec k' k) as [->|Hne].
    + left. by rewrite dict_get_set_eq.
    + destruct Hk as [Hk|Hk]; [left|by right].
      by apply dict_get_set_is_Some.
Qed.

(** X23: [_store_memory_locally] never raises and runs the [memory] command
    at most once.  A record whose metadata is neither empty nor a JSON
    object is not handed to the command at all and counts as failed.
    Otherwise the document handed over holds the content and a metadata
    object in which [restored_from] is ["cloud"] whatever the cloud metadata
    said, every key of the cloud metadata is present, and [tags] and [type]
    are the record's columns unless the cloud metadata has keys of these
    names; the result is [True] exactly when the command exits with 0. *)
Theorem store_memory_locally_marks_origin (content : string)
    (tags memory_type : option string) (metadata : json) (cli : MemoryCli) :
  let '(res, cli') := _store_memory_locally content tags memory_type metadata cli in
  exits cli' = exits cli ∧
  match (if json_truthy metadata then metadata else JObj []) with
  | JObj own =>
      ∃ kvs,
        calls cli' = calls cli ++ [stored_as content kvs] ∧
        (∃ ok, res = Ok ok ∧
               (ok = true ↔
                exits cli (calls cli) (stored_as content kvs) = Returned 0)) ∧
        dict_get "restored_from" kvs = Some (JStr "cloud") ∧
        (∀ k, is_Some (dict_get k own) → is_Some (dict_get k kvs)) ∧
        (dict_get "tags" own = None →
         dict_get "tags" kvs = Some (JStr (default ""%string tags))) ∧
        (dict_get "type" own = None →
         dict_get "type" kvs =
           Some (JStr (if str_truthy memory_type
                       then default ""%string memory_type else "note")))
  | _ => res = Ok false ∧ calls cli' = calls cli
  end.
Proof.
  unfold _store_memory_locally, store_data.
  destruct (if json_truthy metadata then metadata else JObj [])
    as [| | | | |own]; try done.
  set (base := [("tags", _); ("type", _)]).
  set (kvs := dict_set "restored_from" (JStr "cloud") (dict_update base own)).
  fold (stored_as content kvs). cbv beta iota zeta.
  assert (dict_get "restored_from" kvs = Some (JStr "cloud") ∧
          (∀ k, is_Some (dict_get k own) → is_Some (dict_get k kvs)) ∧
          (dict_get "tags" own = None →
           dict_get "tags" kvs = Some (JStr (default ""%string tags))) ∧
          (dict_get "type" own = None →
           dict_get "type" kvs =
             Some (JStr (if str_truthy memory_type
                         then default ""%string memory_type else "note"))))
    as Hkvs.
  { split_and!.
    - apply dict_get_set_eq.
    - intros k Hk. apply dict_get_set_is_Some, dict_get_update_is_Some.
      by right.
    - intros Habs. unfold kvs. rewrite dict_get_set_ne by done.
      rewrite dict_get_update_absent by done. simpl.
      by destruct tags as [[|? ?]|].
    - intros Habs. unfold kvs. rewrite dict_get_set_ne by done.
      rewrite dict_get_update_absent by done. done. }
  destruct (exits cli (calls cli) (stored_as content kvs))
    as [[|p|p]| | |msg] eqn:Hexit;
    (split; [done|]; exists kvs; split; [done|]; split; [|done];
     eexists; split; [done|]; rewrite Hexit; by split).
Qed.

(** *** The restore loops *)

Lemma store_memory_locally_run content tags memory_type metadata
    (cli : MemoryCli) :
  ∃ ok sent,
    _store_memory_locally content tags memory_type metadata cli =
      (Ok ok, {| calls := calls cli ++ sent; exits := exits cli |}) ∧
    length sent ≤ 1 ∧ (ok = true → length sent = 1).
Proof.
  unfold _store_memory_locally.
  destruct (store_data content tags memory_type metadata) as [data|e].
  - destruct (exits cli (calls cli) data) as [[|p|p]| | |msg];
      eexists _, [data]; split_and!; try done.
  - exists false, []. rewrite app_nil_r.
    destruct cli; split_and!; [done|simpl; lia|done].
Qed.

Lemma restore_one_run restored failed (mem : MemoryRow) (h : Host) :
  ∃ ok sent,
    restore_one (restored, failed) mem h =
      (Ok (if ok : bool then (S restored, failed) else (restored, S failed)),
       {| service := service h;
          memory_cli := {| calls := calls (memory_cli h) ++ sent;
                           exits := exits (memory_cli h) |} |}) ∧
    length sent ≤ 1 ∧ (ok = true → length sent = 1).
Proof.
  destruct (store_memory_locally_run (client.content mem) (client.tags mem)
              (client.memory_type mem) (client.metadata mem) (memory_cli h))
    as (ok & sent & Hrun & Hlen & Hok).
  exists ok, sent. split; [|done].
  unfold restore_one, bind, on_cli, zoom. rewrite Hrun. by destruct ok.
Qed.

Lemma restore_each_run (memories : list MemoryRow) :
  ∀ restored failed (h : Host),
  ∃ restored' failed' sent,
    for_each memories (restored, failed) restore_one h =
      (Ok (restored', failed'),
       {| service := service h;
          memory_cli := {| calls := calls (memory_cli h) ++ sent;
                           exits := exits (memory_cli h) |} |}) ∧
    restored' + failed' = restored + failed + length memories ∧
    restored ≤ restored' ∧
    restored' - restored ≤ length sent ≤ length memories.
Proof.
  induction memories as [|mem memories IH]; intros restored failed h.
  - exists restored, failed, []. simpl. rewrite app_nil_r.
    split_and!; try lia. by destruct h as [? []].
  - rewrite client_facts.for_each_cons.
    destruct (restore_one_run restored failed mem h)
      as (ok & sent1 & -> & Hlen1 & Hok1).
    match goal with |- context [for_each memories ?acc restore_one ?h1] =>
      destruct (IH acc.1 acc.2 h1) as (r' & f' & sent & Hrun & Hsum & Hle & Hs)
    end.
    exists r', f', (sent1 ++ sent).
    destruct ok; simpl in *; rewrite Hrun, app_assoc, !length_app;
      (split_and!; [done|lia|lia|try lia|lia]).
    all: specialize (Hok1 eq_refl); lia.
Qed.


Lemma on_service_run {A} (m : M (lookup.Service F) A) (h : Host) :
  on_service m h =
  ((m (service h)).1,
   {| service := (m (service h)).2; memory_cli := memory_cli h |}).
Proof. unfold on_service, zoom. by destruct (m (service h)). Qed.

Lemma on_cloud_run {A} (m : M (client.Remote F) A) (h : Host) :
  on_cloud m h =
  ((m (lookup.cloud (service h))).1,
   {| service := lookup.set_cloud (m (lookup.cloud (service h))).2 (service h);
      memory_cli := memory_cli h |}).
Proof.
  unfold on_cloud. rewrite on_service_run. unfold zoom.
  by destruct (m (lookup.cloud (service h))).
Qed.

(** The three loops that restore what a lookup returned. *)
Lemma restore_found_run (memories : list MemoryRow) (h : Host) :
  ∃ counts sent,
    for_each memories (0, 0) restore_one h =
      (Ok counts,
       {| service := service h;
          memory_cli := {| calls := calls (memory_cli h) ++ sent;
                           exits := exits (memory_cli h) |} |}) ∧
    counts.1 + counts.2 = length memories ∧
    counts.1 ≤ length sent ≤ length memories.
Proof.
  destruct (restore_each_run memories 0 0 h)
    as (r' & f' & sent & Hrun & Hsum & _ & Hs).
  exists (r', f'), sent. split_and!; simpl; try done; lia.
Qed.

(** X24: [restore_all], [restore_deleted] and [restore_by_search] account
    for every record the cloud returned: [restored + failed] is the number
    of records fetched, which is what [total] (or [found]) reports; the
    [memory] command was run at most once per record and at least once per
    record counted as restored; a search restores at most [limit]
    records. *)
Theorem restore_counts_every_record (h : Host) :
  is_configured = true →
  (∀ include_deleted, ∃ stats h' n,
     restore_all include_deleted h = (Ok stats, h') ∧
     total stats = Some n ∧ skipped stats = Some 0 ∧
     restored stats + failed stats = n ∧
     restored stats ≤
       length (calls (memory_cli h')) - length (calls (memory_cli h)) ≤ n) ∧
  (∃ stats h' n,
     restore_deleted h = (Ok stats, h') ∧
     total stats = Some n ∧
     restored stats + failed stats = n ∧
     restored stats ≤
       length (calls (memory_cli h')) - length (calls (memory_cli h)) ≤ n) ∧
  (∀ query_text limit, ∃ stats h' n,
     restore_by_search query_text limit h = (Ok stats, h') ∧
     found stats = Some n ∧ n ≤ limit ∧
     restored stats + failed stats = n ∧
     restored stats ≤
       length (calls (memory_cli h')) - length (calls (memory_cli h)) ≤ n).
Proof.
  intros Hc. split_and!.
  - intros include_deleted. unfold restore_all. unfold bind at 1.
    rewrite on_cloud_run.
    destruct (gateway_facts.get_all_memories_scan include_deleted
                (lookup.cloud (service h)) Hc)
      as (k & reads & r' & -> & _).
    cbn [fst snd]. unfold bind.
    match goal with |- context [for_each ?ms _ restore_one ?h1] =>
      destruct (restore_found_run ms h1) as (counts & sent & Hrun & Hsum & Hs)
    end.
    rewrite Hrun. eexists _, _, _. split; [reflexivity|].
    cbn [total skipped restored failed memory_cli calls].
    rewrite length_app. split_and!; try done; lia.
  - unfold restore_deleted. unfold bind at 1. rewrite on_service_run.
    unfold lookup.get_deleted_memories.
    rewrite (lookup_facts.lookup_run _ _ _ Hc). cbn [fst snd].
    match goal with |- context [for_each ?ms _ restore_one] =>
      match goal with |- context [{| service := ?s; memory_cli := ?c |}] =>
        destruct (restore_found_run ms {| service := s; memory_cli := c |})
          as (counts & sent & Hrun & Hsum & Hs);
        destruct ms as [|m ms'] eqn:Hms
      end
    end.
    + eexists _, _, 0. split; [reflexivity|]. simpl. split_and!; try done; lia.
    + unfold bind. rewrite Hrun. eexists _, _, _. split; [reflexivity|].
      cbn [total restored failed memory_cli calls].
      rewrite length_app. split_and!; try done; lia.
  - intros query_text limit. unfold restore_by_search. unfold bind at 1.
    rewrite on_service_run. unfold lookup.search_memories_text.
    rewrite (lookup_facts.lookup_run _ _ _ Hc). cbn [fst snd].
    match goal with |- context [for_each ?ms _ restore_one] =>
      match goal with |- context [{| service := ?s; memory_cli := ?c |}] =>
        assert (length ms ≤ limit) as Hlimit
          by (destruct (lookup.refuses _ _ _);
              [simpl; lia|rewrite length_take; lia]);
        destruct (restore_found_run ms {| service := s; memory_cli := c |})
          as (counts & sent & Hrun & Hsum & Hs);
        destruct ms as [|m ms'] eqn:Hms
      end
    end.
    + eexists _, _, 0. split; [reflexivity|]. simpl. split_and!; try done; lia.
    + unfold bind. rewrite Hrun. eexists _, _, _. split; [reflexivity|].
      cbn [found restored failed memory_cli calls].
      rewrite length_app. split_and!; try done; lia.
Qed.


(** *** Restoring by hash *)

Lemma found_and_missing (hashes found_hashes : list string) :
  NoDup hashes → NoDup found_hashes →
  (∀ h, h ∈ found_hashes → h ∈ hashes) →
  length found_hashes + length (filter (λ h, h ∉ found_hashes) hashes)
    = length hashes.
Proof.
  intros Hnd Hfound Hsub.
  transitivity (length (filter (λ h, h ∈ found_hashes) hashes ++
                        filter (λ h, h ∉ found_hashes) hashes));
    [|apply Permutation_length, filter_app_complement].
  rewrite length_app. f_equal. apply Permutation_length.
  apply NoDup_Permutation; [done|by apply NoDup_filter|].
  intros x. rewrite list_elem_of_filter. naive_solver.
Qed.

Lemma stored_hashes_NoDup (s : lookup.Service F)
    (keep : MemoryRow → Prop) `{∀ row, Decision (keep row)} :
  lookup.keyed (client.tables (lookup.cloud s)) →
  NoDup (client.content_hash <$> filter keep (lookup.stored_rows s)).
Proof.
  intros Hkeyed.
  apply (sublist_NoDup _ (client.content_hash <$> lookup.stored_rows s));
    [|apply fmap_sublist, sublist_filter].
  unfold lookup.stored_rows. rewrite <- list_fmap_compose.
  set (m := client.memories (client.tables (lookup.cloud s))).
  assert (client.content_hash ∘ snd <$> map_to_list m = fst <$> map_to_list m)
    as ->; [|apply NoDup_fst_map_to_list].
  apply list_fmap_ext. intros i [k row] Hi. simpl. apply Hkeyed.
  apply elem_of_map_to_list. by eapply list_elem_of_lookup_2.
Qed.

(** X25: when the requested hashes are distinct and the remote rows are
    stored under their own hash, [restore_by_hashes] accounts for every
    requested hash exactly once: [restored + failed + not_found = total],
    the number of hashes asked for -- also when the lookup is refused, in
    which case every hash is reported as not found. *)
Theorem restore_by_hashes_accounts (hashes : list string) (h : Host) :
  is_configured = true →
  NoDup hashes →
  lookup.keyed (client.tables (lookup.cloud (service h))) →
  ∃ stats h' n,
    restore_by_hashes hashes h = (Ok stats, h') ∧
    total stats = Some (length hashes) ∧
    not_found stats = Some n ∧
    restored stats + failed stats + n = length hashes ∧
    (lookup.refuses (service h) (lookup.asked (service h))
       (lookup.SelectMemoriesIn hashes) ≠ None →
     n = length hashes).
Proof.
  intros Hc Hnd Hkeyed. unfold restore_by_hashes. unfold bind at 1.
  rewrite on_service_run. unfold lookup.get_memories_by_hashes.
  rewrite (lookup_facts.lookup_run _ _ _ Hc). cbn [fst snd].
  set (memories := match lookup.refuses _ _ _ with
                   | Some _ => [] | None => _ end).
  assert (NoDup (client.content_hash <$> memories) ∧
          ∀ x, x ∈ client.content_hash <$> memories → x ∈ hashes)
    as [Hfound Hsub].
  { unfold memories. destruct (lookup.refuses _ _ _).
    - split; [apply NoDup_nil_2|]. by intros x ?%elem_of_nil.
    - split; [by apply stored_hashes_NoDup|].
      intros x (row & -> & [Hin _]%list_elem_of_filter)%list_elem_of_fmap.
      done. }
  pose proof (found_and_missing hashes _ Hnd Hfound Hsub) as Hcount.
  rewrite length_fmap in Hcount.
  match goal with |- context [{| service := ?s; memory_cli := ?c |}] =>
    destruct (restore_found_run memories {| service := s; memory_cli := c |})
      as (counts & sent & Hrun & Hsum & Hs)
  end.
  unfold bind. rewrite Hrun. eexists _, _, _. split; [reflexivity|].
  cbn [total not_found restored failed]. split_and!; try done; [lia|].
  intros Href. unfold memories.
  destruct (lookup.refuses _ _ _); [|done]. cbn [fmap list_fmap].
  clear. induction hashes as [|x xs IH]; [done|].
  rewrite filter_cons_True by (by intros ?%elem_of_nil).
  cbn [length]. by rewrite IH.
Qed.


(** *** Restoring reads the cloud only *)

Lemma lookup_keeps_cloud {A} q (answer : lookup.Service F → list A)
    (s : lookup.Service F) :
  lookup.cloud
    ((lookup._get_client ;;;
      try_except (lookup.query q answer) (λ e, ret [])) s).2
  = lookup.cloud s.
Proof.
  unfold bind. rewrite lookup_facts.get_client_run.
  destruct is_configured; [|done].
  unfold try_except, lookup.query. by destruct (lookup.refuses s _ q).
Qed.

Lemma restore_found_keeps_service (memories : list MemoryRow) (h : Host) :
  service (for_each memories (0, 0) restore_one h).2 = service h.
Proof.
  destruct (restore_found_run memories h) as (counts & sent & -> & _). done.
Qed.

Lemma restore_after_lookup {A} (m : M (lookup.Service F) (list MemoryRow))
    (k : list MemoryRow → M Host A) (h : Host) :
  (∀ memories h1, service (k memories h1).2 = service h1) →
  lookup.cloud (service ((memories <- on_service m ;; k memories) h).2)
  = lookup.cloud (m (service h)).2.
Proof.
  intros Hk. unfold bind. rewrite on_service_run.
  destruct (m (service h)) as [[memories|e] s']; cbn [fst snd]; [|done].
  by rewrite Hk.
Qed.

(** X26: no restore function writes to the cloud.  [restore_all] leaves
    every remote table as it was and sends page reads only; the other
    three send nothing but their lookup. *)
Theorem restore_never_writes_to_cloud (h : Host) :
  (∀ include_deleted,
     client.tables (lookup.cloud (service (restore_all include_deleted h).2))
       = client.tables (lookup.cloud (service h)) ∧
     ∃ reads,
       client.trace (lookup.cloud (service (restore_all include_deleted h).2))
         = client.trace (lookup.cloud (service h)) ++ reads ∧
       Forall summarize.is_read reads) ∧
  (∀ hashes,
     lookup.cloud (service (restore_by_hashes hashes h).2)
       = lookup.cloud (service h)) ∧
  lookup.cloud (service (restore_deleted h).2) = lookup.cloud (service h) ∧
  (∀ query_text limit,
     lookup.cloud (service (restore_by_search query_text limit h).2)
       = lookup.cloud (service h)).
Proof.
  split_and!.
  - intros include_deleted.
    destruct (summarize_facts.preserves_get_all_memories true include_deleted
                (lookup.cloud (service h))) as (_ & _ & Hdry).
    destruct (Hdry eq_refl) as [Ht Hreads].
    assert (lookup.cloud (service (restore_all include_deleted h).2) =
            (client.get_all_memories include_deleted
               (lookup.cloud (service h))).2) as ->; [|done].
    unfold restore_all. unfold bind at 1. rewrite on_cloud_run.
    destruct (client.get_all_memories include_deleted _)
      as [[memories|e] r1]; cbn [fst snd]; [|done].
    unfold bind.
    match goal with |- context [for_each memories _ restore_one ?h1] =>
      destruct (restore_found_run memories h1) as (counts & sent & -> & _)
    end.
    done.
  - intros hashes. unfold restore_by_hashes.
    rewrite restore_after_lookup; [apply lookup_keeps_cloud|].
    intros memories h1. unfold bind.
    destruct (restore_found_run memories h1) as (counts & sent & -> & _).
    done.
  - unfold restore_deleted.
    rewrite restore_after_lookup; [apply lookup_keeps_cloud|].
    intros [|m memories] h1; [done|]. unfold bind.
    destruct (restore_found_run (m :: memories) h1)
      as (counts & sent & -> & _).
    done.
  - intros query_text limit. unfold restore_by_search.
    rewrite restore_after_lookup; [apply lookup_keeps_cloud|].
    intros [|m memories] h1; [done|]. unfold bind.
    destruct (restore_found_run (m :: memories) h1)
      as (counts & sent & -> & _).
    done.
Qed.

End facts.
End restore_facts.


(** ** The further facts at concrete stores and inputs *)
Module cases_facts.
Import scenario cases.

(** X1 on an empty store: reading the sync state raises and sends nothing. *)
Lemma gateway_requires_configuration_witness :
  @is_configured offline = false ∧
  client.get_sync_state (P := offline) (store no_tables reliable) =
    (Raise (gateway.not_configured (P := offline)), store no_tables reliable).
Proof.
  split; [reflexivity|].
  exact (proj1 (proj2 (proj2 (proj2 (proj2 (proj2
    (gateway_facts.gateway_requires_configuration (P := offline)
       (store no_tables reliable) eq_refl))))))).
Defined.

(** X2 at the five records and a store that answers every request. *)
Lemma get_all_memories_returns_prefix_witness :
  @is_configured laptop = true ∧
  ∃ n reads r',
    client.get_all_memories (P := laptop) false (store five_memories reliable) =
      (Ok (take (n * client.page_size)
             (client.rows_by_created_at false five_memories)), r') ∧
    client.page_size = 1000%nat ∧
    client.tables r' = five_memories ∧
    client.trace r' = [] ++ reads ∧
    Forall (gateway.is_page_read false) reads.
Proof.
  split; [reflexivity|].
  exact (gateway_facts.get_all_memories_returns_prefix (P := laptop) false
           (store five_memories reliable) eq_refl).
Defined.

(** X3 at the store of an earlier upload, deleted rows included. *)
Lemma get_all_memories_complete_witness :
  (@is_configured laptop = true ∧
   ∀ tr lo hi, reliable tr (client.SelectMemoriesPage true lo hi) = None) ∧
  ∃ result reads r',
    client.get_all_memories (P := laptop) true
      (store uploaded_before reliable) = (Ok result, r') ∧
    result ≡ₚ
      filter (λ row, true = true ∨ client.local_deleted row = false)
             (snd <$> map_to_list (client.memories uploaded_before)) ∧
    (∀ row, row ∈ result ↔
       (∃ k, client.memories uploaded_before !! k = Some row) ∧
       (true = true ∨ client.local_deleted row = false)) ∧
    client.trace r' = [] ++ reads ∧
    length reads = (length result / client.page_size + 1)%nat.
Proof.
  split; [split; [reflexivity|intros; reflexivity]|].
  exact (gateway_facts.get_all_memories_complete (P := laptop) true
           (store uploaded_before reliable) eq_refl
           (λ _ _ _, eq_refl)).
Defined.


(** X4 on an empty store: what is written is read back. *)
Lemma sync_state_round_trip_witness :
  (@is_configured laptop = true ∧
   cycles.keeps_sync_state (store no_tables reliable)) ∧
  ∃ r1 row r2,
    client.update_sync_state (P := laptop) 42 (Some 7) "idle"
      (store no_tables reliable) = (Ok true, r1) ∧
    client.get_sync_state (P := laptop) r1 = (Ok row, r2) ∧
    client.s_device_name row = Some "laptop"%string ∧
    client.last_sync_updated_at row = Some 42 ∧
    client.memories_synced row = Some 7 ∧
    client.status row = "idle"%string ∧
    client.same_but_sync_state no_tables (client.tables r2).
Proof.
  assert (cycles.keeps_sync_state (store no_tables reliable)) as Hks
    by (split; intros; reflexivity).
  split; [split; [reflexivity|exact Hks]|].
  exact (cycle_facts.sync_state_round_trip (P := laptop) 42 (Some 7) "idle"
           (store no_tables reliable) eq_refl Hks).
Defined.

(** X5 at the two records: the cycle ends with one error and no request. *)
Lemma sync_once_without_configuration_witness :
  @is_configured offline = false ∧
  sync.sync_once (FA := float64.ops) (P := offline) (Some two_records)
    (store no_tables reliable) =
    (Ok {| sync.new_memories := 0; sync.updated_memories := 0;
           sync.deleted_marked := 0; sync.graph_edges := 0;
           sync.errors := 1; sync.duration_ms := 12;
           sync.error_message :=
             Some (exn_str (gateway.not_configured (P := offline))) |},
     store no_tables reliable).
Proof.
  split; [reflexivity|].
  exact (cycle_facts.sync_once_without_configuration (FA := float64.ops)
           (P := offline) two_records (store no_tables reliable) eq_refl).
Defined.

(** X6 at a missing file, at a path that cannot be opened, and at a
    database whose table cannot be read. *)
Lemma sync_once_reports_local_failures_only_witness :
  @is_configured laptop = true ∧
  daemon.sync_once (FA := float64.ops) (P := laptop) daemon.NoFile
    (store synced_to_100 reliable) =
    (Ok {| sync.new_memories := 0; sync.updated_memories := 0;
           sync.deleted_marked := 0; sync.graph_edges := 0;
           sync.errors := 1; sync.duration_ms := 0;
           sync.error_message :=
             Some ("Local database not found: " +:+
                   "/home/user/.local/share/mcp-memory/sqlite_vec.db") |},
     store synced_to_100 reliable) ∧
  daemon.sync_once (FA := float64.ops) (P := laptop)
    (daemon.Unopenable cannot_open) (store synced_to_100 reliable) =
    (Raise (Exn SqliteError cannot_open), store synced_to_100 reliable) ∧
  ∃ stats r',
    daemon.sync_once (FA := float64.ops) (P := laptop)
      (daemon.Database unreadable) (store synced_to_100 reliable)
      = (Ok stats, r') ∧
    (sync.error_message stats = Some "no such table: memories"%string ∧
     sync.errors stats = 1%nat ∧
     sync.new_memories stats = 0%nat ∧ sync.deleted_marked stats = 0%nat).
Proof.
  split; [reflexivity|]. split_and!.
  - exact (daemon_facts.sync_once_reports_local_failures_only
             (FA := float64.ops) (P := laptop) daemon.NoFile
             (store synced_to_100 reliable) eq_refl).
  - exact (daemon_facts.sync_once_reports_local_failures_only
             (FA := float64.ops) (P := laptop) (daemon.Unopenable cannot_open)
             (store synced_to_100 reliable) eq_refl).
  - exact (daemon_facts.sync_once_reports_local_failures_only
             (FA := float64.ops) (P := laptop) (daemon.Database unreadable)
             (store synced_to_100 reliable) eq_refl).
Defined.

(** X7 at the two records: the second cycle uploads nothing. *)
Lemma sync_once_twice_uploads_nothing_witness :
  (@is_configured laptop = true ∧
   cycles.keeps_sync_state (store no_tables reliable) ∧
   sync.memories two_records =
     sync.Rows [local_row 1 "aaa" "first" 10 None;
                local_row 2 "bbb" "second" 20 None] ∧
   0 ≤ sync.watermark_read (P := laptop) (store no_tables reliable)) ∧
  ∃ stats1 r1 stats2 r2 w,
    sync.sync_once (FA := float64.ops) (P := laptop) (Some two_records)
      (store no_tables reliable) = (Ok stats1, r1) ∧
    sync.sync_once (FA := float64.ops) (P := laptop) (Some two_records) r1
      = (Ok stats2, r2) ∧
    sync.new_memories stats2 = 0%nat ∧ sync.errors stats2 = 0%nat ∧
    client.watermark (P := laptop) r1 = Some w ∧
    client.watermark (P := laptop) r2 = Some w ∧
    ∀ mems, sync._get_local_memories (P := laptop) two_records w = Ok mems →
            sync.live mems = [].
Proof.
  assert (cycles.keeps_sync_state (store no_tables reliable)) as Hks
    by (split; intros; reflexivity).
  assert (0 ≤ sync.watermark_read (P := laptop) (store no_tables reliable))
    as Hpos by (vm_compute; discriminate).
  split; [split_and!; [reflexivity|exact Hks|reflexivity|exact Hpos]|].
  exact (cycle_facts.sync_once_twice_uploads_nothing (FA := float64.ops)
           (P := laptop) two_records _ (store no_tables reliable)
           eq_refl Hks eq_refl Hpos).
Defined.

(** X8 at the two records, on a device that never synced: the counter
    persisted is 0 plus the uploads of the cycle. *)
Lemma sync_once_accumulates_memories_synced_witness :
  (@is_configured laptop = true ∧
   client.get_sync_state (P := laptop) (store no_tables reliable) =
     (Ok {| client.s_device_name := Some "laptop"%string;
            client.last_sync_at := None;
            client.last_sync_updated_at := Some 0;
            client.memories_synced := Some 0;
            client.status := "never_synced" |},
      client.sent (client.SelectSyncState "laptop") (store no_tables reliable)) ∧
   sync._get_local_memories (P := laptop) two_records
     (sync.watermark_read (P := laptop) (store no_tables reliable))
   = Ok (sync.to_memory (P := laptop) <$>
           [local_row 1 "aaa" "first" 10 None;
            local_row 2 "bbb" "second" 20 None])) ∧
  ∃ stats r' row,
    sync.sync_once (FA := float64.ops) (P := laptop) (Some two_records)
      (store no_tables reliable) = (Ok stats, r') ∧
    last (client.trace r') = Some (client.UpsertSyncState row) ∧
    client.status row = "idle"%string ∧
    client.memories_synced row =
      Some (0 + Z.of_nat (sync.new_memories stats)).
Proof.
  assert (sync._get_local_memories (P := laptop) two_records
            (sync.watermark_read (P := laptop) (store no_tables reliable))
          = Ok (sync.to_memory (P := laptop) <$>
                  [local_row 1 "aaa" "first" 10 None;
                   local_row 2 "bbb" "second" 20 None])) as Hq
    by (vm_compute; reflexivity).
  split; [split_and!; [reflexivity|reflexivity|exact Hq]|].
  exact (cycle_facts.sync_once_accumulates_memories_synced
           (FA := float64.ops) (P := laptop) two_records
           (store no_tables reliable) _ _ _ eq_refl eq_refl Hq
           ltac:(discriminate)).
Defined.

(** X9 at the tombstoned record: one more log entry per cycle. *)
Lemma sync_once_relogs_tombstones_witness :
  (@is_configured laptop = true ∧
   cycles.accepts_all (store uploaded_before reliable) ∧
   sync.memories one_tombstone =
     sync.Rows [local_row 1 "ccc" "forgotten" 5 (Some 6)] ∧
   sync._get_local_memories (P := laptop) one_tombstone
     (sync.watermark_read (P := laptop) (store uploaded_before reliable))
   = Ok []) ∧
  ∃ stats r',
    sync.sync_once (FA := float64.ops) (P := laptop) (Some one_tombstone)
      (store uploaded_before reliable) = (Ok stats, r') ∧
    sync.deleted_marked stats = 1%nat ∧
    client.deletion_log (client.tables r') =
      [] ++ cycles.relogged (P := laptop) uploaded_before ["ccc"%string] ∧
    cycles.relogged (P := laptop) (client.tables r') ["ccc"%string] =
      cycles.relogged (P := laptop) uploaded_before ["ccc"%string] ∧
    cycles.accepts_all r'.
Proof.
  assert (cycles.accepts_all (store uploaded_before reliable)) as Hok
    by (intros tr rq; reflexivity).
  assert (sync._get_local_memories (P := laptop) one_tombstone
            (sync.watermark_read (P := laptop) (store uploaded_before reliable))
          = Ok []) as Hq by (vm_compute; reflexivity).
  split; [split_and!; [reflexivity|exact Hok|reflexivity|exact Hq]|].
  exact (cycle_facts.sync_once_relogs_tombstones (FA := float64.ops)
           (P := laptop) one_tombstone _ (store uploaded_before reliable)
           eq_refl Hok eq_refl Hq).
Defined.

(** X11 at a record with a packed 1.0: the embedding is found and decoded. *)
Lemma get_local_embeddings_sound_witness :
  sync._get_local_embeddings (FA := float64.ops) with_vector
    ["aaa"; "zzz"]%string !! "aaa"%string = Some [1%float] ∧
  ("aaa"%string ∈ ["aaa"; "zzz"]%string ∧ [1%float] ≠ [] ∧
   ∃ rows vectors row blob,
     sync.memories with_vector = sync.Rows rows ∧
     sync.memory_embeddings with_vector = sync.Rows vectors ∧
     row ∈ rows ∧ sync.row_content_hash row = "aaa"%string ∧
     (sync.rowid row, Some blob) ∈ vectors ∧
     sync._deserialize_embedding (FA := float64.ops) (Some blob)
       = Some [1%float]).
Proof.
  assert (sync._get_local_embeddings (FA := float64.ops) with_vector
            ["aaa"; "zzz"]%string !! "aaa"%string = Some [1%float]) as Hv
    by (vm_compute; reflexivity).
  split; [exact Hv|].
  exact (proj1 (cycle_facts.get_local_embeddings_sound (FA := float64.ops)
                  with_vector ["aaa"; "zzz"]%string) "aaa"%string _ Hv).
Defined.

(** X12 at a live and a tombstoned record. *)
Lemma local_hashes_split_witness :
  (sync.memories with_vector =
     sync.Rows [local_row 1 "aaa" "first" 10 None;
                local_row 2 "ccc" "forgotten" 5 (Some 6)] ∧
   NoDup (sync.row_content_hash <$>
            [local_row 1 "aaa" "first" 10 None;
             local_row 2 "ccc" "forgotten" 5 (Some 6)])) ∧
  ∃ hashes,
    cycles._get_all_local_hashes with_vector = Ok hashes ∧
    ∀ row, row ∈ [local_row 1 "aaa" "first" 10 None;
                  local_row 2 "ccc" "forgotten" 5 (Some 6)] →
      (sync.row_content_hash row ∈ hashes ↔ sync.row_deleted_at row = None) ∧
      (sync.row_content_hash row ∈ sync._get_locally_deleted with_vector ↔
       sync.row_deleted_at row ≠ None).
Proof.
  assert (NoDup (sync.row_content_hash <$>
                   [local_row 1 "aaa" "first" 10 None;
                    local_row 2 "ccc" "forgotten" 5 (Some 6)])) as Hnd
    by (apply (bool_decide_unpack _); vm_compute; exact I).
  split; [split; [reflexivity|exact Hnd]|].
  exact (cycle_facts.local_hashes_split (F := float) with_vector _
           eq_refl Hnd).
Defined.

(** X14 at the two records and three passes of the loop. *)
Lemma sync_daemon_settles_witness :
  (@is_configured laptop = true ∧
   cycles.keeps_sync_state (store no_tables reliable) ∧
   sync.memories two_records =
     sync.Rows [local_row 1 "aaa" "first" 10 None;
                local_row 2 "bbb" "second" 20 None] ∧
   0 ≤ sync.watermark_read (P := laptop) (store no_tables reliable)) ∧
  ∃ stats passes r',
    daemon.sync_daemon (FA := float64.ops) (P := laptop)
      (daemon.Database two_records)
      (replicate 3 (daemon.Database two_records)) (store no_tables reliable)
      = (Ok (stats, Some <$> passes), r') ∧
    length passes = 3%nat ∧
    Forall (λ stats, sync.new_memories stats = 0%nat ∧
                     sync.errors stats = 0%nat) passes.
Proof.
  assert (cycles.keeps_sync_state (store no_tables reliable)) as Hks
    by (split; intros; reflexivity).
  assert (0 ≤ sync.watermark_read (P := laptop) (store no_tables reliable))
    as Hpos by (vm_compute; discriminate).
  split; [split_and!; [reflexivity|exact Hks|reflexivity|exact Hpos]|].
  exact (daemon_facts.sync_daemon_settles (FA := float64.ops) (P := laptop)
           two_records _ 3 (store no_tables reliable)
           eq_refl Hks eq_refl Hpos).
Defined.


(** X18 at the three records: the stored summary carries their tags. *)
Lemma summary_row_is_tagged_witness :
  (@is_configured laptop = true ∧
   summarize._generate_summary (F := float) trio = Ok trio_summary) ∧
  ∃ data more,
    client.trace
      (summarize.summarize_cluster (P := laptop) false (0%nat, 0%nat) trio
         (store no_tables reliable)).2 =
      [] ++ client.UpsertMemory data :: more ∧
    client.p_content_hash data = summarize.summary_key (P := laptop) trio_summary ∧
    client.p_content data = trio_summary ∧
    client.p_memory_type data = Some "pattern"%string ∧
    client.p_local_deleted data = false ∧
    client.p_embedding data = None ∧
    ∀ m : client.MemoryRow float, client.tags m = client.p_tags data →
      summarize.collect_tags [m] =
        pystr.sorted_set (summarize.collect_tags trio ++ ["auto-summary"%string]) ∧
      "auto-summary"%string ∈ summarize.collect_tags [m] ∧
      NoDup (summarize.collect_tags [m]) ∧
      ∀ tag, tag ∈ summarize.collect_tags trio → tag ∈ summarize.collect_tags [m].
Proof.
  split; [split; reflexivity|].
  exact (summaries_facts.summary_row_is_tagged (P := laptop) 0%nat 0%nat trio
           (store no_tables reliable) trio_summary eq_refl eq_refl).
Defined.

(** X19 at three similar records, one without a type: the run raises. *)
Lemma summarize_raises_on_untyped_cluster_witness :
  (client.get_all_memories (P := laptop) false (store untyped_trio reliable) =
     (Ok (client.rows_by_created_at false untyped_trio),
      (client.get_all_memories (P := laptop) false
         (store untyped_trio reliable)).2) ∧
   3 ≤ Z.of_nat (length (client.rows_by_created_at false untyped_trio))) ∧
  let clusters :=
    summarize._cluster_memories (FA := float64.ops)
      (filter (λ m, client.is_summary m = false)
              (client.rows_by_created_at false untyped_trio)) 0.75%float in
  match (summarize.summarize (FA := float64.ops) (P := laptop) 0.75%float 3
           false (store untyped_trio reliable)).1 with
  | Ok stats =>
      Forall (Forall summaries.typed) clusters ∧
      summarize.clusters_found stats = length clusters
  | Raise e =>
      exn_kind e = TypeError ∧
      Exists (Exists (λ m, ¬ summaries.typed m)) clusters
  end.
Proof.
  assert (client.get_all_memories (P := laptop) false
            (store untyped_trio reliable) =
          (Ok (client.rows_by_created_at false untyped_trio),
           (client.get_all_memories (P := laptop) false
              (store untyped_trio reliable)).2)) as Hrun
    by (vm_compute; reflexivity).
  assert (3 ≤ Z.of_nat (length (client.rows_by_created_at false untyped_trio)))
    as Hlen by (vm_compute; discriminate).
  split; [split; [exact Hrun|exact Hlen]|].
  exact (summaries_facts.summarize_raises_on_untyped_cluster
           (FA := float64.ops) (P := laptop) 0.75%float 3 false
           (store untyped_trio reliable) _ _ Hrun Hlen).
Defined.

(** X20 at the five records: one cluster of three gives one summary. *)
Lemma summarize_stats_bounds_witness :
  summarize.summarize (FA := float64.ops) (P := laptop) 0.75%float 3 false
    (store five_memories reliable) =
    (Ok five_summarized,
     (summarize.summarize (FA := float64.ops) (P := laptop) 0.75%float 3 false
        (store five_memories reliable)).2) ∧
  (summarize.dry_run five_summarized = false ∧
   summarize.summaries_created five_summarized ≤
     summarize.clusters_found five_summarized ∧
   3 * summarize.summaries_created five_summarized ≤
     summarize.memories_covered five_summarized ∧
   summarize.memories_covered five_summarized ≤
     summarize.total_memories five_summarized ∧
   (false = true →
    summarize.summaries_created five_summarized = 0 ∧
    (summarize.summarize (FA := float64.ops) (P := laptop) 0.75%float 3 false
       (store five_memories reliable)).2 =
    (client.get_all_memories (P := laptop) false
       (store five_memories reliable)).2))%nat.
Proof.
  assert (summarize.summarize (FA := float64.ops) (P := laptop) 0.75%float 3
            false (store five_memories reliable) =
          (Ok five_summarized,
           (summarize.summarize (FA := float64.ops) (P := laptop) 0.75%float 3
              false (store five_memories reliable)).2)) as Hrun
    by (vm_compute; reflexivity).
  split; [exact Hrun|].
  exact (summaries_facts.summarize_stats_bounds (FA := float64.ops)
           (P := laptop) 0.75%float 3 false (store five_memories reliable)
           _ _ Hrun).
Defined.

(** X21 at the five records: the run adds one row and removes none. *)
Lemma summarize_adds_reported_rows_witness :
  summarize.summarize (FA := float64.ops) (P := laptop) 0.75%float 3 false
    (store five_memories reliable) =
    (Ok five_summarized,
     (summarize.summarize (FA := float64.ops) (P := laptop) 0.75%float 3 false
        (store five_memories reliable)).2) ∧
  dom (client.memories five_memories) ⊆
    dom (client.memories (client.tables
      (summarize.summarize (FA := float64.ops) (P := laptop) 0.75%float 3
         false (store five_memories reliable)).2)) ∧
  (size (client.memories (client.tables
      (summarize.summarize (FA := float64.ops) (P := laptop) 0.75%float 3
         false (store five_memories reliable)).2)) ≤
    size (client.memories five_memories) +
    summarize.summaries_created five_summarized)%nat.
Proof.
  assert (summarize.summarize (FA := float64.ops) (P := laptop) 0.75%float 3
            false (store five_memories reliable) =
          (Ok five_summarized,
           (summarize.summarize (FA := float64.ops) (P := laptop) 0.75%float 3
              false (store five_memories reliable)).2)) as Hrun
    by (vm_compute; reflexivity).
  split; [exact Hrun|].
  exact (summaries_facts.summarize_adds_reported_rows (FA := float64.ops)
           (P := laptop) 0.75%float 3 false (store five_memories reliable)
           _ _ Hrun).
Defined.

(** X22 at the five records and a service that answers every query. *)
Lemma cloud_stats_consistent_witness :
  @is_configured laptop = true ∧
  ∃ result s',
    lookup.get_cloud_stats (P := laptop) (service five_memories)
      = (Ok result, s') ∧
    lookup.cloud s' = store five_memories reliable ∧
    match result with
    | inl stats =>
        (lookup.total_memories stats =
           lookup.active_memories stats + lookup.locally_deleted stats ∧
         lookup.summaries stats ≤ lookup.total_memories stats ∧
         lookup.total_memories stats = size (client.memories five_memories) ∧
         lookup.graph_edges stats = size (client.memory_graph five_memories) ∧
         lookup.deletion_log_entries stats =
           length (client.deletion_log five_memories) ∧
         length (lookup.asked s') = 0 + 6)%nat
    | inr msg =>
        ∃ sent q, lookup.asked s' = [] ++ sent ++ [q] ∧
                  lookup.refuses (service five_memories) ([] ++ sent) q
                    = Some msg ∧
                  (length sent < 6)%nat
    end.
Proof.
  split; [reflexivity|].
  exact (lookup_facts.cloud_stats_consistent (P := laptop)
           (service five_memories) eq_refl).
Defined.

(** X24 at a table with one active and two deleted records and a command
    that fails from its second call on: each of the three functions finds
    records, restores one and counts the others as failed. *)
Lemma restore_counts_every_record_witness :
  @is_configured laptop = true ∧
  ((restore.restore_all (P := laptop) true archive_host).1 =
     Ok {| restore.total := Some 3%nat; restore.found := None;
           restore.restored := 1; restore.skipped := Some 0%nat;
           restore.not_found := None; restore.failed := 2 |} ∧
   (restore.restore_deleted (P := laptop) archive_host).1 =
     Ok {| restore.total := Some 2%nat; restore.found := None;
           restore.restored := 1; restore.skipped := None;
           restore.not_found := None; restore.failed := 1 |} ∧
   (restore.restore_by_search (P := laptop) "o" 2 archive_host).1 =
     Ok {| restore.total := None; restore.found := Some 2%nat;
           restore.restored := 1; restore.skipped := None;
           restore.not_found := None; restore.failed := 1 |}) ∧
  (∃ stats h' n,
     restore.restore_all (P := laptop) true archive_host = (Ok stats, h') ∧
     restore.total stats = Some n ∧ restore.skipped stats = Some 0%nat ∧
     (restore.restored stats + restore.failed stats = n ∧
      restore.restored stats ≤
        length (restore.calls (restore.memory_cli h')) -
        length (restore.calls (restore.memory_cli archive_host)) ≤ n)%nat) ∧
  (∃ stats h' n,
     restore.restore_deleted (P := laptop) archive_host = (Ok stats, h') ∧
     restore.total stats = Some n ∧
     (restore.restored stats + restore.failed stats = n ∧
      restore.restored stats ≤
        length (restore.calls (restore.memory_cli h')) -
        length (restore.calls (restore.memory_cli archive_host)) ≤ n)%nat) ∧
  (∃ stats h' n,
     restore.restore_by_search (P := laptop) "o" 2 archive_host
       = (Ok stats, h') ∧
     restore.found stats = Some n ∧
     (n ≤ 2 ∧
      restore.restored stats + restore.failed stats = n ∧
      restore.restored stats ≤
        length (restore.calls (restore.memory_cli h')) -
        length (restore.calls (restore.memory_cli archive_host)) ≤ n)%nat).
Proof.
  split; [reflexivity|].
  split; [split_and!; vm_compute; reflexivity|].
  destruct (restore_facts.restore_counts_every_record (P := laptop)
              archive_host eq_refl) as (Hall & Hdeleted & Hsearch).
  split_and!;
    [exact (Hall true)|exact Hdeleted|exact (Hsearch "o"%string 2%nat)].
Defined.

(** X25 at one stored and one unknown hash. *)
Lemma restore_by_hashes_accounts_witness :
  (@is_configured laptop = true ∧
   NoDup ["h1"; "zz"]%string ∧
   lookup.keyed five_memories) ∧
  ∃ stats h' n,
    restore.restore_by_hashes (P := laptop) ["h1"; "zz"]%string
      (host five_memories) = (Ok stats, h') ∧
    restore.total stats = Some 2%nat ∧
    restore.not_found stats = Some n ∧
    (restore.restored stats + restore.failed stats + n = 2)%nat ∧
    (lookup.refuses (service five_memories) []
       (lookup.SelectMemoriesIn ["h1"; "zz"]%string) ≠ None →
     n = 2%nat).
Proof.
  assert (NoDup ["h1"; "zz"]%string) as Hnd
    by (apply (bool_decide_unpack _); vm_compute; exact I).
  assert (lookup.keyed five_memories) as Hkeyed.
  { assert (Forall (λ kv, client.content_hash kv.2 = kv.1)
              (map_to_list (client.memories five_memories))) as Hall
      by (apply (bool_decide_unpack _); vm_compute; exact I).
    intros k row Hk. apply elem_of_map_to_list in Hk.
    exact (proj1 (Forall_forall _ _) Hall (k, row) Hk). }
  split; [split_and!; [reflexivity|exact Hnd|exact Hkeyed]|].
  exact (restore_facts.restore_by_hashes_accounts (P := laptop)
           ["h1"; "zz"]%string (host five_memories) eq_refl Hnd Hkeyed).
Defined.

(** A daemon whose database cannot be opened on the first pass of the loop
    and is missing on the second: the first pass ends in the back-off, the
    second returns stats with one error, the third syncs again. *)
Example sync_daemon_backs_off_once :
  match (daemon.sync_daemon (FA := float64.ops) (P := laptop)
           (daemon.Database two_records)
           [daemon.Unopenable cannot_open; daemon.NoFile;
            daemon.Database two_records]
           (store no_tables reliable)).1 with
  | Ok (stats, passes) =>
      sync.new_memories stats = 2%nat ∧
      fmap (M := option) sync.errors <$> passes =
        [None; Some 1%nat; Some 0%nat]
  | Raise _ => False
  end.
Proof. vm_compute. split; reflexivity. Qed.

(** A key point drops a no-break space and the blanks around the text. *)
Example key_point_strips_no_break_space :
  summarize.key_point 3 (String (ascii_of_nat 160) " spaced out  ")
  = "  3. spaced out"%string.
Proof. reflexivity. Qed.

End cases_facts.
